(** * Qtone-web: pitch estimator, real-time tracker and tone encoder

    A shallow embedding of [detectPitch] (difference function, normalisation,
    candidate collection, candidate selection and parabolic refinement), of
    the pitch tracker of [AudioEngine] ([detectLoop], [smoothCents]) with the
    part of [processPitch] that drives it, and of the WAV encoding in
    [generateToneWav].  JavaScript numbers are IEEE 754 binary64 values, which is
    what Rocq's primitive [float] is, so every arithmetic operation and every
    comparison below is the one the engine evaluates; [NaN] compares false
    with everything, as it does in the source. *)

From Stdlib Require Import ZArith Bool List Lia Floats Sorted.
From Stdlib Require Uint63 String Ascii.
Import ListNotations.

Set Warnings "-inexact-float".

#[local] Open Scope float_scope.

(** JavaScript's [a > b] on numbers is [b < a]; [a >= b] is [b <= a]. *)
Definition gtb (a b : float) : bool := b <? a.
Definition geb (a b : float) : bool := b <=? a.
Infix ">?" := gtb (at level 70, no associativity) : float_scope.
Infix ">=?" := geb (at level 70, no associativity) : float_scope.

(** An integer held in a JavaScript number (array indices, lags). *)
Definition Z2f (z : Z) : float := of_uint63 (Uint63.of_Z z).

(** ** The estimator: [detectPitch], steps 4 and 5 *)

Module Yin.

(** [{ tau, value }] *)
Record candidate : Type := mkCandidate { tau : Z; value : float }.

(** Body of the selection loop: the two branches that assign [best = c]. *)
Definition consider (best c : candidate) : candidate :=
  if value c <? value best * 0.8 then c
  else if (value c <? value best * 1.2) && (Z2f (tau c) >? Z2f (tau best) * 1.5)
       then c
       else best.

(** [for (let i = 1; i < candidates.length; i++)], with [n] the number of
    iterations still to run. *)
Fixpoint pickLoop (candidates : list candidate) (n i : nat) (best : candidate)
  : candidate :=
  match n with
  | O => best
  | S n' =>
      match nth_error candidates i with
      | Some c => pickLoop candidates n' (S i) (consider best c)
      | None => best
      end
  end.

(** Step 4; [None] stands for the early [return -1] on an empty list. *)
Definition pickBest (candidates : list candidate) : option candidate :=
  match nth_error candidates 0 with
  | None => None
  | Some c0 => Some (pickLoop candidates (length candidates - 1) 1 c0)
  end.

(** The selection rule in the words of the specification: replace the current
    best by [c] if (a) [c] is strictly stronger, or (b) [c] is similar and at
    a much longer lag. *)
Definition replaces (best c : candidate) : bool :=
  (value c <? value best * 0.8)
  || ((value c <? value best * 1.2) && (Z2f (tau c) >? Z2f (tau best) * 1.5)).

Definition specStep (best c : candidate) : candidate :=
  if replaces best c then c else best.

(** Reading [yinBuffer[i]]; an index outside the array yields [undefined],
    which arithmetic turns into [NaN]. *)
Definition rd (yinBuffer : list float) (i : Z) : float :=
  if (i <? 0)%Z then nan else nth (Z.to_nat i) yinBuffer nan.

(** The three samples around the chosen lag. *)
Definition sampleS0 (yinBuffer : list float) (tauEstimate : Z) : float :=
  if (tauEstimate >? 0)%Z then rd yinBuffer (tauEstimate - 1)
  else rd yinBuffer tauEstimate.

Definition sampleS1 (yinBuffer : list float) (tauEstimate : Z) : float :=
  rd yinBuffer tauEstimate.

Definition sampleS2 (yinBuffer : list float) (maxTau tauEstimate : Z) : float :=
  if (tauEstimate + 1 <? maxTau)%Z then rd yinBuffer (tauEstimate + 1)
  else rd yinBuffer tauEstimate.

(** Step 5 on the three samples: [betterTau]. *)
Definition interpolate (tauEstimate : Z) (s0 s1 s2 : float) : float :=
  let denom := 2 * (2 * s1 - s2 - s0) in
  if negb (denom =? 0) then Z2f tauEstimate + (s0 - s2) / denom
  else Z2f tauEstimate.

Definition betterTau (yinBuffer : list float) (maxTau tauEstimate : Z) : float :=
  interpolate tauEstimate
    (sampleS0 yinBuffer tauEstimate)
    (sampleS1 yinBuffer tauEstimate)
    (sampleS2 yinBuffer maxTau tauEstimate).

(** Steps 4 and 5 and the result, from the collected candidates. *)
Definition detectPitchFrom (yinBuffer : list float) (maxTau : Z)
    (candidates : list candidate) (sampleRate : float) : float :=
  match pickBest candidates with
  | None => -1
  | Some best => sampleRate / betterTau yinBuffer maxTau (tau best)
  end.

End Yin.

(** ** The tracker: [AudioEngine] *)

Module AudioEngine.

Definition AMPLITUDE_THRESHOLD : float := 0.005.
Definition PITCH_SMOOTHING : float := 0.7.
Definition CENTS_SMOOTHING : float := 0.88.
Definition CENTS_DEADZONE : float := 1.5.
Definition JUMP_CONFIRM : Z := 3.

(** The pitch detection state of the engine. *)
Record state : Type := mkState {
  smoothedPitch : float;
  smoothedCentsNote : Z;
  smoothedCents : float;
  jumpCount : Z;
  jumpCandidate : float
}.

(** [let smoothedPitch = 0; let smoothedCentsNote = -1; ...] *)
Definition init : state := mkState 0 (-1) 0 0 0.

Definition set_smoothedPitch (v : float) (s : state) : state :=
  mkState v (smoothedCentsNote s) (smoothedCents s) (jumpCount s) (jumpCandidate s).
Definition set_smoothedCentsNote (v : Z) (s : state) : state :=
  mkState (smoothedPitch s) v (smoothedCents s) (jumpCount s) (jumpCandidate s).
Definition set_smoothedCents (v : float) (s : state) : state :=
  mkState (smoothedPitch s) (smoothedCentsNote s) v (jumpCount s) (jumpCandidate s).
Definition set_jumpCount (v : Z) (s : state) : state :=
  mkState (smoothedPitch s) (smoothedCentsNote s) (smoothedCents s) v (jumpCandidate s).
Definition set_jumpCandidate (v : float) (s : state) : state :=
  mkState (smoothedPitch s) (smoothedCentsNote s) (smoothedCents s) (jumpCount s) v.

(** What [onPitchDetected] is called with: [(pitch, amplitude)]. *)
Definition report : Type := (float * float)%type.

(** [ratio > 1.8 || ratio < 0.55] *)
Definition isJump (ratio : float) : bool := (ratio >? 1.8) || (ratio <? 0.55).

(** [jumpCandidate > 0 ? pitch / jumpCandidate : 0] *)
Definition candRatio (s : state) (pitch : float) : float :=
  if jumpCandidate s >? 0 then pitch / jumpCandidate s else 0.

(** [candRatio > 0.9 && candRatio < 1.1] *)
Definition nearCandidate (s : state) (pitch : float) : bool :=
  (candRatio s pitch >? 0.9) && (candRatio s pitch <? 1.1).

(** Lines 105-110: count the block for the running candidate or start a
    new candidate. *)
Definition noteJump (s : state) (pitch : float) : state :=
  if nearCandidate s pitch then set_jumpCount (jumpCount s + 1)%Z s
  else set_jumpCount 1%Z (set_jumpCandidate pitch s).

(** [PITCH_SMOOTHING * smoothedPitch + (1 - PITCH_SMOOTHING) * pitch] *)
Definition blend (smoothed pitch : float) : float :=
  PITCH_SMOOTHING * smoothed + (1 - PITCH_SMOOTHING) * pitch.

(** One run of [detectLoop] while listening with a callback registered.
    [amplitude] is the root mean square of the block and [pitch] the value
    [detectPitch] returns for it (only looked at past the amplitude gate). *)
Definition detectLoop (s : state) (amplitude pitch : float) : state * report :=
  if amplitude <? AMPLITUDE_THRESHOLD then
    (set_smoothedCentsNote (-1) (set_smoothedPitch 0 s), (0, 0))
  else if (pitch >? 0) && (pitch <? 5000) then
    if smoothedPitch s >? 0 then
      if isJump (pitch / smoothedPitch s) then
        let s1 := noteJump s pitch in
        if (jumpCount s1 >=? JUMP_CONFIRM)%Z then
          let s2 := set_jumpCandidate 0 (set_jumpCount 0%Z (set_smoothedPitch pitch s1)) in
          (s2, (smoothedPitch s2, amplitude))
        else
          (s1, (smoothedPitch s1, amplitude))
      else
        let s1 := set_jumpCandidate 0 (set_jumpCount 0%Z s) in
        let s2 := set_smoothedPitch (blend (smoothedPitch s1) pitch) s1 in
        (s2, (smoothedPitch s2, amplitude))
    else
      let s1 := set_smoothedPitch pitch s in
      (s1, (smoothedPitch s1, amplitude))
  else
    (set_jumpCandidate 0 (set_jumpCount 0%Z
       (set_smoothedCentsNote (-1) (set_smoothedPitch 0 s))), (0, 0)).

(** [smoothCents(noteIndex, rawCents)]: the new state and the returned value. *)
Definition smoothCents (s : state) (noteIndex : Z) (rawCents : float)
  : state * float :=
  if negb (noteIndex =? smoothedCentsNote s)%Z then
    let s1 := set_smoothedCents rawCents (set_smoothedCentsNote noteIndex s) in
    (s1, smoothedCents s1)
  else if abs (rawCents - smoothedCents s) <? CENTS_DEADZONE then
    (s, smoothedCents s)
  else
    let s1 := set_smoothedCents
                (CENTS_SMOOTHING * smoothedCents s + (1 - CENTS_SMOOTHING) * rawCents) s in
    (s1, smoothedCents s1).

(** A block as the tracker sees it. *)
Definition block : Type := (float * float)%type.

Definition feed (s : state) (b : block) : state := fst (detectLoop s (fst b) (snd b)).

(** The state after a sequence of blocks. *)
Definition run (s : state) (bs : list block) : state := fold_left feed bs s.

(** What the callback is handed over a sequence of blocks, in order. *)
Fixpoint reports (s : state) (bs : list block) : list report :=
  match bs with
  | [] => []
  | b :: bs' => snd (detectLoop s (fst b) (snd b)) :: reports (feed s b) bs'
  end.

(** A block that passes both gates. *)
Definition voiced (amplitude pitch : float) : bool :=
  negb (amplitude <? AMPLITUDE_THRESHOLD) && ((pitch >? 0) && (pitch <? 5000)).

(** [pitch] within ten percent of [ref], as the engine tests it. *)
Definition within10 (pitch ref : float) : bool :=
  (pitch / ref >? 0.9) && (pitch / ref <? 1.1).

(** A pitch value the tracker may hold or report: none, or one strictly
    between 0 and 5000 Hz. *)
Definition inRange (x : float) : Prop :=
  x = 0 \/ ((x >? 0) = true /\ (x <? 5000) = true).

End AudioEngine.

(** ** Binary64 values as scaled integers

    The vocabulary used to reason about the rounding of [float] operations
    through their specification in [SpecFloat]. *)

(** What the sticky bits of a right shift by [k] say about the remainder. *)
Definition loc_ok (k rem : Z) (r s : bool) : Prop :=
  match r, s with
  | false, false => rem = 0
  | false, true => 0 < rem /\ 2 * rem < 2 ^ k
  | true, false => 2 * rem = 2 ^ k
  | true, true => 2 ^ k < 2 * rem
  end%Z.

(** Rounding a non-negative integer [m] to a multiple of [2 ^ n], to nearest. *)
Definition nearest (m n v : Z) : Prop :=
  (v = m / 2 ^ n /\ 2 * (m mod 2 ^ n) <= 2 ^ n)%Z \/
  (v = m / 2 ^ n + 1 /\ 2 ^ n <= 2 * (m mod 2 ^ n) /\ 0 < m mod 2 ^ n)%Z.

(** What [binary_round_aux] may return for the integer [v] at exponent [e1]. *)
Inductive rounded (s : bool) (v e1 : Z) : spec_float -> Prop :=
| rounded_zero : v = 0%Z -> rounded s v e1 (S754_zero s)
| rounded_finite m e :
    (e1 <= e)%Z -> (Z.pos m * 2 ^ (e - e1) = v)%Z -> (e <= 971)%Z ->
    rounded s v e1 (S754_finite s m e)
| rounded_infinity :
    (0 < v)%Z -> (971 < Z.max e1 (fexp prec emax (Zdigits2 v + e1)))%Z ->
    rounded s v e1 (S754_infinity s).

(** Values are compared on a common scale: [scaled m e] is [m * 2 ^ e] in
    units of [2 ^ (- scale)]; every product of two binary64 values is a whole
    number of such units. *)
Definition scale : Z := 2148.
Definition scaled (m e : Z) : Z := (m * 2 ^ (e + scale))%Z.

(** A binary64 value that is [+0] or positive and finite, with its value. *)
Inductive nnf : spec_float -> Z -> Prop :=
| nnf_zero : nnf (S754_zero false) 0%Z
| nnf_finite m e : nnf (S754_finite false m e) (scaled (Z.pos m) e).

(** Not [NaN]. *)
Definition notnan (x : spec_float) : bool :=
  match x with S754_nan => false | _ => true end.
(** Zero or finite. *)
Definition fin (x : spec_float) : bool :=
  match x with S754_zero _ | S754_finite _ _ _ => true | _ => false end.

Import Yin AudioEngine.

(** ** The estimator: [detectPitch], step 3 *)

Module Scan.

Definition threshold : float := 0.20.

(** [while (tau + 1 < maxTau && yinBuffer[tau + 1] < yinBuffer[tau]) tau++],
    with [fuel] bounding the number of iterations. *)
Fixpoint walk (yinBuffer : list float) (maxTau : Z) (fuel : nat) (tau : Z) : Z :=
  match fuel with
  | O => tau
  | S fuel' =>
      if (tau + 1 <? maxTau)%Z && (rd yinBuffer (tau + 1) <? rd yinBuffer tau)
      then walk yinBuffer maxTau fuel' (tau + 1)
      else tau
  end.

(** The bottom of the dip entered at [tau]. *)
Definition bottom (yinBuffer : list float) (maxTau tau : Z) : Z :=
  walk yinBuffer maxTau (Z.to_nat (maxTau - tau)) tau.

(** [for (let tau = minTau; tau < maxTau - 1; tau++)] from the position [tau],
    with [fuel] bounding the number of iterations. *)
Fixpoint scan (yinBuffer : list float) (maxTau : Z) (fuel : nat) (tau : Z)
  : list candidate :=
  match fuel with
  | O => []
  | S fuel' =>
      if (tau <? maxTau - 1)%Z then
        if rd yinBuffer tau <? threshold then
          let tau' := bottom yinBuffer maxTau tau in
          mkCandidate tau' (rd yinBuffer tau') :: scan yinBuffer maxTau fuel' (tau' + 1)
        else scan yinBuffer maxTau fuel' (tau + 1)
      else []
  end.

(** Step 3: all the candidates, in the order they are pushed. *)
Definition collect (yinBuffer : list float) (minTau maxTau : Z) : list candidate :=
  scan yinBuffer maxTau (Z.to_nat (maxTau - minTau)) minTau.

(** Steps 3 to 5 and the result. *)
Definition detectPitchTail (yinBuffer : list float) (minTau maxTau : Z)
    (sampleRate : float) : float :=
  detectPitchFrom yinBuffer maxTau (collect yinBuffer minTau maxTau) sampleRate.

(** What step 3 guarantees of a candidate found at or after [from]: its lag
    is in range, its value is the buffer's at that lag and below the
    threshold, and the next value, if the scan may look at it, is not
    smaller. *)
Definition dipBottom (yinBuffer : list float) (maxTau from : Z) (c : candidate)
  : Prop :=
  (from <= tau c < maxTau)%Z
  /\ value c = rd yinBuffer (tau c)
  /\ (value c <? threshold) = true
  /\ (tau c + 1 <? maxTau)%Z && (rd yinBuffer (tau c + 1) <? value c) = false.

End Scan.

(** The place of a binary64 value on the number line, on the common scale;
    infinities lie beyond every finite value. *)
Definition rank (x : spec_float) : Z :=
  match x with
  | S754_zero _ => 0
  | S754_nan => 0
  | S754_infinity false => 2 ^ 4000
  | S754_infinity true => - 2 ^ 4000
  | S754_finite false m e => scaled (Z.pos m) e
  | S754_finite true m e => - scaled (Z.pos m) e
  end%Z.

(** ** The captured block: [detectLoop], lines 79-92 *)

Module Capture.

(** [for (...) sumSq += dataBuffer[i] * dataBuffer[i]] *)
Definition sumSquares (dataBuffer : list float) : float :=
  fold_left (fun sumSq x => sumSq + x * x) dataBuffer 0.

(** [Math.sqrt(sumSq / dataBuffer.length)] *)
Definition amplitude (dataBuffer : list float) : float :=
  sqrt (sumSquares dataBuffer / Z2f (Z.of_nat (length dataBuffer))).

(** [detectLoop] on a captured block; [pitch] is what [detectPitch] returns
    for the block, looked at only past the amplitude gate. *)
Definition detectLoopOn (s : state) (dataBuffer : list float) (pitch : float)
  : state * report :=
  detectLoop s (amplitude dataBuffer) pitch.

End Capture.

(** The part of the state the Hz tracker reads and writes. *)
Definition pitchView (s : state) : float * Z * float :=
  (smoothedPitch s, jumpCount s, jumpCandidate s).

(** The jump state at rest: no candidate and a count of 0, or a candidate
    strictly between 0 and 5000 Hz counted once or twice. *)
Definition jumpStateOk (s : state) : Prop :=
  (jumpCount s = 0%Z /\ jumpCandidate s = 0)
  \/ ((jumpCount s = 1%Z \/ jumpCount s = 2%Z)
      /\ (jumpCandidate s >? 0) = true /\ (jumpCandidate s <? 5000) = true).

(** ** The caller: [processPitch] *)

Module Display.

(** [((roundedNote % 12) + 12) % 12]: [%] on integers keeps the sign of the
    dividend, which is [Z.rem]. *)
Definition noteIndexOf (roundedNote : Z) : Z :=
  Z.rem (Z.rem roundedNote 12 + 12) 12.

(** [Math.floor(roundedNote / 12) - 1] *)
Definition octaveOf (roundedNote : Z) : Z := (roundedNote / 12 - 1)%Z.

(** [if (cents > 50) cents -= 100] *)
Definition foldCents (cents : float) : float :=
  if cents >? 50 then cents - 100 else cents.

(** [processPitch] as far as it reaches the engine.  [roundedNote] is
    [Math.round(12 * Math.log2(pitch / MIDDLE_C) + 60)] and [cents] is
    [(noteNumber - roundedNote) * 100]; the logarithm is outside the
    arithmetic modelled here, so both are taken as given. *)
Definition processPitch (s : state) (r : report) (roundedNote : Z) (cents : float)
  : state :=
  let (pitch, amplitude) := r in
  if (pitch <=? 0) || (amplitude <=? 0) then s
  else
    let noteIndex := noteIndexOf roundedNote in
    if (noteIndex >=? 0)%Z && (noteIndex <? 12)%Z
    then fst (smoothCents s noteIndex (foldCents cents))
    else s.

(** One animation frame: a block through [detectLoop], its report through
    the callback. *)
Definition frame (s : state) (f : block * (Z * float)) : state :=
  let (s1, r) := detectLoop s (fst (fst f)) (snd (fst f)) in
  processPitch s1 r (fst (snd f)) (snd (snd f)).

(** A listening session from the initial state. *)
Definition session (fs : list (block * (Z * float))) : state := fold_left frame fs init.

(** Between frames: the stored note is unset or a note index, and it is
    unset whenever no pitch is held. *)
Definition centsNoteOk (s : state) : Prop :=
  (-1 <= smoothedCentsNote s < 12)%Z
  /\ (smoothedPitch s = 0 -> smoothedCentsNote s = (-1)%Z).

End Display.

(** ** The estimator: [detectPitch], steps 1 and 2 *)

Module Cmndf.

(** Storing a number in a [Float32Array] rounds it to binary32 (to nearest,
    ties to even, overflowing to an infinity); every binary32 value is a
    binary64 value. *)
Definition fround (x : float) : float :=
  match Prim2SF x with
  | S754_finite s m e => SF2Prim (binary_round 24 128 s m e)
  | _ => x
  end.

Fixpoint setAt (l : list float) (i : nat) (v : float) : list float :=
  match l, i with
  | [], _ => []
  | _ :: t, O => v :: t
  | h :: t, S i' => h :: setAt t i' v
  end.

(** [yinBuffer[i] = v]; a typed array ignores a write outside its bounds. *)
Definition store (yinBuffer : list float) (i : Z) (v : float) : list float :=
  if (i <? 0)%Z then yinBuffer else setAt yinBuffer (Z.to_nat i) (fround v).

(** The inner loop of step 1: the squared difference at lag [tau]. *)
Definition difference (buffer : list float) (halfSize : nat) (tau : Z) : float :=
  fold_left
    (fun sum i =>
       let delta := rd buffer (Z.of_nat i) - rd buffer (Z.of_nat i + tau) in
       sum + delta * delta)
    (seq 0 halfSize) 0.

(** Step 1: [for (let tau = 0; tau < maxTau; tau++) yinBuffer[tau] = sum]. *)
Definition step1 (buffer : list float) (halfSize : nat) (maxTau : Z)
    (yinBuffer : list float) : list float :=
  fold_left
    (fun y tau => store y (Z.of_nat tau) (difference buffer halfSize (Z.of_nat tau)))
    (seq 0 (Z.to_nat maxTau)) yinBuffer.

(** One round of the loop of step 2, on the buffer and [runningSum]. *)
Definition normalise (st : list float * float) (tau : nat) : list float * float :=
  let (y, runningSum) := st in
  let runningSum' := runningSum + rd y (Z.of_nat tau) in
  (store y (Z.of_nat tau) (rd y (Z.of_nat tau) * (Z2f (Z.of_nat tau) / runningSum')),
   runningSum').

(** Step 2: [yinBuffer[0] = 1], then the cumulative mean normalisation for
    [tau] from 1 below [maxTau]. *)
Definition step2 (maxTau : Z) (yinBuffer : list float) : list float :=
  fst (fold_left normalise (seq 1 (Z.to_nat maxTau - 1)) (store yinBuffer 0 1, 0)).

(** [halfSize = Math.floor(bufferSize / 2)] *)
Definition halfSize (buffer : list float) : nat := Nat.div (length buffer) 2.

(** The buffer after steps 1 and 2, from a fresh [Float32Array(halfSize)]. *)
Definition cmndf (buffer : list float) (maxTau : Z) : list float :=
  step2 maxTau (step1 buffer (halfSize buffer) maxTau (repeat 0 (halfSize buffer))).

(** [detectPitch] for given lag limits; in the source
    [minTau = Math.floor(sampleRate / 2000)] and
    [maxTau = Math.min(Math.ceil(sampleRate / 60), halfSize)]. *)
Definition detectPitchWith (buffer : list float) (minTau maxTau : Z)
    (sampleRate : float) : float :=
  Scan.detectPitchTail (cmndf buffer maxTau) minTau maxTau sampleRate.

End Cmndf.

(** ** Tone playback: the WAV encoding of [generateToneWav] *)

Module Wav.

Import Ascii String.

(** An [ArrayBuffer] is a list of bytes, each a number from 0 to 255. *)
Fixpoint setByte (view : list Z) (offset : nat) (b : Z) : list Z :=
  match view, offset with
  | [], _ => []
  | _ :: t, O => b :: t
  | h :: t, S o => h :: setByte t o b
  end.

(** [view.setUint8(offset, v)]: the low eight bits of [v]. *)
Definition setUint8 (view : list Z) (offset : nat) (v : Z) : list Z :=
  setByte view offset (v mod 256)%Z.

(** [view.setUint16(offset, v, true)] and [view.setInt16(offset, v, true)]:
    the low sixteen bits of [v], low byte first. *)
Definition setUint16 (view : list Z) (offset : nat) (v : Z) : list Z :=
  setUint8 (setUint8 view offset v) (offset + 1) (v / 256)%Z.

Definition setInt16 (view : list Z) (offset : nat) (v : Z) : list Z :=
  setUint16 view offset v.

(** [view.setUint32(offset, v, true)] *)
Definition setUint32 (view : list Z) (offset : nat) (v : Z) : list Z :=
  setUint8
    (setUint8
       (setUint8 (setUint8 view offset v) (offset + 1) (v / 256)%Z)
       (offset + 2) (v / 65536)%Z)
    (offset + 3) (v / 16777216)%Z.

(** [str.charCodeAt(i)] *)
Definition charCode (c : Ascii.ascii) : Z := Z.of_N (Ascii.N_of_ascii c).

(** [writeStr(offset, str)] *)
Fixpoint writeStr (view : list Z) (offset : nat) (str : String.string) : list Z :=
  match str with
  | String.EmptyString => view
  | String.String c rest => writeStr (setUint8 view offset (charCode c)) (S offset) rest
  end.

Definition headerSize : nat := 44.
Definition bitsPerSample : Z := 16.

(** Lines 210-222: the 44-byte header. *)
Definition writeHeader (sampleRate dataSize : Z) (view : list Z) : list Z :=
  let byteRate := (sampleRate * bitsPerSample / 8)%Z in
  let view := writeStr view 0 "RIFF"%string in
  let view := setUint32 view 4 (36 + dataSize)%Z in
  let view := writeStr view 8 "WAVE"%string in
  let view := writeStr view 12 "fmt "%string in
  let view := setUint32 view 16 16 in
  let view := setUint16 view 20 1 in
  let view := setUint16 view 22 1 in
  let view := setUint32 view 24 sampleRate in
  let view := setUint32 view 28 byteRate in
  let view := setUint16 view 32 (bitsPerSample / 8)%Z in
  let view := setUint16 view 34 bitsPerSample in
  let view := writeStr view 36 "data"%string in
  setUint32 view 40 dataSize.

(** [Math.min(a, b)] and [Math.max(a, b)]: [NaN] if either is, and -0 below
    +0. *)
Definition jsMin (a b : float) : float :=
  if is_nan a || is_nan b then nan
  else if a <? b then a
  else if b <? a then b
  else if get_sign a then a else b.

Definition jsMax (a b : float) : float :=
  if is_nan a || is_nan b then nan
  else if a <? b then b
  else if b <? a then a
  else if get_sign a then b else a.

(** [Math.max(-1, Math.min(1, x))] *)
Definition clamp (x : float) : float := jsMax (-1) (jsMin 1 x).

(** The integer a number is converted to before it is stored in an integer
    field: truncation towards zero, and 0 for [NaN] and the infinities. *)
Definition integerOf (x : spec_float) : Z :=
  match x with
  | S754_finite s m e =>
      let a := match e with
               | Zneg p => (Z.pos m / 2 ^ Z.pos p)%Z
               | _ => (Z.pos m * 2 ^ e)%Z
               end in
      if s then (- a)%Z else a
  | _ => 0%Z
  end.

Definition toInteger (x : float) : Z := integerOf (Prim2SF x).

(** Lines 224-227: the samples, from index [i] on. *)
Fixpoint writeSamples (view : list Z) (i : nat) (buffer : list float) : list Z :=
  match buffer with
  | [] => view
  | x :: rest =>
      writeSamples (setInt16 view (headerSize + i * 2) (toInteger (clamp x * 0x7FFF)))
        (S i) rest
  end.

(** The bytes of the file for a sample rate and a generated wave. *)
Definition encode (sampleRate : Z) (buffer : list float) : list Z :=
  let actualSamples := Z.of_nat (List.length buffer) in
  let dataSize := (actualSamples * (bitsPerSample / 8))%Z in
  let wav := repeat 0%Z (headerSize + Z.to_nat dataSize) in
  writeSamples (writeHeader sampleRate dataSize wav) 0 buffer.

(** Reading the file back, as a decoder does. *)
Definition getUint8 (bytes : list Z) (offset : nat) : Z := nth offset bytes 0%Z.

Definition getUint16 (bytes : list Z) (offset : nat) : Z :=
  (getUint8 bytes offset + 256 * getUint8 bytes (offset + 1))%Z.

Definition getInt16 (bytes : list Z) (offset : nat) : Z :=
  let u := getUint16 bytes offset in
  if (u <? 32768)%Z then u else (u - 65536)%Z.

Definition getUint32 (bytes : list Z) (offset : nat) : Z :=
  (getUint16 bytes offset + 65536 * getUint16 bytes (offset + 2))%Z.

Fixpoint readStr (bytes : list Z) (offset len : nat) : list Z :=
  match len with
  | O => []
  | S len' => getUint8 bytes offset :: readStr bytes (S offset) len'
  end.

End Wav.

(** ** The range of the displayed cents *)

(** A cents value the display can place inside a note's segment: a number
    from -50 to 50. *)
Definition centsInRange (x : float) : bool := (-50 <=? x) && (x <=? 50).

(** * Properties *)

(** ** Comparisons of binary64 values *)

Section Comparisons.

Lemma SFcompare_swap (x y : spec_float) :
  SFcompare y x = option_map CompOpp (SFcompare x y).
Proof.
  destruct x as [sx|sx| |sx mx ex], y as [sy|sy| |sy my ey]; simpl;
    try reflexivity;
    try (destruct sx; reflexivity); try (destruct sy; reflexivity);
    try (destruct sx, sy; reflexivity).
  f_equal.
  destruct sx, sy; simpl; try reflexivity;
    rewrite (Z.compare_antisym ex ey);
    destruct (ex ?= ey)%Z; simpl; try reflexivity;
    change (PosDef.Pos.compare_cont Eq mx my) with (Pos.compare_cont (CompOpp Eq) mx my);
    rewrite <- (Pos.compare_cont_antisym my mx Eq);
    now rewrite ?CompOpp_involutive.
Qed.

Lemma leb_gtb_false (x y : float) : (x <=? y) = true -> (y <? x) = false.
Proof.
  rewrite leb_spec, ltb_spec. unfold SFleb, SFltb.
  rewrite (SFcompare_swap (Prim2SF x) (Prim2SF y)).
  destruct (SFcompare (Prim2SF x) (Prim2SF y)) as [[ | | ]|]; simpl; congruence.
Qed.

Lemma ltb_asym (x y : float) : (x <? y) = true -> (y <? x) = false.
Proof.
  rewrite !ltb_spec. unfold SFltb.
  rewrite (SFcompare_swap (Prim2SF x) (Prim2SF y)).
  destruct (SFcompare (Prim2SF x) (Prim2SF y)) as [[ | | ]|]; simpl; congruence.
Qed.

Lemma ltb_neqb (x y : float) : (x <? y) = true -> (x =? y) = false.
Proof.
  rewrite ltb_spec, eqb_spec. unfold SFltb, SFeqb.
  destruct (SFcompare (Prim2SF x) (Prim2SF y)) as [[ | | ]|]; simpl; congruence.
Qed.

(** Two numbers that [===] tells apart are different values. *)
Lemma eqb_false_neq (x y : float) : (x =? y) = false -> (x =? x) = true -> x <> y.
Proof. intros H Hx E. subst y. congruence. Qed.

End Comparisons.

(** ** Rounding of binary64 operations *)

(** Closed comparisons of large integers, by evaluation. *)
Ltac closed_le := apply Z.leb_le; vm_compute; reflexivity.
Ltac closed_lt := apply Z.ltb_lt; vm_compute; reflexivity.

Section Shift.
Open Scope Z_scope.

Lemma iter_pos_nat {A} (f : A -> A) (p : positive) (x : A) :
  iter_pos f p x = Nat.iter (Pos.to_nat p) f x.
Proof.
  revert x. induction p as [p IH|p IH|]; intro x; cbn [iter_pos].
  - rewrite !IH, Pos2Nat.inj_xI.
    replace (S (2 * Pos.to_nat p)) with (Pos.to_nat p + (Pos.to_nat p + 1))%nat by lia.
    rewrite !Nat.iter_add. reflexivity.
  - rewrite !IH, Pos2Nat.inj_xO.
    replace (2 * Pos.to_nat p)%nat with (Pos.to_nat p + Pos.to_nat p)%nat by lia.
    rewrite Nat.iter_add. reflexivity.
  - reflexivity.
Qed.

Lemma shr_1_nonneg (m : Z) (r s : bool) :
  0 <= m ->
  shr_1 (Build_shr_record m r s) = Build_shr_record (m / 2) (Z.odd m) (r || s).
Proof.
  intros Hm. destruct m as [|p|p]; try lia.
  - reflexivity.
  - destruct p as [p|p|]; simpl shr_1; f_equal.
    + rewrite Pos2Z.inj_xI. apply Z.div_unique with 1; lia.
    + rewrite Pos2Z.inj_xO. apply Z.div_unique with 0; lia.
Qed.

Lemma shr_iter (m : Z) (k : nat) :
  0 <= m ->
  exists r s,
    Nat.iter k shr_1 (Build_shr_record m false false)
      = Build_shr_record (m / 2 ^ Z.of_nat k) r s
    /\ loc_ok (Z.of_nat k) (m mod 2 ^ Z.of_nat k) r s.
Proof.
  intros Hm. induction k as [|k IH].
  - exists false, false. simpl. rewrite Z.div_1_r, Z.mod_1_r. split; reflexivity.
  - destruct IH as (r & s & E & L).
    rewrite Nat.iter_succ, E.
    assert (P : 0 < 2 ^ Z.of_nat k) by (apply Z.pow_pos_nonneg; lia).
    assert (Q : 0 <= m / 2 ^ Z.of_nat k) by (apply Z.div_pos; lia).
    rewrite shr_1_nonneg by exact Q.
    exists (Z.odd (m / 2 ^ Z.of_nat k)), (r || s).
    assert (S2 : 2 ^ Z.of_nat (S k) = 2 * 2 ^ Z.of_nat k).
    { rewrite Nat2Z.inj_succ, Z.pow_succ_r by lia. reflexivity. }
    split.
    + f_equal. rewrite S2, Z.mul_comm, <- Z.div_div by lia. reflexivity.
    + unfold loc_ok in *. rewrite !S2.
      set (P2 := 2 ^ Z.of_nat k) in *.
      set (M := m / P2) in *.
      assert (Em : m = P2 * M + m mod P2) by (apply Z.div_mod; lia).
      assert (Bm : 0 <= m mod P2 < P2) by (apply Z.mod_pos_bound; lia).
      assert (EM : M = 2 * (M / 2) + (if Z.odd M then 1 else 0)).
      { rewrite <- Z.div2_div. apply (Z.div2_odd M). }
      assert (Er : m mod (2 * P2) = (if Z.odd M then P2 else 0) + m mod P2).
      { symmetry. apply Z.mod_unique with (M / 2).
        - left. destruct (Z.odd M); lia.
        - destruct (Z.odd M); nia. }
      rewrite Er. clear Er.
      destruct (Z.odd M), r, s; cbv beta iota delta [orb]; lia.
Qed.

Lemma digits2_pos_bounds (m : positive) :
  2 ^ (Z.pos (digits2_pos m) - 1) <= Z.pos m < 2 ^ Z.pos (digits2_pos m).
Proof.
  induction m as [m IH|m IH|]; cbn [digits2_pos].
  - rewrite Pos2Z.inj_succ, Pos2Z.inj_xI.
    replace (Z.succ (Z.pos (digits2_pos m)) - 1) with (Z.succ (Z.pos (digits2_pos m) - 1)) by lia.
    rewrite !Z.pow_succ_r by lia.
    generalize dependent (2 ^ (Z.pos (digits2_pos m) - 1)).
    generalize dependent (2 ^ Z.pos (digits2_pos m)). intros. lia.
  - rewrite Pos2Z.inj_succ. change (Z.pos m~0) with (2 * Z.pos m).
    replace (Z.succ (Z.pos (digits2_pos m)) - 1) with (Z.succ (Z.pos (digits2_pos m) - 1)) by lia.
    rewrite !Z.pow_succ_r by lia.
    generalize dependent (2 ^ (Z.pos (digits2_pos m) - 1)).
    generalize dependent (2 ^ Z.pos (digits2_pos m)). intros. lia.
  - simpl. lia.
Qed.

Lemma digits2_unique (m : positive) (k : Z) :
  2 ^ (k - 1) <= Z.pos m < 2 ^ k -> Z.pos (digits2_pos m) = k.
Proof.
  intros [L U]. pose proof (digits2_pos_bounds m) as [L' U'].
  set (d := Z.pos (digits2_pos m)) in *.
  assert (0 < k).
  { destruct (Z_lt_le_dec 0 k) as [|N]; [assumption|].
    destruct (Z.eq_dec k 0) as [->|]; [simpl in U; lia|].
    rewrite Z.pow_neg_r in U by lia. lia. }
  destruct (Z.lt_trichotomy d k) as [Lt|[Eq|Gt]]; [|assumption|].
  - assert (2 ^ d <= 2 ^ (k - 1)) by (apply Z.pow_le_mono_r; lia). lia.
  - assert (2 ^ k <= 2 ^ (d - 1)) by (apply Z.pow_le_mono_r; lia). lia.
Qed.

Lemma fexp64 (e : Z) : fexp prec emax e = Z.max (e - 53) (-1074).
Proof. reflexivity. Qed.

Lemma shr_fexp_first (mx : positive) (ex : Z) :
  let n := fexp prec emax (Z.pos (digits2_pos mx) + ex) - ex in
  0 <= n ->
  exists r s,
    shr_fexp prec emax (Z.pos mx) ex loc_Exact
      = (Build_shr_record (Z.pos mx / 2 ^ n) r s, ex + n)
    /\ loc_ok n (Z.pos mx mod 2 ^ n) r s.
Proof.
  intros n Hn. unfold shr_fexp. cbn [Zdigits2 shr_record_of_loc]. fold n.
  destruct n as [|p|p] eqn:En; try lia.
  - exists false, false. cbn [shr]. rewrite Z.pow_0_r, Z.div_1_r, Z.mod_1_r, Z.add_0_r.
    split; reflexivity.
  - cbn [shr]. rewrite iter_pos_nat.
    destruct (shr_iter (Z.pos mx) (Pos.to_nat p)) as (r & s & E & L); [lia|].
    rewrite positive_nat_Z in E, L.
    exists r, s. split; [rewrite E; reflexivity | exact L].
Qed.

Lemma round_nearest (q n rem : Z) (r s : bool) :
  0 <= n -> 0 <= rem < 2 ^ n -> loc_ok n rem r s ->
  let v := round_nearest_even q (loc_of_shr_record (Build_shr_record q r s)) in
  (v = q /\ 2 * rem <= 2 ^ n) \/ (v = q + 1 /\ 2 ^ n <= 2 * rem /\ 0 < rem).
Proof.
  intros Hn Hr L. unfold loc_ok in L.
  assert (0 < 2 ^ n) by (apply Z.pow_pos_nonneg; lia).
  destruct r, s; cbn [loc_of_shr_record round_nearest_even]; cbv zeta.
  - right. lia.
  - destruct (Z.even q); [left|right]; lia.
  - left. lia.
  - left. lia.
Qed.

Lemma shr_fexp_second (s : bool) (v e1 : Z) :
  0 <= v ->
  let n2 := fexp prec emax (Zdigits2 v + e1) - e1 in
  n2 <= 0 \/ (n2 = 1 /\ Z.even v = true) ->
  rounded s v e1
    (let '(mrs, e) := shr_fexp prec emax v e1 loc_Exact in
     match shr_m mrs with
     | Z0 => S754_zero s
     | Zpos m => if Z.leb e (emax - prec) then S754_finite s m e else S754_infinity s
     | Zneg _ => S754_nan
     end).
Proof.
  intros Hv n2 Hn2. unfold shr_fexp. fold n2. cbn [shr_record_of_loc].
  change (emax - prec) with 971.
  destruct Hn2 as [Hle|[H1 Hev]].
  - assert (E : shr (Build_shr_record v false false) e1 n2
                = (Build_shr_record v false false, e1)).
    { destruct n2; try lia; reflexivity. }
    rewrite E. cbn [shr_m].
    destruct v as [|p|p]; try lia.
    + now apply rounded_zero.
    + destruct (Z.leb_spec e1 971).
      * apply rounded_finite; try lia. rewrite Z.sub_diag. simpl. lia.
      * apply rounded_infinity; lia.
  - rewrite H1. cbn [shr iter_pos]. rewrite shr_1_nonneg by lia. cbn [shr_m].
    destruct v as [|p|p]; try lia.
    + now apply rounded_zero.
    + destruct p as [p|p|]; try discriminate Hev.
      change (Z.pos p~0 / 2) with (Z.pos p~0 / Z.pos 2).
      replace (Z.pos p~0 / 2) with (Z.pos p)
        by (change (Z.pos p~0) with (2 * Z.pos p); apply Z.div_unique with 0; lia).
      destruct (Z.leb_spec (e1 + 1) 971).
      * apply rounded_finite; try lia.
        replace (e1 + 1 - e1) with 1 by lia. rewrite Z.pow_1_r.
        change (Z.pos p~0) with (2 * Z.pos p). lia.
      * apply rounded_infinity; lia.
Qed.

Lemma Zdigits2_unique (v k : Z) :
  2 ^ (k - 1) <= v < 2 ^ k -> 0 < v -> Zdigits2 v = k.
Proof.
  intros H Hv. destruct v as [|p|p]; try lia. now apply digits2_unique.
Qed.

Lemma pow2_split (a b : Z) : 0 <= a -> 0 <= b -> 2 ^ (a + b) = 2 ^ a * 2 ^ b.
Proof. intros. now apply Z.pow_add_r. Qed.

(** The value [binary_round_aux] produces: the exact mantissa rounded to
    nearest at the exponent [fexp] assigns to it. *)
Lemma binary_round_aux_nearest (s : bool) (mx : positive) (ex : Z) :
  let e1 := fexp prec emax (Z.pos (digits2_pos mx) + ex) in
  ex <= e1 ->
  exists v, nearest (Z.pos mx) (e1 - ex) v /\
            rounded s v e1 (binary_round_aux prec emax s (Z.pos mx) ex loc_Exact).
Proof.
  intros e1 Hn.
  destruct (shr_fexp_first mx ex) as (r & t & E & L); [fold e1; lia|].
  fold e1 in E, L. set (n := e1 - ex) in *.
  assert (Hn0 : 0 <= n) by (unfold n; lia).
  assert (P : 0 < 2 ^ n) by (apply Z.pow_pos_nonneg; lia).
  pose proof (Z.mod_pos_bound (Z.pos mx) (2 ^ n) P) as Hrem.
  pose proof (Z.div_mod (Z.pos mx) (2 ^ n) ltac:(lia)) as Hdm.
  pose proof (digits2_pos_bounds mx) as Hd.
  set (d := Z.pos (digits2_pos mx)) in *.
  set (q := Z.pos mx / 2 ^ n) in *.
  set (rem := Z.pos mx mod 2 ^ n) in *.
  assert (Hq : 0 <= q) by (apply Z.div_pos; lia).
  pose proof (round_nearest q n rem r t Hn0 Hrem L) as HN. cbv zeta in HN.
  set (v := round_nearest_even q (loc_of_shr_record (Build_shr_record q r t))) in *.
  exists v. split.
  { exact HN. }
  unfold binary_round_aux. rewrite E. cbn [shr_m].
  fold v. replace (ex + n) with e1 by (unfold n; lia).
  apply shr_fexp_second; [lia|].
  rewrite fexp64.
  assert (He1 : e1 = Z.max (d + ex - 53) (-1074)) by reflexivity.
  assert (Hnn : n = e1 - ex) by reflexivity.
  clearbody e1 n d. clear E L.
  destruct (Z_lt_le_dec n d) as [Hnd|Hnd].
  - (* the quotient keeps [d - n] digits *)
    assert (Pd : 2 ^ (d - 1) = 2 ^ (d - 1 - n) * 2 ^ n).
    { rewrite <- pow2_split by lia. f_equal. lia. }
    assert (Pd' : 2 ^ d = 2 ^ (d - n) * 2 ^ n).
    { rewrite <- pow2_split by lia. f_equal. lia. }
    assert (P1 : 0 < 2 ^ (d - 1 - n)) by (apply Z.pow_pos_nonneg; lia).
    assert (P2 : 2 ^ (d - n) = 2 * 2 ^ (d - 1 - n)).
    { replace (d - n) with (Z.succ (d - 1 - n)) by lia. apply Z.pow_succ_r. lia. }
    assert (Lq : 2 ^ (d - 1 - n) <= q) by nia.
    assert (Uq : q < 2 ^ (d - n)) by nia.
    destruct (Z_lt_le_dec v (2 ^ (d - n))) as [Hv|Hv].
    + left. rewrite (Zdigits2_unique v (d - n)).
      * lia.
      * replace (d - n - 1) with (d - 1 - n) by lia. lia.
      * lia.
    + assert (Ev : v = 2 ^ (d - n)) by lia.
      assert (Hev : Z.even v = true).
      { rewrite Ev, Z.even_pow by lia. reflexivity. }
      rewrite (Zdigits2_unique v (d - n + 1)).
      * match goal with |- ?X <= 0 \/ _ => assert (X <= 0 \/ X = 1) as [Hx|Hx] by lia end;
          [left; exact Hx | right; split; [exact Hx | exact Hev]].
      * replace (d - n + 1 - 1) with (d - n) by lia.
        replace (d - n + 1) with (Z.succ (d - n)) by lia.
        rewrite Z.pow_succ_r by lia. lia.
      * lia.
  - (* everything is shifted out *)
    assert (2 ^ d <= 2 ^ n) by (apply Z.pow_le_mono_r; lia).
    assert (Eq0 : q = 0) by (apply Z.div_small; lia).
    assert (Hv : v = 0 \/ v = 1) by lia.
    destruct Hv as [Hv|Hv]; rewrite Hv; left; cbn [Zdigits2 digits2_pos]; lia.
Qed.

End Shift.

Section Order.
Open Scope Z_scope.

Lemma bounded_inv (m : positive) (e : Z) :
  bounded prec emax m e = true ->
  let d := Z.pos (digits2_pos m) in
  e = Z.max (d + e - 53) (-1074) /\ e <= 971.
Proof.
  unfold bounded, canonical_mantissa. rewrite andb_true_iff, Z.eqb_eq, Z.leb_le.
  rewrite fexp64. change (emax - prec) with 971. intros [H1 H2]. cbv zeta. lia.
Qed.

Lemma pow2_pos (k : Z) : 0 <= k -> 0 < 2 ^ k.
Proof. intros. apply Z.pow_pos_nonneg; lia. Qed.

Lemma pow2_le (a b : Z) : 0 <= a <= b -> 2 ^ a <= 2 ^ b.
Proof. intros. apply Z.pow_le_mono_r; lia. Qed.

Lemma scaled_pos (m : positive) (e : Z) : -scale <= e -> 0 < scaled (Z.pos m) e.
Proof.
  intros. unfold scaled. apply Z.mul_pos_pos; [lia|]. apply pow2_pos. lia.
Qed.

(** Two valid values in different binades compare as their exponents do. *)
Lemma scaled_lt_exp (m1 m2 : positive) (e1 e2 : Z) :
  bounded prec emax m1 e1 = true -> bounded prec emax m2 e2 = true ->
  e1 < e2 -> scaled (Z.pos m1) e1 < scaled (Z.pos m2) e2.
Proof.
  intros B1 B2 Hlt.
  apply bounded_inv in B1, B2. cbv zeta in B1, B2.
  pose proof (digits2_pos_bounds m1) as D1. pose proof (digits2_pos_bounds m2) as D2.
  set (d1 := Z.pos (digits2_pos m1)) in *. set (d2 := Z.pos (digits2_pos m2)) in *.
  assert (Hd2 : d2 = 53) by lia. assert (Hd1 : d1 <= 53) by lia.
  rewrite Hd2 in D2. change (53 - 1) with 52 in D2.
  assert (U1 : Z.pos m1 < 2 ^ 53).
  { apply Z.lt_le_trans with (2 ^ d1); [lia|]. apply pow2_le. unfold d1. lia. }
  unfold scaled, scale.
  assert (E : 2 ^ (e2 + 2148) = 2 ^ (e2 - e1 - 1) * (2 * 2 ^ (e1 + 2148))).
  { rewrite <- Z.pow_succ_r by lia. rewrite <- pow2_split by lia. f_equal. lia. }
  rewrite E.
  assert (0 < 2 ^ (e1 + 2148)) by (apply pow2_pos; lia).
  assert (1 <= 2 ^ (e2 - e1 - 1)) by (pose proof (pow2_pos (e2 - e1 - 1)); lia).
  change (2 ^ 53) with 9007199254740992 in U1.
  change (2 ^ 52) with 4503599627370496 in D2.
  nia.
Qed.

Lemma SFcompare_scaled (m1 m2 : positive) (e1 e2 : Z) :
  bounded prec emax m1 e1 = true -> bounded prec emax m2 e2 = true ->
  SFcompare (S754_finite false m1 e1) (S754_finite false m2 e2)
  = Some (scaled (Z.pos m1) e1 ?= scaled (Z.pos m2) e2).
Proof.
  intros B1 B2. cbn [SFcompare]. f_equal.
  destruct (Z.compare_spec e1 e2) as [E|L|G].
  - subst e2. unfold scaled.
    assert (0 < 2 ^ (e1 + scale)).
    { apply pow2_pos. apply bounded_inv in B1. unfold scale. cbv zeta in B1. lia. }
    change (PosDef.Pos.compare_cont Eq m1 m2) with (Z.pos m1 ?= Z.pos m2).
    symmetry. destruct (Z.compare_spec (Z.pos m1) (Z.pos m2)) as [E|L|G].
    + rewrite E. apply Z.compare_refl.
    + apply Z.compare_lt_iff. nia.
    + apply Z.compare_gt_iff. nia.
  - symmetry. apply Z.compare_lt_iff. now apply scaled_lt_exp.
  - symmetry. apply Z.compare_gt_iff. now apply scaled_lt_exp.
Qed.

(** A value with fewer binary digits in front of the point is smaller. *)
Lemma scaled_digits_lt (m1 m2 : positive) (e1 e2 : Z) :
  -scale <= e1 -> -scale <= e2 ->
  Z.pos (digits2_pos m1) + e1 < Z.pos (digits2_pos m2) + e2 ->
  scaled (Z.pos m1) e1 < scaled (Z.pos m2) e2.
Proof.
  intros H1 H2 Hd.
  pose proof (digits2_pos_bounds m1) as D1. pose proof (digits2_pos_bounds m2) as D2.
  set (d1 := Z.pos (digits2_pos m1)) in *. set (d2 := Z.pos (digits2_pos m2)) in *.
  assert (Hd1 : 0 < d1) by (unfold d1; lia). assert (Hd2 : 0 < d2) by (unfold d2; lia).
  clearbody d1 d2. unfold scaled.
  assert (P1 : 0 < 2 ^ (e1 + scale)) by (apply pow2_pos; lia).
  assert (P2 : 0 < 2 ^ (e2 + scale)) by (apply pow2_pos; lia).
  apply Z.lt_le_trans with (2 ^ d1 * 2 ^ (e1 + scale)); [nia|].
  apply Z.le_trans with (2 ^ (d2 - 1) * 2 ^ (e2 + scale)); [|nia].
  rewrite <- !pow2_split by lia. apply pow2_le. lia.
Qed.

Lemma scaled_le_digits (m1 m2 : positive) (e1 e2 : Z) :
  -scale <= e1 -> -scale <= e2 ->
  scaled (Z.pos m1) e1 <= scaled (Z.pos m2) e2 ->
  Z.pos (digits2_pos m1) + e1 <= Z.pos (digits2_pos m2) + e2.
Proof.
  intros H1 H2 Hle.
  destruct (Z_le_gt_dec (Z.pos (digits2_pos m1) + e1) (Z.pos (digits2_pos m2) + e2))
    as [|G]; [assumption|].
  pose proof (scaled_digits_lt m2 m1 e2 e1 H2 H1 ltac:(lia)). lia.
Qed.

Lemma scaled_shift (m e1 e : Z) :
  -scale <= e1 <= e -> scaled (m * 2 ^ (e - e1)) e1 = scaled m e.
Proof.
  intros H. unfold scaled. rewrite <- Z.mul_assoc, <- pow2_split by lia.
  f_equal. f_equal. lia.
Qed.

(** Reading the result of a rounding back as a value. *)
Lemma rounded_inv (s : bool) (v e1 : Z) (r : spec_float) :
  rounded s v e1 r -> -scale <= e1 ->
  (r = S754_zero s /\ v = 0) \/
  (exists m e, r = S754_finite s m e /\ scaled (Z.pos m) e = scaled v e1 /\ 0 < v) \/
  (r = S754_infinity s /\ 0 < v /\ 971 < Z.max e1 (fexp prec emax (Zdigits2 v + e1))).
Proof.
  intros H He. destruct H as [Hv|m e H1 H2 H3|H1 H2].
  - left. split; [reflexivity|assumption].
  - right; left. exists m, e. split; [reflexivity|]. split.
    + rewrite <- H2. symmetry. apply scaled_shift. lia.
    + rewrite <- H2. apply Z.mul_pos_pos; [lia|]. apply pow2_pos. lia.
  - right; right. repeat split; assumption.
Qed.

Section Nearest.
Variables (s : bool) (m : positive) (e v : Z) (r : spec_float).
Let d := Z.pos (digits2_pos m).
Let e1 := fexp prec emax (d + e).
Hypothesis He : -scale <= e.
Hypothesis Hn : e <= e1.
Hypothesis Hv : nearest (Z.pos m) (e1 - e) v.
Hypothesis Hr : rounded s v e1 r.

Lemma nearest_bracket :
  let n := e1 - e in
  exists q rem, Z.pos m = 2 ^ n * q + rem /\ 0 <= rem < 2 ^ n /\ 0 <= q /\
    ((v = q /\ 2 * rem <= 2 ^ n) \/ (v = q + 1 /\ 2 ^ n <= 2 * rem /\ 0 < rem)).
Proof.
  intros n. assert (P : 0 < 2 ^ n) by (apply pow2_pos; unfold n; lia).
  exists (Z.pos m / 2 ^ n), (Z.pos m mod 2 ^ n).
  split; [apply Z.div_mod; lia|]. split; [apply Z.mod_pos_bound; lia|].
  split; [apply Z.div_pos; lia|]. exact Hv.
Qed.

(** Rounding never crosses a representable upper bound. *)
Lemma round_upper (mb : positive) (eb : Z) :
  bounded prec emax mb eb = true ->
  scaled (Z.pos m) e <= scaled (Z.pos mb) eb ->
  r = S754_zero s \/
  exists m3 e3, r = S754_finite s m3 e3 /\ scaled (Z.pos m3) e3 <= scaled (Z.pos mb) eb.
Proof.
  intros Bb Hle.
  pose proof (bounded_inv mb eb Bb) as [Hb1 Hb2]. 
  assert (He1 : e1 = Z.max (d + e - 53) (-1074)) by reflexivity.
  assert (Hbs : -scale <= eb) by (unfold scale; lia).
  pose proof (scaled_le_digits m mb e eb He Hbs Hle) as Hdd. fold d in Hdd.
  assert (Hee : e1 <= eb) by lia.
  destruct nearest_bracket as (q & rem & Em & Hrem & Hq & Hcase).
  set (n := e1 - e) in *.
  assert (Hvb : scaled v e1 <= scaled (Z.pos mb) eb).
  { rewrite <- (scaled_shift (Z.pos mb) e1 eb) by (unfold scale in *; lia).
    rewrite <- (scaled_shift (Z.pos mb) e1 eb) in Hle by (unfold scale in *; lia).
    set (bq := Z.pos mb * 2 ^ (eb - e1)) in *.
    unfold scaled in *.
    assert (P1 : 0 < 2 ^ (e1 + scale)) by (apply pow2_pos; unfold scale in *; lia).
    assert (P0 : 0 < 2 ^ (e + scale)) by (apply pow2_pos; lia).
    assert (Pn : 0 < 2 ^ n) by (apply pow2_pos; unfold n; lia).
    assert (E1 : 2 ^ (e1 + scale) = 2 ^ n * 2 ^ (e + scale)).
    { rewrite <- pow2_split by (unfold n; lia). f_equal. unfold n. lia. }
    rewrite E1 in Hle |- *.
    assert (Hm : Z.pos m <= bq * 2 ^ n) by nia.
    assert (v <= bq) by (destruct Hcase as [[-> _]|[-> [_ Hp]]]; nia).
    nia. }
  destruct (rounded_inv s v e1 r Hr ltac:(unfold scale in *; lia))
    as [[-> _]|[(m3 & e3 & -> & Es & _)|(_ & Hpos & Hbig)]].
  - now left.
  - right. exists m3, e3. split; [reflexivity|]. rewrite Es. exact Hvb.
  - exfalso. destruct v as [|pv|pv]; try lia.
    pose proof (scaled_le_digits pv mb e1 eb ltac:(unfold scale in *; lia) Hbs Hvb) as Hdv.
    rewrite fexp64 in Hbig. cbn [Zdigits2] in Hbig. lia.
Qed.

(** Rounding never crosses a representable lower bound. *)
Lemma round_lower (mb : positive) (eb : Z) :
  bounded prec emax mb eb = true ->
  scaled (Z.pos mb) eb <= scaled (Z.pos m) e ->
  r = S754_infinity s \/
  exists m3 e3, r = S754_finite s m3 e3 /\ scaled (Z.pos mb) eb <= scaled (Z.pos m3) e3.
Proof.
  intros Bb Hle.
  pose proof (bounded_inv mb eb Bb) as [Hb1 Hb2].
  pose proof (digits2_pos_bounds mb) as Db. pose proof (digits2_pos_bounds m) as Dm.
  fold d in Dm.
  assert (He1 : e1 = Z.max (d + e - 53) (-1074)) by reflexivity.
  assert (Hbs : -scale <= eb) by (unfold scale; lia).
  assert (He1s : -scale <= e1) by (unfold scale in *; lia).
  destruct nearest_bracket as (q & rem & Em & Hrem & Hq & Hcase).
  set (n := e1 - e) in *.
  assert (Pn : 0 < 2 ^ n) by (apply pow2_pos; unfold n; lia).
  assert (P1 : 0 < 2 ^ (e1 + scale)) by (apply pow2_pos; lia).
  assert (P0 : 0 < 2 ^ (e + scale)) by (apply pow2_pos; lia).
  assert (E1 : 2 ^ (e1 + scale) = 2 ^ n * 2 ^ (e + scale)).
  { rewrite <- pow2_split by (unfold n; lia). f_equal. unfold n. lia. }
  assert (Hqv : q <= v) by (destruct Hcase as [[-> _]|[-> _]]; lia).
  assert (Hvb : scaled (Z.pos mb) eb <= scaled v e1 /\ 0 < v).
  { destruct (Z_le_gt_dec e1 eb) as [Hee|Hee].
    - rewrite <- (scaled_shift (Z.pos mb) e1 eb) by lia.
      rewrite <- (scaled_shift (Z.pos mb) e1 eb) in Hle by lia.
      assert (Pb : 0 < Z.pos mb * 2 ^ (eb - e1)).
      { apply Z.mul_pos_pos; [lia|]. apply pow2_pos. lia. }
      set (bq := Z.pos mb * 2 ^ (eb - e1)) in *.
      unfold scaled in *. rewrite E1 in Hle |- *.
      assert (Hm : bq * 2 ^ n <= Z.pos m) by nia.
      assert (bq <= q) by nia.
      split; nia.
    - assert (Hn52 : n = d - 53) by (unfold n; lia).
      assert (Pd : 2 ^ (d - 1) = 2 ^ 52 * 2 ^ n).
      { rewrite <- pow2_split by lia. f_equal. lia. }
      assert (H52 : 2 ^ 52 <= q) by nia.
      assert (Ub : Z.pos mb < 2 ^ 53).
      { apply Z.lt_le_trans with (2 ^ Z.pos (digits2_pos mb)); [lia|].
        apply pow2_le. lia. }
      assert (E2 : 2 ^ (e1 + scale) = 2 ^ (e1 - eb - 1) * (2 * 2 ^ (eb + scale))).
      { rewrite <- Z.pow_succ_r by lia. rewrite <- pow2_split by lia. f_equal. lia. }
      assert (P2 : 0 < 2 ^ (eb + scale)) by (apply pow2_pos; lia).
      assert (P3 : 1 <= 2 ^ (e1 - eb - 1)) by (pose proof (pow2_pos (e1 - eb - 1)); lia).
      change (2 ^ 52) with 4503599627370496 in H52.
      change (2 ^ 53) with 9007199254740992 in Ub.
      unfold scaled. rewrite E2. split; nia. }
  destruct Hvb as [Hvb Hvpos].
  destruct (rounded_inv s v e1 r Hr He1s)
    as [[_ Ev]|[(m3 & e3 & -> & Es & _)|(-> & _)]].
  - lia.
  - right. exists m3, e3. split; [reflexivity|]. rewrite Es. exact Hvb.
  - now left.
Qed.

(** More than half the smallest positive value does not round to zero. *)
Lemma round_nonzero :
  scaled 1 (-1075) < scaled (Z.pos m) e -> r <> S754_zero s.
Proof.
  intros Hlt.
  pose proof (digits2_pos_bounds m) as Dm. fold d in Dm.
  assert (He1 : e1 = Z.max (d + e - 53) (-1074)) by reflexivity.
  assert (He1s : -scale <= e1) by (unfold scale in *; lia).
  destruct nearest_bracket as (q & rem & Em & Hrem & Hq & Hcase).
  set (n := e1 - e) in *.
  assert (Pn : 0 < 2 ^ n) by (apply pow2_pos; unfold n; lia).
  assert (P0 : 0 < 2 ^ (e + scale)) by (apply pow2_pos; lia).
  assert (Hvpos : 0 < v).
  { destruct (Z_le_gt_dec 1 q) as [|Hq0]; [destruct Hcase as [[-> _]|[-> _]]; lia|].
    assert (q = 0) by lia. subst q.
    destruct Hcase as [[-> Hhalf]|[-> _]]; [exfalso|lia].
    destruct (Z.eq_dec e1 (-1074)) as [E|NE].
    - assert (E1 : 2 ^ (-1074 + scale) = 2 ^ n * 2 ^ (e + scale)).
      { rewrite <- pow2_split by (unfold n; lia). f_equal. unfold n. lia. }
      assert (E2 : 2 ^ (-1074 + scale) = 2 * 2 ^ (-1075 + scale)).
      { rewrite <- Z.pow_succ_r by (unfold scale; lia). f_equal. }
      unfold scaled in Hlt. nia.
    - assert (Hn52 : n = d - 53) by (unfold n; lia).
      assert (Pd : 2 ^ (d - 1) = 2 ^ 52 * 2 ^ n).
      { rewrite <- pow2_split by lia. f_equal. lia. }
      change (2 ^ 52) with 4503599627370496 in Pd. nia. }
  destruct (rounded_inv s v e1 r Hr He1s)
    as [[_ Ev]|[(m3 & e3 & -> & _)|(-> & _)]]; [lia|discriminate|discriminate].
Qed.

(** A mantissa that needs no rounding keeps its value. *)
Lemma round_exact :
  Z.pos m mod 2 ^ (e1 - e) = 0 -> e1 <= 971 ->
  exists m3 e3, r = S754_finite s m3 e3 /\ scaled (Z.pos m3) e3 = scaled (Z.pos m) e.
Proof.
  intros Hmod Hmax.
  pose proof (digits2_pos_bounds m) as Dm. fold d in Dm.
  assert (He1 : e1 = Z.max (d + e - 53) (-1074)) by reflexivity.
  assert (He1s : -scale <= e1) by (unfold scale in *; lia).
  destruct Hv as [[Ev _]|[_ [_ Hp]]]; [|lia].
  set (n := e1 - e) in *.
  assert (Pn : 0 < 2 ^ n) by (apply pow2_pos; unfold n; lia).
  pose proof (Z.div_mod (Z.pos m) (2 ^ n) ltac:(lia)) as Em.
  rewrite Hmod, Z.add_0_r, <- Ev in Em.
  assert (Hvpos : 0 < v) by nia.
  assert (Es : scaled v e1 = scaled (Z.pos m) e).
  { rewrite Em. rewrite (Z.mul_comm (2 ^ n)). symmetry. apply (scaled_shift v e e1). lia. }
  destruct (rounded_inv s v e1 r Hr He1s)
    as [[_ Ev0]|[(m3 & e3 & -> & Es3 & _)|(_ & _ & Hbig)]].
  - lia.
  - exists m3, e3. split; [reflexivity|]. now rewrite Es3.
  - exfalso. destruct v as [|pv|pv]; try lia.
    assert (Hle : scaled (Z.pos pv) e1 <= scaled (Z.pos m) e) by lia.
    pose proof (scaled_le_digits pv m e1 e He1s He Hle) as Hdv. fold d in Hdv.
    rewrite fexp64 in Hbig. cbn [Zdigits2] in Hbig. lia.
Qed.

End Nearest.

(** *** Products and sums *)

Lemma digits2_mul_lower (mx my : positive) :
  Z.pos (digits2_pos mx) + Z.pos (digits2_pos my) - 1
  <= Z.pos (digits2_pos (mx * my)).
Proof.
  pose proof (digits2_pos_bounds mx) as Dx. pose proof (digits2_pos_bounds my) as Dy.
  pose proof (digits2_pos_bounds (mx * my)) as Dp.
  set (dx := Z.pos (digits2_pos mx)) in *. set (dy := Z.pos (digits2_pos my)) in *.
  set (dp := Z.pos (digits2_pos (mx * my))) in *.
  assert (0 < dx) by (unfold dx; lia). assert (0 < dy) by (unfold dy; lia).
  assert (0 < dp) by (unfold dp; lia).
  destruct (Z_le_gt_dec (dx + dy - 1) dp) as [|G]; [assumption|exfalso].
  assert (2 ^ dp <= 2 ^ (dx - 1 + (dy - 1))) by (apply pow2_le; lia).
  rewrite pow2_split in * by lia. rewrite Pos2Z.inj_mul in Dp.
  assert (0 < 2 ^ (dx - 1)) by (apply pow2_pos; lia).
  assert (0 < 2 ^ (dy - 1)) by (apply pow2_pos; lia).
  clearbody dx dy dp. nia.
Qed.

Lemma mul_round_pre (mx my : positive) (ex ey : Z) :
  bounded prec emax mx ex = true -> bounded prec emax my ey = true ->
  -scale <= ex + ey /\
  ex + ey <= fexp prec emax (Z.pos (digits2_pos (mx * my)) + (ex + ey)).
Proof.
  intros Bx By. apply bounded_inv in Bx, By. cbv zeta in Bx, By.
  pose proof (digits2_mul_lower mx my).
  rewrite fexp64. unfold scale.
  assert (0 < Z.pos (digits2_pos mx)) by lia.
  assert (0 < Z.pos (digits2_pos my)) by lia.
  lia.
Qed.

Lemma scaled_mul (mx my ex ey : Z) :
  -1074 <= ex -> -1074 <= ey ->
  scaled mx ex * scaled my ey = scaled (mx * my) (ex + ey) * 2 ^ scale.
Proof.
  intros Hx Hy. unfold scaled.
  assert (Ex : 2 ^ (ex + scale) = 2 ^ (ex + 1074) * 2 ^ 1074).
  { rewrite <- pow2_split by lia. f_equal. unfold scale. lia. }
  assert (Ey : 2 ^ (ey + scale) = 2 ^ (ey + 1074) * 2 ^ 1074).
  { rewrite <- pow2_split by lia. f_equal. unfold scale. lia. }
  assert (Exy : 2 ^ (ex + ey + scale) = 2 ^ (ex + 1074) * 2 ^ (ey + 1074)).
  { rewrite <- pow2_split by lia. f_equal. unfold scale. lia. }
  assert (Es : 2 ^ scale = 2 ^ 1074 * 2 ^ 1074).
  { rewrite <- pow2_split by lia. reflexivity. }
  rewrite Ex, Ey, Exy, Es.
  generalize (2 ^ 1074) (2 ^ (ex + 1074)) (2 ^ (ey + 1074)). intros. ring.
Qed.

Lemma nnf_nonneg (x : spec_float) (vx : Z) :
  valid_binary x = true -> nnf x vx -> 0 <= vx.
Proof.
  intros V H. destruct H as [|m e]; [lia|].
  apply bounded_inv in V. cbv zeta in V.
  pose proof (scaled_pos m e ltac:(unfold scale; lia)). lia.
Qed.

(** A product of two non-negative values stays below a representable bound
    on the exact product. *)
Lemma mul_upper (x y b : spec_float) (vx vy vb : Z) :
  valid_binary x = true -> valid_binary y = true -> valid_binary b = true ->
  nnf x vx -> nnf y vy -> nnf b vb ->
  vx * vy <= vb * 2 ^ scale ->
  exists vr, nnf (SF64mul x y) vr /\ vr <= vb.
Proof.
  intros Vx Vy Vb Hx Hy Hb Hle.
  pose proof (nnf_nonneg b vb Vb Hb) as Hb0. unfold SF64mul.
  destruct Hx as [|mx ex];
    [destruct Hy; (exists 0; cbn [SFmul xorb]; split; [apply nnf_zero|lia])|].
  destruct Hy as [|my ey]; [exists 0; cbn [SFmul xorb]; split; [apply nnf_zero|lia]|].
  cbn [valid_binary] in Vx, Vy.
  pose proof (bounded_inv mx ex Vx) as [Hx1 _]. pose proof (bounded_inv my ey Vy) as [Hy1 _].
  rewrite scaled_mul in Hle by lia.
  assert (P : 0 < 2 ^ scale) by (apply pow2_pos; unfold scale; lia).
  assert (Hle' : scaled (Z.pos (mx * my)) (ex + ey) <= vb) by (rewrite Pos2Z.inj_mul; nia).
  destruct (mul_round_pre mx my ex ey Vx Vy) as [Hs Hpre].
  destruct (binary_round_aux_nearest false (mx * my) (ex + ey) Hpre) as (v & Hv & Hr).
  cbn [SFmul xorb].
  destruct Hb as [|mb eb].
  - pose proof (scaled_pos (mx * my) (ex + ey) Hs). lia.
  - destruct (round_upper false (mx * my) (ex + ey) v _ Hs Hpre Hv Hr mb eb Vb Hle')
      as [->|(m3 & e3 & -> & H3)].
    + exists 0. split; [constructor|lia].
    + exists (scaled (Z.pos m3) e3). split; [constructor|assumption].
Qed.

(** A product of positive values larger than half the smallest positive
    value is not zero. *)
Lemma mul_nonzero (mx my : positive) (ex ey : Z) :
  bounded prec emax mx ex = true -> bounded prec emax my ey = true ->
  scaled 1 (-1075) < scaled (Z.pos (mx * my)) (ex + ey) ->
  SF64mul (S754_finite false mx ex) (S754_finite false my ey) = S754_infinity false \/
  exists m e, SF64mul (S754_finite false mx ex) (S754_finite false my ey)
              = S754_finite false m e.
Proof.
  intros Vx Vy Hlt.
  destruct (mul_round_pre mx my ex ey Vx Vy) as [Hs Hpre].
  destruct (binary_round_aux_nearest false (mx * my) (ex + ey) Hpre) as (v & Hv & Hr).
  unfold SF64mul. cbn [SFmul xorb].
  pose proof (round_nonzero false (mx * my) (ex + ey) v _ Hs Hpre Hv Hr Hlt) as NZ.
  destruct Hr as [?|m e ? ? ?|? ?].
  - congruence.
  - right. now exists m, e.
  - now left.
Qed.

Lemma pos_iter_xO (m d : positive) :
  Z.pos (Pos.iter xO m d) = Z.pos m * 2 ^ Z.pos d.
Proof.
  induction d as [|d IH] using Pos.peano_ind.
  - cbn [Pos.iter]. rewrite Z.pow_1_r. lia.
  - rewrite Pos.iter_succ, Pos2Z.inj_succ, Z.pow_succ_r by lia.
    change (Z.pos (Pos.iter xO m d)~0) with (2 * Z.pos (Pos.iter xO m d)).
    rewrite IH. ring.
Qed.

Lemma shl_align_spec (mx : positive) (ex ex' : Z) :
  exists mz, shl_align mx ex ex' = (mz, Z.min ex ex')
             /\ Z.pos mz = Z.pos mx * 2 ^ (ex - Z.min ex ex').
Proof.
  unfold shl_align. destruct (ex' - ex) as [|p|p] eqn:E.
  - exists mx. replace (Z.min ex ex') with ex by lia.
    rewrite Z.sub_diag. split; [reflexivity|simpl; lia].
  - exists mx. replace (Z.min ex ex') with ex by lia.
    rewrite Z.sub_diag. split; [reflexivity|simpl; lia].
  - exists (Pos.iter xO mx p). replace (Z.min ex ex') with ex' by lia.
    split; [reflexivity|]. rewrite pos_iter_xO. f_equal. f_equal. lia.
Qed.

Lemma digits2_shift (m mz : positive) (k : Z) :
  0 <= k -> Z.pos mz = Z.pos m * 2 ^ k ->
  Z.pos (digits2_pos mz) = Z.pos (digits2_pos m) + k.
Proof.
  intros Hk E. apply digits2_unique. rewrite E.
  pose proof (digits2_pos_bounds m) as D.
  set (d := Z.pos (digits2_pos m)) in *.
  assert (0 < d) by (unfold d; lia). clearbody d.
  replace (d + k - 1) with (d - 1 + k) by lia.
  rewrite !pow2_split by lia.
  assert (0 < 2 ^ k) by (apply pow2_pos; lia). nia.
Qed.

(** [binary_round] first aligns the mantissa, then rounds it. *)
Lemma binary_round_pre (s : bool) (mx : positive) (ex : Z) :
  -scale <= ex ->
  exists mz ez,
    binary_round prec emax s mx ex = binary_round_aux prec emax s (Z.pos mz) ez loc_Exact
    /\ -scale <= ez
    /\ scaled (Z.pos mz) ez = scaled (Z.pos mx) ex
    /\ ez <= fexp prec emax (Z.pos (digits2_pos mz) + ez).
Proof.
  intros Hs. unfold binary_round.
  set (e' := fexp prec emax (Z.pos (digits2_pos mx) + ex)).
  destruct (shl_align_spec mx ex e') as (mz & E & Hz). rewrite E.
  assert (He' : e' = Z.max (Z.pos (digits2_pos mx) + ex - 53) (-1074)) by reflexivity.
  exists mz, (Z.min ex e'). split; [reflexivity|].
  assert (Hmin : -scale <= Z.min ex e') by (unfold scale in *; lia).
  split; [exact Hmin|]. split.
  - rewrite Hz. apply scaled_shift. lia.
  - rewrite (digits2_shift mx mz (ex - Z.min ex e')) by (lia || exact Hz).
    rewrite fexp64. lia.
Qed.

(** A sum of two non-negative values stays below a representable bound on
    the exact sum. *)
Lemma add_upper (x y b : spec_float) (vx vy vb : Z) :
  valid_binary x = true -> valid_binary y = true -> valid_binary b = true ->
  nnf x vx -> nnf y vy -> nnf b vb ->
  vx + vy <= vb ->
  exists vr, nnf (SF64add x y) vr /\ vr <= vb.
Proof.
  intros Vx Vy Vb Hx Hy Hb Hle. unfold SF64add.
  pose proof (nnf_nonneg x vx Vx Hx) as Hx0. pose proof (nnf_nonneg y vy Vy Hy) as Hy0.
  destruct Hx as [|mx ex].
  { destruct Hy as [|my ey]; cbn [SFadd].
    - exists 0. split; [apply nnf_zero|lia].
    - exists (scaled (Z.pos my) ey). split; [apply nnf_finite|lia]. }
  destruct Hy as [|my ey]; cbn [SFadd].
  { exists (scaled (Z.pos mx) ex). split; [apply nnf_finite|lia]. }
  cbn [valid_binary] in Vx, Vy.
  pose proof (bounded_inv mx ex Vx) as [Hx1 _]. pose proof (bounded_inv my ey Vy) as [Hy1 _].
  set (ez := Z.min ex ey).
  destruct (shl_align_spec mx ex ez) as (ax & Eax & Hax).
  destruct (shl_align_spec my ey ez) as (ay & Eay & Hay).
  rewrite Eax, Eay. cbn [fst cond_Zopp].
  replace (Z.min ex ez) with ez in Hax by (unfold ez; lia).
  replace (Z.min ey ez) with ez in Hay by (unfold ez; lia).
  change (Z.pos ax + Z.pos ay) with (Z.pos (ax + ay)). cbn [binary_normalize].
  assert (Hez : -scale <= ez) by (unfold ez, scale; lia).
  assert (Hsum : scaled (Z.pos (ax + ay)) ez = scaled (Z.pos mx) ex + scaled (Z.pos my) ey).
  { rewrite Pos2Z.inj_add, Hax, Hay.
    rewrite <- (scaled_shift (Z.pos mx) ez ex) by (unfold ez in *; lia).
    rewrite <- (scaled_shift (Z.pos my) ez ey) by (unfold ez in *; lia).
    unfold scaled. ring. }
  destruct (binary_round_pre false (ax + ay) ez Hez) as (mz & e0 & -> & Hs & Hval & Hpre).
  destruct (binary_round_aux_nearest false mz e0 Hpre) as (v & Hv & Hr).
  destruct Hb as [|mb eb].
  - pose proof (scaled_pos (ax + ay) ez Hez). lia.
  - destruct (round_upper false mz e0 v _ Hs Hpre Hv Hr mb eb Vb ltac:(lia))
      as [->|(m3 & e3 & -> & H3)].
    + exists 0. split; [apply nnf_zero|lia].
    + exists (scaled (Z.pos m3) e3). split; [apply nnf_finite|assumption].
Qed.

(** A sum of two positive finite values is positive. *)
Lemma add_positive (mx my : positive) (ex ey : Z) :
  bounded prec emax mx ex = true -> bounded prec emax my ey = true ->
  SF64add (S754_finite false mx ex) (S754_finite false my ey) = S754_infinity false \/
  exists m e, SF64add (S754_finite false mx ex) (S754_finite false my ey)
              = S754_finite false m e.
Proof.
  intros Vx Vy. unfold SF64add. cbn [SFadd].
  pose proof (bounded_inv mx ex Vx) as [Hx1 _]. pose proof (bounded_inv my ey Vy) as [Hy1 _].
  set (ez := Z.min ex ey).
  destruct (shl_align_spec mx ex ez) as (ax & Eax & Hax).
  destruct (shl_align_spec my ey ez) as (ay & Eay & Hay).
  rewrite Eax, Eay. cbn [fst cond_Zopp].
  replace (Z.min ex ez) with ez in Hax by (unfold ez; lia).
  replace (Z.min ey ez) with ez in Hay by (unfold ez; lia).
  change (Z.pos ax + Z.pos ay) with (Z.pos (ax + ay)). cbn [binary_normalize].
  assert (Hez : -scale <= ez) by (unfold ez, scale; lia).
  assert (Hsum : scaled (Z.pos mx) ex <= scaled (Z.pos (ax + ay)) ez).
  { rewrite Pos2Z.inj_add, Hax.
    rewrite <- (scaled_shift (Z.pos mx) ez ex) by (unfold ez in *; lia).
    unfold scaled.
    assert (0 < 2 ^ (ez + scale)) by (apply pow2_pos; lia). nia. }
  destruct (binary_round_pre false (ax + ay) ez Hez) as (mz & e0 & -> & Hs & Hval & Hpre).
  destruct (binary_round_aux_nearest false mz e0 Hpre) as (v & Hv & Hr).
  destruct (round_lower false mz e0 v _ Hs Hpre Hv Hr mx ex Vx ltac:(lia))
    as [->|(m3 & e3 & -> & _)].
  - now left.
  - right. now exists m3, e3.
Qed.

End Order.

Section Binary64.
Open Scope Z_scope.

Lemma view_positive (x : float) :
  (0 <? x)%float = true ->
  Prim2SF x = S754_infinity false \/
  exists m e, Prim2SF x = S754_finite false m e /\ bounded prec emax m e = true.
Proof.
  rewrite ltb_spec. change (Prim2SF 0) with (S754_zero false).
  pose proof (Prim2SF_valid x) as V.
  destruct (Prim2SF x) as [s|s| |s m e]; unfold SFltb; cbn [SFcompare]; try discriminate.
  - destruct s; [discriminate|]. now left.
  - destruct s; [discriminate|]. right. exists m, e. split; [reflexivity|exact V].
Qed.

Lemma view_below (x c : float) (mc : positive) (ec : Z) :
  Prim2SF c = S754_finite false mc ec ->
  (0 <? x)%float = true -> (x <? c)%float = true ->
  exists m e, Prim2SF x = S754_finite false m e /\ bounded prec emax m e = true
              /\ scaled (Z.pos m) e < scaled (Z.pos mc) ec.
Proof.
  intros Ec Hpos Hlt.
  pose proof (Prim2SF_valid c) as Vc. rewrite Ec in Vc. cbn [valid_binary] in Vc.
  rewrite ltb_spec, Ec in Hlt.
  destruct (view_positive x Hpos) as [E|(m & e & E & V)]; rewrite E in Hlt.
  - discriminate Hlt.
  - exists m, e. split; [exact E|]. split; [exact V|].
    unfold SFltb in Hlt. rewrite SFcompare_scaled in Hlt by assumption.
    destruct (Z.compare_spec (scaled (Z.pos m) e) (scaled (Z.pos mc) ec)); try discriminate.
    assumption.
Qed.

Lemma nnf_ltb (x c : float) (vx : Z) (mc : positive) (ec : Z) :
  nnf (Prim2SF x) vx -> Prim2SF c = S754_finite false mc ec ->
  vx < scaled (Z.pos mc) ec -> (x <? c)%float = true.
Proof.
  intros Hx Ec Hlt.
  pose proof (Prim2SF_valid c) as Vc. rewrite Ec in Vc. cbn [valid_binary] in Vc.
  pose proof (Prim2SF_valid x) as Vx.
  rewrite ltb_spec, Ec. unfold SFltb.
  inversion Hx as [E|m e E Ev].
  - reflexivity.
  - rewrite <- E in Vx. cbn [valid_binary] in Vx.
    rewrite SFcompare_scaled by assumption.
    rewrite <- Ev in Hlt. apply Z.compare_lt_iff in Hlt. now rewrite Hlt.
Qed.

(** Below a value of full precision there is room for its predecessor. *)
Lemma valid_lt_pred (m mb : positive) (e eb : Z) :
  bounded prec emax m e = true -> bounded prec emax mb eb = true ->
  2 ^ 52 < Z.pos mb ->
  scaled (Z.pos m) e < scaled (Z.pos mb) eb ->
  scaled (Z.pos m) e <= scaled (Z.pos mb - 1) eb.
Proof.
  intros V Vb Hmb Hlt.
  pose proof (bounded_inv m e V) as [H1 _]. pose proof (bounded_inv mb eb Vb) as [Hb1 _].
  pose proof (digits2_pos_bounds m) as D. pose proof (digits2_pos_bounds mb) as Db.
  assert (Pb : 0 < 2 ^ (eb + scale)) by (apply pow2_pos; unfold scale; lia).
  assert (P : 0 < 2 ^ (e + scale)) by (apply pow2_pos; unfold scale; lia).
  destruct (Z.lt_trichotomy e eb) as [L|[E|G]].
  - assert (U : Z.pos m < 2 ^ 53).
    { apply Z.lt_le_trans with (2 ^ Z.pos (digits2_pos m)); [lia|]. apply pow2_le. lia. }
    assert (E2 : 2 ^ (eb + scale) = 2 ^ (eb - e - 1) * (2 * 2 ^ (e + scale))).
    { rewrite <- Z.pow_succ_r by (unfold scale; lia).
      rewrite <- pow2_split by (unfold scale; lia). f_equal. lia. }
    assert (1 <= 2 ^ (eb - e - 1)) by (pose proof (pow2_pos (eb - e - 1)); lia).
    unfold scaled. rewrite E2.
    change (2 ^ 53) with 9007199254740992 in U.
    change (2 ^ 52) with 4503599627370496 in Hmb. nia.
  - subst eb. unfold scaled in *.
    apply Z.mul_lt_mono_pos_r in Hlt; [|exact P].
    apply Z.mul_le_mono_nonneg_r; lia.
  - exfalso. pose proof (scaled_lt_exp mb m eb e Vb V G). lia.
Qed.

Lemma scaled_inj (m1 m2 : positive) (e1 e2 : Z) :
  bounded prec emax m1 e1 = true -> bounded prec emax m2 e2 = true ->
  scaled (Z.pos m1) e1 = scaled (Z.pos m2) e2 -> m1 = m2 /\ e1 = e2.
Proof.
  intros V1 V2 E.
  destruct (Z.lt_trichotomy e1 e2) as [L|[Ee|G]].
  - pose proof (scaled_lt_exp m1 m2 e1 e2 V1 V2 L). lia.
  - subst e2. split; [|reflexivity].
    pose proof (bounded_inv m1 e1 V1) as [H1 _].
    assert (P : 0 < 2 ^ (e1 + scale)) by (apply pow2_pos; unfold scale; lia).
    unfold scaled in E. apply Z.mul_cancel_r in E; [congruence|lia].
  - pose proof (scaled_lt_exp m2 m1 e2 e1 V2 V1 G). lia.
Qed.


(** Multiplying by a positive constant: an upper bound on the operand gives
    an upper bound on the rounded product. *)
Lemma cmul_upper (c x b : float) (mc mx mb : positive) (ec ex eb vu : Z) :
  Prim2SF c = S754_finite false mc ec ->
  Prim2SF x = S754_finite false mx ex ->
  Prim2SF b = S754_finite false mb eb ->
  scaled (Z.pos mx) ex <= vu ->
  scaled (Z.pos mc) ec * vu <= scaled (Z.pos mb) eb * 2 ^ scale ->
  exists vr, nnf (Prim2SF (c * x)) vr /\ vr <= scaled (Z.pos mb) eb.
Proof.
  intros Ec Ex Eb Hx Hc.
  pose proof (Prim2SF_valid c) as Vc. pose proof (Prim2SF_valid x) as Vx.
  pose proof (Prim2SF_valid b) as Vb.
  rewrite mul_spec.
  apply (mul_upper _ _ (Prim2SF b) (scaled (Z.pos mc) ec) (scaled (Z.pos mx) ex));
    try assumption.
  - rewrite Ec. constructor.
  - rewrite Ex. constructor.
  - rewrite Eb. constructor.
  - apply Z.le_trans with (scaled (Z.pos mc) ec * vu); [|exact Hc].
    apply Z.mul_le_mono_nonneg_l; [|exact Hx].
    rewrite Ec in Vc.
    apply Z.lt_le_incl, scaled_pos. apply bounded_inv in Vc. unfold scale. cbv zeta in Vc. lia.
Qed.


End Binary64.

(** ** The blend of two pitches *)

Section Blend.
Open Scope Z_scope.

Lemma raw_term_bound (pitch : float) :
  (0 <? pitch)%float = true -> (pitch <? 5000)%float = true ->
  exists vr, nnf (Prim2SF ((1 - PITCH_SMOOTHING) * pitch)) vr
             /\ vr <= scaled 6597069766656000 (-42).
Proof.
  intros Hpos Hlt.
  destruct (view_below pitch 5000 5497558138880000 (-40) eq_refl Hpos Hlt)
    as (m & e & E & V & Hv).
  apply (valid_lt_pred m 5497558138880000 e (-40) V eq_refl) in Hv; [|closed_lt].
  apply (cmul_upper (1 - PITCH_SMOOTHING) pitch 1500
           5404319552844596 m 6597069766656000 (-54) e (-42) _ eq_refl E eq_refl Hv).
  closed_le.
Qed.

Lemma smoothed_term_bound (smoothed : float) :
  (0 <? smoothed)%float = true -> (smoothed <? 5000)%float = true ->
  exists vr, nnf (Prim2SF (PITCH_SMOOTHING * smoothed)) vr
             /\ vr <= scaled 7696581394431998 (-41).
Proof.
  intros Hpos Hlt.
  destruct (view_below smoothed 5000 5497558138880000 (-40) eq_refl Hpos Hlt)
    as (m & e & E & V & Hv).
  apply (valid_lt_pred m 5497558138880000 e (-40) V eq_refl) in Hv; [|closed_lt].
  change (Z.pos 5497558138880000 - 1) with (Z.pos 5497558138879999) in Hv.
  destruct (Z.eq_dec (scaled (Z.pos m) e) (scaled (Z.pos 5497558138879999) (-40)))
    as [Heq|Hne].
  - (* the largest value below 5000 *)
    apply (scaled_inj m 5497558138879999 e (-40) V eq_refl) in Heq.
    destruct Heq as [-> ->].
    assert (Es : smoothed = next_down 5000).
    { apply Prim2SF_inj. rewrite E. reflexivity. }
    subst smoothed.
    exists (scaled 7696581394431998 (-41)). split; [|apply Z.le_refl].
    change (Prim2SF (PITCH_SMOOTHING * next_down 5000))
      with (S754_finite false 7696581394431998 (-41)).
    constructor.
  - assert (Hv' : scaled (Z.pos m) e < scaled (Z.pos 5497558138879999) (-40)) by (apply Z.le_neq; split; assumption).
    apply (valid_lt_pred m 5497558138879999 e (-40) V eq_refl) in Hv'; [|closed_lt].
    apply (cmul_upper PITCH_SMOOTHING smoothed (PITCH_SMOOTHING * next_down 5000)
             6305039478318694 m 7696581394431998 (-53) e (-41) _ eq_refl E eq_refl Hv').
    closed_le.
Qed.

Lemma blend_below (smoothed pitch : float) :
  (0 <? smoothed)%float = true -> (smoothed <? 5000)%float = true ->
  (0 <? pitch)%float = true -> (pitch <? 5000)%float = true ->
  (blend smoothed pitch <? 5000)%float = true.
Proof.
  intros Hs0 Hs Hp0 Hp. unfold blend.
  destruct (smoothed_term_bound smoothed Hs0 Hs) as (va & Ha & Hva).
  destruct (raw_term_bound pitch Hp0 Hp) as (vb & Hb & Hvb).
  assert (Hsum : exists vr, nnf (Prim2SF (PITCH_SMOOTHING * smoothed
                                          + (1 - PITCH_SMOOTHING) * pitch)) vr
                            /\ vr <= scaled 5497558138879999 (-40)).
  { rewrite add_spec.
    apply (add_upper _ _ (S754_finite false 5497558138879999 (-40)) va vb
             (scaled 5497558138879999 (-40))).
    - apply Prim2SF_valid.
    - apply Prim2SF_valid.
    - reflexivity.
    - exact Ha.
    - exact Hb.
    - apply nnf_finite.
    - apply Z.le_trans with (scaled 7696581394431998 (-41) + scaled 6597069766656000 (-42)).
      + apply Z.add_le_mono; assumption.
      + closed_le. }
  destruct Hsum as (vr & Hr & Hvr).
  apply (nnf_ltb _ 5000 vr 5497558138880000 (-40) Hr eq_refl).
  apply Z.le_lt_trans with (scaled 5497558138879999 (-40)); [exact Hvr|closed_lt].
Qed.

Lemma smoothed_term_positive (smoothed : float) :
  (0 <? smoothed)%float = true ->
  Prim2SF (PITCH_SMOOTHING * smoothed) = S754_infinity false \/
  exists m e, Prim2SF (PITCH_SMOOTHING * smoothed) = S754_finite false m e.
Proof.
  intros Hpos. rewrite mul_spec.
  change (Prim2SF PITCH_SMOOTHING) with (S754_finite false 6305039478318694 (-53)).
  destruct (view_positive smoothed Hpos) as [E|(m & e & E & V)]; rewrite E.
  - left. reflexivity.
  - apply mul_nonzero; [reflexivity|exact V|].
    pose proof (bounded_inv m e V) as [He _].
    unfold scaled, scale.
    replace (-53 + e + 2148) with ((e + 1074) + 1021) by lia.
    change (-1075 + 2148) with (52 + 1021).
    rewrite !pow2_split by lia.
    assert (P : 0 < 2 ^ 1021) by (apply pow2_pos; lia).
    assert (Q : 1 <= 2 ^ (e + 1074)) by (pose proof (pow2_pos (e + 1074)); lia).
    rewrite Pos2Z.inj_mul. change (2 ^ 52) with 4503599627370496.
    generalize dependent (2 ^ 1021). generalize dependent (2 ^ (e + 1074)).
    intros a Ha b Hb.
    assert (K1 : 1 <= Z.pos m * a) by nia.
    apply Z.lt_le_trans with (6305039478318694 * b); [lia|].
    replace (Z.pos 6305039478318694 * Z.pos m * (a * b))
      with (6305039478318694 * b * (Z.pos m * a)) by ring.
    nia.
Qed.

Lemma blend_positive (smoothed pitch : float) :
  (0 <? smoothed)%float = true ->
  (0 <? pitch)%float = true -> (pitch <? 5000)%float = true ->
  (0 <? blend smoothed pitch)%float = true.
Proof.
  intros Hs0 Hp0 Hp. unfold blend.
  destruct (raw_term_bound pitch Hp0 Hp) as (vb & Hb & _).
  pose proof (Prim2SF_valid (PITCH_SMOOTHING * smoothed)) as Va.
  pose proof (Prim2SF_valid ((1 - PITCH_SMOOTHING) * pitch)) as Vb.
  rewrite ltb_spec, add_spec. change (Prim2SF 0) with (S754_zero false).
  destruct Hb as [|mb eb];
    destruct (smoothed_term_positive smoothed Hs0) as [Ea|(ma & ea & Ea)];
    rewrite Ea in *; try reflexivity.
  cbn [valid_binary] in Va, Vb.
  destruct (add_positive ma mb ea eb Va Vb) as [->|(m & e & ->)]; reflexivity.
Qed.

End Blend.

(** ** Shapes of results *)

Section Shapes.
Open Scope Z_scope.

Lemma rounded_notnan (s : bool) (v e1 : Z) (r : spec_float) :
  rounded s v e1 r -> notnan r = true.
Proof. intros H; destruct H; reflexivity. Qed.

Lemma binary_round_notnan (s : bool) (m : positive) (e : Z) :
  -scale <= e -> notnan (binary_round prec emax s m e) = true.
Proof.
  intros He.
  destruct (binary_round_pre s m e He) as (mz & ez & -> & _ & _ & Hpre).
  destruct (binary_round_aux_nearest s mz ez Hpre) as (v & _ & Hr).
  exact (rounded_notnan _ _ _ _ Hr).
Qed.

Lemma binary_normalize_notnan (m e : Z) (sz : bool) :
  -scale <= e -> notnan (binary_normalize prec emax m e sz) = true.
Proof.
  intros He. destruct m; cbn [binary_normalize];
    [reflexivity|now apply binary_round_notnan..].
Qed.

Lemma mul_finite_notnan (x y : spec_float) (s : bool) (m : positive) (e : Z) :
  x = S754_finite s m e ->
  valid_binary x = true -> valid_binary y = true ->
  notnan y = true -> notnan (SF64mul x y) = true.
Proof.
  intros -> Vx Vy Hy. unfold SF64mul.
  destruct y as [sy|sy| |sy my ey]; cbn [SFmul]; try reflexivity; try discriminate.
  cbn [valid_binary] in Vx, Vy.
  destruct (mul_round_pre m my e ey Vx Vy) as [_ Hpre].
  destruct (binary_round_aux_nearest (xorb s sy) (m * my) (e + ey) Hpre) as (v & _ & Hr).
  exact (rounded_notnan _ _ _ _ Hr).
Qed.

Lemma sub_fin_notnan (x y : spec_float) :
  valid_binary x = true -> valid_binary y = true ->
  notnan x = true -> fin y = true -> notnan (SF64sub x y) = true.
Proof.
  intros Vx Vy Hx Hy. unfold SF64sub.
  destruct x as [sx|sx| |sx mx ex], y as [sy|sy| |sy my ey];
    cbn [SFsub]; try reflexivity; try discriminate.
  - destruct sx, sy; reflexivity.
  - cbn [valid_binary] in Vx, Vy.
    pose proof (bounded_inv mx ex Vx) as [Hx1 _].
    pose proof (bounded_inv my ey Vy) as [Hy1 _].
    apply binary_normalize_notnan. unfold scale. lia.
Qed.

Lemma sub_self (x : spec_float) :
  fin x = true -> SF64sub x x = S754_zero false.
Proof.
  unfold SF64sub. destruct x as [s|s| |s m e]; cbn [SFsub fin]; try discriminate; intros _.
  - destruct s; reflexivity.
  - rewrite Z.sub_diag. reflexivity.
Qed.

Lemma add_zero_r (x : spec_float) (s : bool) :
  x <> S754_zero true -> SF64add x (S754_zero s) = x.
Proof.
  unfold SF64add. destruct x as [sx|sx| |sx m e]; cbn [SFadd]; try reflexivity.
  destruct sx, s; try reflexivity. congruence.
Qed.

Lemma div_zero_l (y : spec_float) :
  notnan y = true -> SFeqb y (S754_zero false) = false ->
  exists s, SF64div (S754_zero false) y = S754_zero s.
Proof.
  unfold SF64div. destruct y as [sy|sy| |sy m e]; cbn [SFdiv notnan]; try discriminate.
  - intros _ _. now exists (xorb false sy).
  - intros _ _. now exists (xorb false sy).
Qed.

Lemma binary_round_aux_sign (m e : Z) :
  binary_round_aux prec emax false m e loc_Exact <> S754_zero true.
Proof.
  unfold binary_round_aux.
  destruct (shr_fexp prec emax m e loc_Exact) as [mrs' e'].
  destruct (shr_fexp prec emax _ e' loc_Exact) as [mrs'' e''].
  destruct (shr_m mrs''); [discriminate| |discriminate].
  destruct (e'' <=? emax - prec); discriminate.
Qed.

Lemma Z2f_not_neg_zero (z : Z) : Prim2SF (Z2f z) <> S754_zero true.
Proof.
  unfold Z2f. rewrite of_uint63_spec.
  pose proof (Uint63.to_Z_bounded (Uint63.of_Z z)) as B.
  destruct (Uint63.to_Z (Uint63.of_Z z)) as [|p|p]; cbn [binary_normalize]; try lia.
  - discriminate.
  - unfold binary_round. destruct (shl_align _ _ _). apply binary_round_aux_sign.
Qed.

Lemma is_nan_view (x : float) : is_nan x = false -> notnan (Prim2SF x) = true.
Proof.
  unfold is_nan. rewrite eqb_spec. destruct (Prim2SF x); try reflexivity.
  discriminate.
Qed.

Lemma is_finite_view (x : float) : is_finite x = true -> fin (Prim2SF x) = true.
Proof.
  unfold is_finite, is_nan, is_infinity. rewrite !eqb_spec, abs_spec.
  change (Prim2SF infinity) with (S754_infinity false).
  destruct (Prim2SF x) as [s|s| |s m e]; try reflexivity.
  - destruct s; discriminate.
  - discriminate.
Qed.

(** A symmetric dip leaves the lag untouched. *)
Lemma interpolate_symmetric (tauEstimate : Z) (s0 s1 : float) :
  is_finite s0 = true -> is_nan s1 = false ->
  interpolate tauEstimate s0 s1 s0 = Z2f tauEstimate.
Proof.
  intros H0 H1. unfold interpolate. cbv zeta.
  destruct (negb (2 * (2 * s1 - s0 - s0) =? 0)%float) eqn:Hd; [|reflexivity].
  apply Prim2SF_inj.
  pose proof (is_finite_view s0 H0) as F0. pose proof (is_nan_view s1 H1) as N1.
  assert (Nd : notnan (Prim2SF (2 * (2 * s1 - s0 - s0))) = true).
  { rewrite mul_spec. apply (mul_finite_notnan _ _ false 4503599627370496 (-51));
      try apply Prim2SF_valid; [reflexivity|].
    rewrite sub_spec. apply sub_fin_notnan; try apply Prim2SF_valid; [|exact F0].
    rewrite sub_spec. apply sub_fin_notnan; try apply Prim2SF_valid; [|exact F0].
    rewrite mul_spec. apply (mul_finite_notnan _ _ false 4503599627370496 (-51));
      try apply Prim2SF_valid; [reflexivity|exact N1]. }
  apply negb_true_iff in Hd. rewrite eqb_spec in Hd.
  change (Prim2SF 0) with (S754_zero false) in Hd.
  rewrite add_spec, div_spec, sub_spec, sub_self by exact F0.
  destruct (div_zero_l _ Nd Hd) as [s ->].
  apply add_zero_r, Z2f_not_neg_zero.
Qed.

(** An integer below [2 ^ 53] is held exactly. *)
Lemma Z2f_view (t : Z) :
  0 < t < 2 ^ 53 ->
  exists m e, Prim2SF (Z2f t) = S754_finite false m e
              /\ scaled (Z.pos m) e = scaled t 0.
Proof.
  intros Ht. unfold Z2f. rewrite of_uint63_spec, Uint63.of_Z_spec.
  rewrite Z.mod_small
    by (change Uint63.wB with (2 ^ 63); change (2 ^ 53) with 9007199254740992 in Ht;
        change (2 ^ 63) with 9223372036854775808; lia).
  destruct t as [|p|p]; try lia. cbn [binary_normalize]. unfold binary_round.
  set (d := Z.pos (digits2_pos p)).
  assert (Hd : 0 < d <= 53).
  { split; [unfold d; lia|].
    pose proof (digits2_pos_bounds p) as [L _]. fold d in L.
    destruct (Z_le_gt_dec d 53) as [|G]; [assumption|exfalso].
    assert (2 ^ 53 <= 2 ^ (d - 1)) by (apply pow2_le; lia). lia. }
  rewrite Z.add_0_r. fold d.
  assert (Ef : fexp prec emax d = d - 53) by (rewrite fexp64; lia).
  rewrite Ef.
  destruct (shl_align_spec p 0 (d - 53)) as (mz & E & Hz). rewrite E.
  replace (Z.min 0 (d - 53)) with (d - 53) in * by lia.
  pose proof (digits2_shift p mz (0 - (d - 53)) ltac:(lia) Hz) as Hdz. fold d in Hdz.
  assert (Hpre : d - 53 <= fexp prec emax (Z.pos (digits2_pos mz) + (d - 53))).
  { rewrite Hdz, fexp64. lia. }
  destruct (binary_round_aux_nearest false mz (d - 53) Hpre) as (v & Hv & Hr).
  assert (Hs : -scale <= d - 53) by (unfold scale; lia).
  destruct (round_exact false mz (d - 53) v _ Hs Hpre Hv Hr) as (m3 & e3 & -> & E3).
  - rewrite Hdz, fexp64.
    replace (Z.max (d + (0 - (d - 53)) + (d - 53) - 53) (-1074) - (d - 53)) with 0 by lia.
    apply Z.mod_1_r.
  - rewrite Hdz, fexp64. lia.
  - exists m3, e3. split; [reflexivity|]. rewrite E3, Hz. apply scaled_shift.
    unfold scale. lia.
Qed.

(** Twice a lag is more than one and a half times the lag, also after
    rounding. *)
Lemma double_lag_exceeds (t : Z) :
  0 < t -> 2 * t < 2 ^ 53 -> (Z2f t * 1.5 <? Z2f (2 * t))%float = true.
Proof.
  intros Ht0 Ht.
  change (2 ^ 53) with 9007199254740992 in Ht.
  destruct (Z.eq_dec t 1) as [->|Hne]; [reflexivity|].
  destruct (Z2f_view t) as (mt & et & Et & Vt);
    [change (2 ^ 53) with 9007199254740992; lia|].
  destruct (Z2f_view (2 * t - 1)) as (mb & eb & Eb & Vb);
    [change (2 ^ 53) with 9007199254740992; lia|].
  destruct (Z2f_view (2 * t)) as (mc & ec & Ec & Vc);
    [change (2 ^ 53) with 9007199254740992; lia|].
  assert (Hmul : exists vr, nnf (Prim2SF (Z2f t * 1.5)) vr /\ vr <= scaled (Z.pos mb) eb).
  { rewrite mul_spec.
    apply (mul_upper _ _ (S754_finite false mb eb) (scaled (Z.pos mt) et)
             (scaled 6755399441055744 (-52))).
    - apply Prim2SF_valid.
    - apply Prim2SF_valid.
    - rewrite <- Eb. apply Prim2SF_valid.
    - rewrite Et. apply nnf_finite.
    - change (Prim2SF 1.5) with (S754_finite false 6755399441055744 (-52)).
      apply nnf_finite.
    - apply nnf_finite.
    - rewrite Vt, Vb.
      assert (E15 : scaled 6755399441055744 (-52) = 3 * 2 ^ 2147)
        by (vm_compute; reflexivity).
      rewrite E15. unfold scaled, scale. rewrite !Z.add_0_l.
      change (2 ^ 2148) with (2 * 2 ^ 2147).
      assert (P : 0 < 2 ^ 2147) by (apply pow2_pos; lia).
      generalize dependent (2 ^ 2147). intros q _ Hq. nia. }
  destruct Hmul as (vr & Hr & Hvr).
  apply (nnf_ltb _ _ vr mc ec Hr Ec).
  apply Z.le_lt_trans with (scaled (Z.pos mb) eb); [exact Hvr|].
  rewrite Vb, Vc. unfold scaled.
  assert (P : 0 < 2 ^ (0 + scale)) by (apply pow2_pos; unfold scale; lia).
  apply Z.mul_lt_mono_pos_r; [exact P|lia].
Qed.

End Shapes.

(** ** The branches of [detectLoop] *)

Section Branches.
Variables (s : state) (amplitude pitch : float).

Lemma voiced_inv :
  voiced amplitude pitch = true ->
  (amplitude <? AMPLITUDE_THRESHOLD) = false /\ (pitch >? 0) = true /\ (pitch <? 5000) = true.
Proof.
  unfold voiced. rewrite !andb_true_iff, negb_true_iff. tauto.
Qed.

Lemma detectLoop_gate :
  (amplitude <? AMPLITUDE_THRESHOLD) = true ->
  detectLoop s amplitude pitch
  = (set_smoothedCentsNote (-1) (set_smoothedPitch 0 s), (0, 0)).
Proof. intros H. unfold detectLoop. now rewrite H. Qed.

Lemma detectLoop_invalid :
  (amplitude <? AMPLITUDE_THRESHOLD) = false ->
  (pitch >? 0) && (pitch <? 5000) = false ->
  detectLoop s amplitude pitch
  = (set_jumpCandidate 0 (set_jumpCount 0%Z
       (set_smoothedCentsNote (-1) (set_smoothedPitch 0 s))), (0, 0)).
Proof. intros H1 H2. unfold detectLoop. now rewrite H1, H2. Qed.

Lemma detectLoop_first :
  voiced amplitude pitch = true -> (smoothedPitch s >? 0) = false ->
  detectLoop s amplitude pitch = (set_smoothedPitch pitch s, (pitch, amplitude)).
Proof.
  intros V H. destruct (voiced_inv V) as (H1 & H2 & H3).
  unfold detectLoop. now rewrite H1, H2, H3, H.
Qed.

Lemma detectLoop_blend :
  voiced amplitude pitch = true -> (smoothedPitch s >? 0) = true ->
  isJump (pitch / smoothedPitch s) = false ->
  detectLoop s amplitude pitch
  = (mkState (blend (smoothedPitch s) pitch) (smoothedCentsNote s) (smoothedCents s) 0 0,
     (blend (smoothedPitch s) pitch, amplitude)).
Proof.
  intros V H J. destruct (voiced_inv V) as (H1 & H2 & H3).
  unfold detectLoop. now rewrite H1, H2, H3, H, J.
Qed.

Lemma detectLoop_pending :
  voiced amplitude pitch = true -> (smoothedPitch s >? 0) = true ->
  isJump (pitch / smoothedPitch s) = true ->
  (jumpCount (noteJump s pitch) >=? JUMP_CONFIRM)%Z = false ->
  detectLoop s amplitude pitch = (noteJump s pitch, (smoothedPitch s, amplitude)).
Proof.
  intros V H J C. destruct (voiced_inv V) as (H1 & H2 & H3).
  unfold detectLoop. rewrite H1, H2, H3, H, J. cbn [andb]. cbv zeta. rewrite C.
  f_equal. f_equal. unfold noteJump. now destruct (nearCandidate s pitch).
Qed.

Lemma detectLoop_confirm :
  voiced amplitude pitch = true -> (smoothedPitch s >? 0) = true ->
  isJump (pitch / smoothedPitch s) = true ->
  (jumpCount (noteJump s pitch) >=? JUMP_CONFIRM)%Z = true ->
  detectLoop s amplitude pitch
  = (mkState pitch (smoothedCentsNote s) (smoothedCents s) 0 0, (pitch, amplitude)).
Proof.
  intros V H J C. destruct (voiced_inv V) as (H1 & H2 & H3).
  unfold detectLoop. rewrite H1, H2, H3, H, J. cbn [andb]. cbv zeta. rewrite C.
  unfold noteJump. now destruct (nearCandidate s pitch).
Qed.

End Branches.

(** ** The tracker *)

(** C3 (defect).  On the input where the specification's reset is tested
    through the amplitude gate -- a block of amplitude 0.001 arriving while a
    jump candidate of 1000 Hz has already been counted twice -- [detectLoop]
    zeroes [smoothedPitch], unsets [smoothedCentsNote] and reports [(0, 0)],
    but leaves [jumpCount = 2] and [jumpCandidate = 1000] in place; the other
    reset (lines 129-135) clears them. *)
Theorem amplitude_gate_keeps_jump_state :
  detectLoop (mkState 440 9 12.5 2 1000) 0.001 440
  = (mkState 0 (-1) 12.5 2 1000, (0, 0)).
Proof. vm_compute. reflexivity. Qed.

(** What the stale jump state does next: after the silence, the first voiced
    block re-adopts 440 Hz and one single block at 1000 Hz is then accepted
    as a confirmed jump. *)
Lemma stale_jump_state_confirms_early :
  smoothedPitch
    (run init [(0.1, 440); (0.1, 1000); (0.1, 1000); (0.001, 0); (0.1, 440); (0.1, 1000)])
  = 1000.
Proof. vm_compute. reflexivity. Qed.

(** The reset that the invalid-pitch path performs does clear everything. *)
Lemma invalid_pitch_resets (s : state) (amplitude pitch : float) :
  (amplitude <? AMPLITUDE_THRESHOLD) = false ->
  (pitch >? 0) && (pitch <? 5000) = false ->
  detectLoop s amplitude pitch = (mkState 0 (-1) (smoothedCents s) 0 0, (0, 0)).
Proof. intros H1 H2. now rewrite detectLoop_invalid. Qed.

(** The note-change branch of [smoothCents]. *)
Lemma smoothCents_reset (s : state) (noteIndex : Z) (rawCents : float) :
  noteIndex <> smoothedCentsNote s ->
  smoothCents s noteIndex rawCents
  = (mkState (smoothedPitch s) noteIndex rawCents (jumpCount s) (jumpCandidate s),
     rawCents).
Proof.
  intros H. unfold smoothCents.
  destruct (Z.eqb_spec noteIndex (smoothedCentsNote s)) as [E|_]; [contradiction|].
  reflexivity.
Qed.

(** C6.  A [smoothCents] call whose [noteIndex] differs from the stored
    [smoothedCentsNote] returns [rawCents] itself and stores the new index and
    [rawCents], whatever smoothed value was stored before. *)
Theorem note_change_adopts_raw_cents (s : state) (noteIndex : Z) (rawCents : float) :
  noteIndex <> smoothedCentsNote s ->
  smoothCents s noteIndex rawCents
  = (mkState (smoothedPitch s) noteIndex rawCents (jumpCount s) (jumpCandidate s),
     rawCents).
Proof. exact (smoothCents_reset s noteIndex rawCents). Qed.

Lemma note_change_adopts_raw_cents_witness :
  smoothCents (mkState 440 9 37.5 0 0) 10 (-12.25)
  = (mkState 440 10 (-12.25) 0 0, -12.25).
Proof.
  apply (note_change_adopts_raw_cents (mkState 440 9 37.5 0 0) 10 (-12.25)).
  discriminate.
Defined.

(** After any [smoothCents] call the stored note is the one passed and the
    stored value the one returned. *)
Lemma smoothCents_stores (s : state) (noteIndex : Z) (rawCents : float) :
  smoothedCentsNote (fst (smoothCents s noteIndex rawCents)) = noteIndex
  /\ smoothedCents (fst (smoothCents s noteIndex rawCents))
     = snd (smoothCents s noteIndex rawCents).
Proof.
  unfold smoothCents.
  destruct (Z.eqb_spec noteIndex (smoothedCentsNote s)) as [E|_]; cbn [negb].
  - destruct (abs (rawCents - smoothedCents s) <? CENTS_DEADZONE); cbn; auto.
  - cbn. auto.
Qed.

(** C5, as stated, fails: with note 9 and a stored value of 0, the raw values
    1.25 and 2.5 differ by 1.25 < 1.5, yet the first call returns 0 (inside
    the deadzone around the stored value) and the second blends. *)
Lemma deadzone_between_raw_values_counterexample :
  let s := mkState 440 9 0 0 0 in
  (abs (2.5 - 1.25) <? CENTS_DEADZONE) = true
  /\ snd (smoothCents s 9 1.25) = 0
  /\ (snd (smoothCents (fst (smoothCents s 9 1.25)) 9 2.5)
      =? snd (smoothCents s 9 1.25)) = false.
Proof. vm_compute. repeat split. Qed.

(** C5, amended.  For two consecutive [smoothCents] calls with the same
    [noteIndex], if the second [rawCents] is within the deadzone of the value
    the first call returned (the stored [smoothedCents]), the second call
    returns that same value; in particular this is so when the first call is a
    note change and the two raw values differ by less than 1.5. *)
Theorem deadzone_holds_stored_value (s : state) (noteIndex : Z) (raw1 raw2 : float) :
  let first := smoothCents s noteIndex raw1 in
  ((abs (raw2 - snd first) <? CENTS_DEADZONE) = true ->
   smoothCents (fst first) noteIndex raw2 = (fst first, snd first))
  /\ (noteIndex <> smoothedCentsNote s ->
      (abs (raw2 - raw1) <? CENTS_DEADZONE) = true ->
      snd (smoothCents (fst first) noteIndex raw2) = snd first).
Proof.
  cbv zeta.
  assert (G : (abs (raw2 - snd (smoothCents s noteIndex raw1)) <? CENTS_DEADZONE) = true ->
              smoothCents (fst (smoothCents s noteIndex raw1)) noteIndex raw2
              = (fst (smoothCents s noteIndex raw1), snd (smoothCents s noteIndex raw1))).
  { intros H. destruct (smoothCents_stores s noteIndex raw1) as [En Ec].
    unfold smoothCents at 1. rewrite En, Z.eqb_refl. cbn [negb].
    rewrite Ec, H. reflexivity. }
  split; [exact G|].
  intros Hn Hd. rewrite G.
  - reflexivity.
  - rewrite (smoothCents_reset s noteIndex raw1 Hn). exact Hd.
Qed.

Lemma deadzone_holds_stored_value_witness :
  smoothCents (fst (smoothCents (mkState 440 9 0 0 0) 9 1.25)) 9 0.5
  = (fst (smoothCents (mkState 440 9 0 0 0) 9 1.25), 0)
  /\ snd (smoothCents (fst (smoothCents (mkState 440 9 0 0 0) 10 1.25)) 10 2.5) = 1.25.
Proof.
  split.
  - apply (proj1 (deadzone_holds_stored_value (mkState 440 9 0 0 0) 9 1.25 0.5)).
    vm_compute. reflexivity.
  - apply (proj2 (deadzone_holds_stored_value (mkState 440 9 0 0 0) 10 1.25 2.5)).
    + discriminate.
    + vm_compute. reflexivity.
Defined.

(** C8.  On a voiced block with a prior smoothed pitch and
    0.55 <= pitch / smoothedPitch <= 1.8, the tracker clears the jump state,
    stores [PITCH_SMOOTHING * smoothedPitch + (1 - PITCH_SMOOTHING) * pitch]
    (weights 0.7 and 1 - 0.7) and reports it; on a voiced block with no prior
    smoothed pitch it adopts and reports [pitch] itself. *)
Theorem in_band_block_blends (s : state) (amplitude pitch : float) :
  voiced amplitude pitch = true ->
  ((smoothedPitch s >? 0) = true ->
   (0.55 <=? pitch / smoothedPitch s) = true ->
   (pitch / smoothedPitch s <=? 1.8) = true ->
   detectLoop s amplitude pitch
   = (mkState (PITCH_SMOOTHING * smoothedPitch s + (1 - PITCH_SMOOTHING) * pitch)
              (smoothedCentsNote s) (smoothedCents s) 0 0,
      (PITCH_SMOOTHING * smoothedPitch s + (1 - PITCH_SMOOTHING) * pitch, amplitude)))
  /\ (smoothedPitch s = 0 ->
      detectLoop s amplitude pitch
      = (mkState pitch (smoothedCentsNote s) (smoothedCents s)
                 (jumpCount s) (jumpCandidate s),
         (pitch, amplitude))).
Proof.
  intros V. split.
  - intros Hsp Hlo Hhi. apply detectLoop_blend; try assumption.
    unfold isJump, gtb. apply leb_gtb_false in Hlo, Hhi. now rewrite Hlo, Hhi.
  - intros Hz. rewrite detectLoop_first; try assumption.
    + reflexivity.
    + rewrite Hz. reflexivity.
Qed.

Lemma in_band_block_blends_witness :
  detectLoop (mkState 440 9 0 1 1000) 0.1 450
  = (mkState (0.7 * 440 + (1 - 0.7) * 450) 9 0 0 0, (0.7 * 440 + (1 - 0.7) * 450, 0.1))
  /\ detectLoop init 0.1 450 = (mkState 450 (-1) 0 0 0, (450, 0.1)).
Proof.
  split.
  - apply (proj1 (in_band_block_blends (mkState 440 9 0 1 1000) 0.1 450 eq_refl));
      vm_compute; reflexivity.
  - apply (proj2 (in_band_block_blends init 0.1 450 eq_refl)). reflexivity.
Defined.

(** A block that starts a new jump candidate. *)
Lemma noteJump_new (s : state) (pitch : float) :
  nearCandidate s pitch = false ->
  noteJump s pitch
  = mkState (smoothedPitch s) (smoothedCentsNote s) (smoothedCents s) 1 pitch.
Proof. intros H. unfold noteJump. now rewrite H. Qed.

(** A block that corroborates the running candidate. *)
Lemma noteJump_near (s : state) (pitch : float) :
  nearCandidate s pitch = true ->
  noteJump s pitch
  = mkState (smoothedPitch s) (smoothedCentsNote s) (smoothedCents s)
            (jumpCount s + 1) (jumpCandidate s).
Proof. intros H. unfold noteJump. now rewrite H. Qed.

(** With a positive candidate, [nearCandidate] is the ten-percent test. *)
Lemma nearCandidate_within10 (s : state) (pitch : float) :
  (jumpCandidate s >? 0) = true ->
  nearCandidate s pitch = within10 pitch (jumpCandidate s).
Proof. intros H. unfold nearCandidate, within10, candRatio. now rewrite H. Qed.

(** C1, as stated, fails: from a state that already holds a jump candidate
    (1000 Hz, counted once), the blocks 1050, 1150, 1100 Hz are all voiced,
    all out of band against 440 Hz and all within ten percent of the first
    of them, yet the third block leaves [smoothedPitch] at 440 with
    [jumpCount = 2]: 1050 is counted for the old candidate, 1150 is not within
    ten percent of 1000 and starts a new one. *)
Lemma third_block_counterexample :
  let s := mkState 440 9 0 1 1000 in
  let s1 := feed s (0.1, 1050) in
  let s2 := feed s1 (0.1, 1150) in
  let s3 := feed s2 (0.1, 1100) in
  (smoothedPitch s >? 0) = true
  /\ voiced 0.1 1050 = true /\ voiced 0.1 1150 = true /\ voiced 0.1 1100 = true
  /\ isJump (1050 / smoothedPitch s) = true
  /\ isJump (1150 / smoothedPitch s1) = true
  /\ isJump (1100 / smoothedPitch s2) = true
  /\ within10 1150 1050 = true /\ within10 1100 1050 = true
  /\ s3 = mkState 440 9 0 2 1150.
Proof. vm_compute. repeat split. Qed.

(** C1, amended.  From a state with a prior smoothed pitch in which the first
    block starts a new jump candidate (no running candidate within ten percent
    of its frequency), three consecutive voiced blocks, each out of band
    against the smoothed pitch of the moment and the second and third within
    ten percent of the first, make the third block store its own [pitch] as
    [smoothedPitch] unblended, report it, and clear the jump state. *)
Theorem jump_confirmed_on_third_block
    (s : state) (a1 p1 a2 p2 a3 p3 : float) :
  let s1 := feed s (a1, p1) in
  let s2 := feed s1 (a2, p2) in
  (smoothedPitch s >? 0) = true ->
  nearCandidate s p1 = false ->
  voiced a1 p1 = true -> voiced a2 p2 = true -> voiced a3 p3 = true ->
  isJump (p1 / smoothedPitch s) = true ->
  isJump (p2 / smoothedPitch s1) = true ->
  isJump (p3 / smoothedPitch s2) = true ->
  within10 p2 p1 = true -> within10 p3 p1 = true ->
  detectLoop s2 a3 p3
  = (mkState p3 (smoothedCentsNote s) (smoothedCents s) 0 0, (p3, a3))
  /\ smoothedPitch s1 = smoothedPitch s /\ smoothedPitch s2 = smoothedPitch s.
Proof.
  intros s1 s2 Hsp Hnew V1 V2 V3 J1 J2 J3 W2 W3.
  destruct (voiced_inv _ _ V1) as (_ & Hp1 & _).
  assert (E1 : s1 = mkState (smoothedPitch s) (smoothedCentsNote s) (smoothedCents s) 1 p1).
  { unfold s1, feed. cbn [fst snd].
    rewrite detectLoop_pending; try assumption.
    - cbn [fst]. now apply noteJump_new.
    - now rewrite noteJump_new. }
  assert (N2 : nearCandidate s1 p2 = true).
  { rewrite nearCandidate_within10; rewrite E1; cbn [jumpCandidate]; assumption. }
  assert (E2 : s2 = mkState (smoothedPitch s) (smoothedCentsNote s) (smoothedCents s) 2 p1).
  { unfold s2, feed. cbn [fst snd].
    rewrite detectLoop_pending; try assumption.
    - cbn [fst]. rewrite noteJump_near by assumption. rewrite E1. reflexivity.
    - rewrite E1. exact Hsp.
    - rewrite noteJump_near by assumption. rewrite E1. reflexivity. }
  assert (N3 : nearCandidate s2 p3 = true).
  { rewrite nearCandidate_within10; rewrite E2; cbn [jumpCandidate]; assumption. }
  split; [|split; [now rewrite E1 | now rewrite E2]].
  rewrite detectLoop_confirm; try assumption.
  - rewrite E2. reflexivity.
  - rewrite E2. exact Hsp.
  - rewrite noteJump_near by assumption. rewrite E2. reflexivity.
Qed.

Lemma jump_confirmed_on_third_block_witness :
  detectLoop (feed (feed (mkState 440 9 0 0 0) (0.1, 1000)) (0.1, 1050)) 0.1 1020
  = (mkState 1020 9 0 0 0, (1020, 0.1))
  /\ smoothedPitch (feed (mkState 440 9 0 0 0) (0.1, 1000)) = 440
  /\ smoothedPitch (feed (feed (mkState 440 9 0 0 0) (0.1, 1000)) (0.1, 1050)) = 440.
Proof.
  apply (jump_confirmed_on_third_block (mkState 440 9 0 0 0) 0.1 1000 0.1 1050 0.1 1020);
    vm_compute; reflexivity.
Defined.



(** A value above zero is not zero. *)
Lemma positive_not_zero (x : float) : (x >? 0) = true -> (x =? 0) = false.
Proof.
  unfold gtb. rewrite ltb_spec, eqb_spec. unfold SFltb, SFeqb.
  rewrite (SFcompare_swap (Prim2SF 0) (Prim2SF x)).
  destruct (SFcompare (Prim2SF 0) (Prim2SF x)) as [[ | | ]|]; simpl; congruence.
Qed.

(** Whatever [detectLoop] reports as pitch is what it has stored. *)
Lemma detectLoop_reports_stored (s : state) (amplitude pitch : float) :
  fst (snd (detectLoop s amplitude pitch))
  = smoothedPitch (fst (detectLoop s amplitude pitch)).
Proof.
  unfold detectLoop.
  destruct (amplitude <? AMPLITUDE_THRESHOLD); [reflexivity|].
  destruct ((pitch >? 0) && (pitch <? 5000)); [|reflexivity].
  destruct (smoothedPitch s >? 0); [|reflexivity].
  destruct (isJump (pitch / smoothedPitch s)); [|reflexivity].
  cbv zeta. destruct (jumpCount (noteJump s pitch) >=? JUMP_CONFIRM)%Z; reflexivity.
Qed.

(** A report of pitch 0 comes from one of the two resets. *)
Lemma zero_report_is_reset (s : state) (amplitude pitch : float) :
  (fst (snd (detectLoop s amplitude pitch)) =? 0) = true ->
  (amplitude <? AMPLITUDE_THRESHOLD) = true
  \/ ((amplitude <? AMPLITUDE_THRESHOLD) = false
      /\ (pitch >? 0) && (pitch <? 5000) = false).
Proof.
  intros Hz.
  destruct (amplitude <? AMPLITUDE_THRESHOLD) eqn:Ha; [now left|right].
  split; [reflexivity|].
  destruct ((pitch >? 0) && (pitch <? 5000)) eqn:Hp; [exfalso|reflexivity].
  assert (V : voiced amplitude pitch = true) by (unfold voiced; now rewrite Ha, Hp).
  destruct (voiced_inv _ _ V) as (_ & Hp0 & Hp5).
  destruct (smoothedPitch s >? 0) eqn:Hsp.
  - destruct (isJump (pitch / smoothedPitch s)) eqn:J.
    + destruct (jumpCount (noteJump s pitch) >=? JUMP_CONFIRM)%Z eqn:C.
      * rewrite detectLoop_confirm in Hz by assumption. cbn [fst snd] in Hz.
        rewrite positive_not_zero in Hz by assumption. discriminate.
      * rewrite detectLoop_pending in Hz by assumption. cbn [fst snd] in Hz.
        rewrite positive_not_zero in Hz by assumption. discriminate.
    + rewrite detectLoop_blend in Hz by assumption. cbn [fst snd] in Hz.
      rewrite positive_not_zero in Hz; [discriminate|].
      now apply blend_positive.
  - rewrite detectLoop_first in Hz by assumption. cbn [fst snd] in Hz.
    rewrite positive_not_zero in Hz by assumption. discriminate.
Qed.

(** C9.  Whenever [detectLoop] reports pitch 0, from any state, the stored
    [smoothedCentsNote] is the unset sentinel -1 afterwards; so the next
    [smoothCents] call for a note index adopts its [rawCents] unsmoothed,
    whatever cents were stored before the silence. *)
Theorem no_pitch_report_unsets_cents_note (s : state) (amplitude pitch : float) :
  (fst (snd (detectLoop s amplitude pitch)) =? 0) = true ->
  smoothedCentsNote (fst (detectLoop s amplitude pitch)) = (-1)%Z
  /\ forall (noteIndex : Z) (rawCents : float),
       noteIndex <> (-1)%Z ->
       snd (smoothCents (fst (detectLoop s amplitude pitch)) noteIndex rawCents)
       = rawCents
       /\ smoothedCents
            (fst (smoothCents (fst (detectLoop s amplitude pitch)) noteIndex rawCents))
          = rawCents.
Proof.
  intros Hz.
  assert (En : smoothedCentsNote (fst (detectLoop s amplitude pitch)) = (-1)%Z).
  { destruct (zero_report_is_reset s amplitude pitch Hz) as [Ha|[Ha Hp]].
    - now rewrite detectLoop_gate.
    - now rewrite detectLoop_invalid. }
  split; [exact En|].
  intros noteIndex rawCents Hn.
  rewrite smoothCents_reset by (rewrite En; exact Hn).
  split; reflexivity.
Qed.

Lemma no_pitch_report_unsets_cents_note_witness :
  smoothedCentsNote (fst (detectLoop (mkState 440 9 37.5 0 0) 0.001 440)) = (-1)%Z
  /\ forall (noteIndex : Z) (rawCents : float),
       noteIndex <> (-1)%Z ->
       snd (smoothCents (fst (detectLoop (mkState 440 9 37.5 0 0) 0.001 440))
              noteIndex rawCents) = rawCents
       /\ smoothedCents
            (fst (smoothCents (fst (detectLoop (mkState 440 9 37.5 0 0) 0.001 440))
                    noteIndex rawCents)) = rawCents.
Proof.
  apply (no_pitch_report_unsets_cents_note (mkState 440 9 37.5 0 0) 0.001 440).
  vm_compute. reflexivity.
Defined.

(** One update keeps the stored pitch in range. *)
Lemma detectLoop_inRange (s : state) (amplitude pitch : float) :
  inRange (smoothedPitch s) ->
  inRange (smoothedPitch (fst (detectLoop s amplitude pitch))).
Proof.
  intros I.
  destruct (amplitude <? AMPLITUDE_THRESHOLD) eqn:Ha.
  { rewrite detectLoop_gate by assumption. now left. }
  destruct ((pitch >? 0) && (pitch <? 5000)) eqn:Hp.
  2:{ rewrite detectLoop_invalid by assumption. now left. }
  assert (V : voiced amplitude pitch = true) by (unfold voiced; now rewrite Ha, Hp).
  destruct (voiced_inv _ _ V) as (_ & Hp0 & Hp5).
  destruct (smoothedPitch s >? 0) eqn:Hsp.
  2:{ rewrite detectLoop_first by assumption. right. now split. }
  destruct I as [I0|[_ I5]]; [rewrite I0 in Hsp; discriminate Hsp|].
  destruct (isJump (pitch / smoothedPitch s)) eqn:J.
  - destruct (jumpCount (noteJump s pitch) >=? JUMP_CONFIRM)%Z eqn:C.
    + rewrite detectLoop_confirm by assumption. right. now split.
    + rewrite detectLoop_pending by assumption. cbn [fst]. right.
      unfold noteJump. destruct (nearCandidate s pitch); now split.
  - rewrite detectLoop_blend by assumption. right. split.
    + now apply blend_positive.
    + now apply blend_below.
Qed.

Lemma run_inRange (bs : list block) (s : state) :
  inRange (smoothedPitch s) ->
  inRange (smoothedPitch (run s bs))
  /\ Forall (fun r : report => inRange (fst r)) (reports s bs).
Proof.
  revert s. induction bs as [|b bs IH]; intros s I.
  - split; [exact I|constructor].
  - pose proof (detectLoop_inRange s (fst b) (snd b) I) as I'.
    destruct (IH (feed s b) I') as [IH1 IH2].
    split; [exact IH1|].
    cbn [reports]. constructor; [|exact IH2].
    rewrite detectLoop_reports_stored. exact I'.
Qed.

(** C10.  Over every sequence of updates from the initial state, the stored
    [smoothedPitch] is 0 or strictly between 0 and 5000, and so is every
    pitch handed to the callback. *)
Theorem smoothed_pitch_stays_in_range (bs : list block) :
  inRange (smoothedPitch (run init bs))
  /\ Forall (fun r : report => inRange (fst r)) (reports init bs).
Proof. apply run_inRange. now left. Qed.

(** ** The estimator *)

(** The two assigning branches of the loop body are the rule "replace when
    (a) or (b)". *)
Lemma consider_specStep (best c : candidate) : consider best c = specStep best c.
Proof.
  unfold consider, specStep, replaces.
  destruct (value c <? value best * 0.8); [reflexivity|].
  cbn [orb]. reflexivity.
Qed.

(** The index loop visits the remaining candidates from left to right. *)
Lemma pickLoop_fold (pre rest : list candidate) (best : candidate) :
  pickLoop (pre ++ rest) (length rest) (length pre) best
  = fold_left specStep rest best.
Proof.
  revert pre best. induction rest as [|c rest IH]; intros pre best.
  - reflexivity.
  - cbn [length pickLoop fold_left].
    rewrite nth_error_app2 by apply Nat.le_refl. rewrite Nat.sub_diag. cbn [nth_error].
    replace (pre ++ c :: rest) with ((pre ++ [c]) ++ rest)
      by (rewrite <- app_assoc; reflexivity).
    replace (S (length pre)) with (length (pre ++ [c]))
      by (rewrite length_app; cbn; apply Nat.add_1_r).
    rewrite IH, consider_specStep. reflexivity.
Qed.

Lemma pickBest_fold (c0 : candidate) (cs : list candidate) :
  pickBest (c0 :: cs) = Some (fold_left specStep cs c0).
Proof.
  unfold pickBest. cbn [nth_error].
  replace (length (c0 :: cs) - 1)%nat with (length cs) by (cbn [length]; lia).
  f_equal. exact (pickLoop_fold [c0] cs c0).
Qed.

(** A similar candidate at twice the lag of the current best replaces it. *)
Lemma specStep_double_lag (c1 c2 : candidate) :
  (0 < tau c1)%Z -> tau c2 = (2 * tau c1)%Z -> (tau c2 < 2 ^ 53)%Z ->
  (value c2 <? value c1 * 1.2) = true ->
  specStep c1 c2 = c2.
Proof.
  intros H0 H2 H53 Hv. unfold specStep, replaces, gtb.
  rewrite Hv, H2, double_lag_exceeds by (rewrite <- ?H2; assumption).
  cbn [andb]. now rewrite orb_true_r.
Qed.

(** C4.  On a non-empty candidate list the selection is the left-to-right
    fold, seeded with the first candidate, of the rule "replace [best] by [c]
    when c.value < best.value * 0.8, or c.value < best.value * 1.2 and
    c.tau > best.tau * 1.5".  Consequently, when the current best sits at lag
    tau (frequency 2f) and the last candidate is similarly strong
    (value below 1.2 times the best's) at lag 2 tau (frequency f), the one at
    the longer lag is selected. *)
Theorem best_candidate_selection :
  (forall (c0 : candidate) (cs : list candidate),
      pickBest (c0 :: cs) = Some (fold_left specStep cs c0))
  /\ (forall (c0 : candidate) (cs : list candidate) (c2 : candidate),
        let c1 := fold_left specStep cs c0 in
        (0 < tau c1)%Z -> tau c2 = (2 * tau c1)%Z -> (tau c2 < 2 ^ 53)%Z ->
        (value c2 <? value c1 * 1.2) = true ->
        pickBest (c0 :: cs ++ [c2]) = Some c2).
Proof.
  split; [exact pickBest_fold|].
  intros c0 cs c2 c1 H0 H2 H53 Hv.
  rewrite pickBest_fold, fold_left_app. cbn [fold_left]. fold c1.
  f_equal. now apply specStep_double_lag.
Qed.

Lemma best_candidate_selection_witness :
  pickBest ([mkCandidate 50 0.1] ++ [mkCandidate 100 0.11])
  = Some (mkCandidate 100 0.11).
Proof.
  apply (proj2 best_candidate_selection (mkCandidate 50 0.1) [] (mkCandidate 100 0.11));
    vm_compute; reflexivity.
Defined.

(** C7.  With s0, s1, s2 the values at tau - 1, tau, tau + 1 (the centre
    value standing in at either edge) and denom = 2 * (2 * s1 - s2 - s0), the
    refined lag is tau + (s0 - s2) / denom when denom is not 0 and tau
    otherwise; when the two neighbours are equal (a symmetric dip, finite
    values) the refined lag is tau itself. *)
Theorem parabolic_refinement (yinBuffer : list float) (maxTau tauEstimate : Z) :
  let s0 := if (tauEstimate >? 0)%Z then rd yinBuffer (tauEstimate - 1)
            else rd yinBuffer tauEstimate in
  let s1 := rd yinBuffer tauEstimate in
  let s2 := if (tauEstimate + 1 <? maxTau)%Z then rd yinBuffer (tauEstimate + 1)
            else rd yinBuffer tauEstimate in
  let denom := 2 * (2 * s1 - s2 - s0) in
  ((denom =? 0) = false ->
   betterTau yinBuffer maxTau tauEstimate = Z2f tauEstimate + (s0 - s2) / denom)
  /\ ((denom =? 0) = true -> betterTau yinBuffer maxTau tauEstimate = Z2f tauEstimate)
  /\ (s0 = s2 -> is_finite s0 = true -> is_nan s1 = false ->
      betterTau yinBuffer maxTau tauEstimate = Z2f tauEstimate).
Proof.
  intros s0 s1 s2 denom.
  assert (B : betterTau yinBuffer maxTau tauEstimate
              = if negb (denom =? 0) then Z2f tauEstimate + (s0 - s2) / denom
                else Z2f tauEstimate) by reflexivity.
  assert (B' : betterTau yinBuffer maxTau tauEstimate = interpolate tauEstimate s0 s1 s2)
    by reflexivity.
  clearbody denom s0 s1 s2.
  repeat split.
  - intros H. now rewrite B, H.
  - intros H. now rewrite B, H.
  - intros E F N. rewrite B', <- E. now apply interpolate_symmetric.
Qed.

Lemma parabolic_refinement_witness :
  betterTau [1; 0.5; 0.125; 0.5; 1] 5 2 = 2.
Proof.
  apply (proj2 (proj2 (parabolic_refinement [1; 0.5; 0.125; 0.5; 1] 5 2)));
    reflexivity.
Defined.

Import Scan.

Section Rank.
Open Scope Z_scope.

Lemma scaled_below_infinity (m : positive) (e : Z) :
  bounded prec emax m e = true -> 0 < scaled (Z.pos m) e < 2 ^ 4000.
Proof.
  intros V. pose proof (bounded_inv m e V) as [H1 H2].
  pose proof (digits2_pos_bounds m) as [_ U].
  split; [apply scaled_pos; unfold scale; lia|].
  unfold scaled, scale.
  assert (P : 0 < 2 ^ (e + 2148)) by (apply pow2_pos; lia).
  apply Z.lt_le_trans with (2 ^ Z.pos (digits2_pos m) * 2 ^ (e + 2148)).
  - apply Z.mul_lt_mono_pos_r; assumption.
  - rewrite <- pow2_split by lia. apply pow2_le. lia.
Qed.

Lemma SFcompare_negative (m1 m2 : positive) (e1 e2 : Z) :
  SFcompare (S754_finite true m1 e1) (S754_finite true m2 e2)
  = option_map CompOpp (SFcompare (S754_finite false m1 e1) (S754_finite false m2 e2)).
Proof. cbn [SFcompare option_map]. now destruct (e1 ?= e2). Qed.

(** On values that are not [NaN], the comparison is that of the ranks. *)
Lemma SFcompare_rank (x y : spec_float) :
  valid_binary x = true -> valid_binary y = true ->
  notnan x = true -> notnan y = true ->
  SFcompare x y = Some (rank x ?= rank y).
Proof.
  intros Vx Vy Nx Ny.
  assert (P : 0 < 2 ^ 4000) by (apply pow2_pos; lia).
  destruct x as [sx|sx| |sx mx ex], y as [sy|sy| |sy my ey]; try discriminate;
    cbn [valid_binary] in Vx, Vy;
    try pose proof (scaled_below_infinity mx ex Vx) as Bx;
    try pose proof (scaled_below_infinity my ey Vy) as By;
    try (destruct sx); try (destruct sy);
    try (rewrite SFcompare_scaled by assumption; reflexivity);
    try (rewrite SFcompare_negative, SFcompare_scaled by assumption;
         cbn [option_map rank]; f_equal; rewrite Z.compare_opp;
         apply eq_sym, Z.compare_antisym);
    cbn [SFcompare rank]; f_equal; symmetry;
    first [ apply Z.compare_refl
          | apply Z.compare_lt_iff; lia
          | apply Z.compare_gt_iff; lia ].
Qed.

Lemma ltb_rank (x y : float) :
  (x <? y)%float = true <->
  notnan (Prim2SF x) = true /\ notnan (Prim2SF y) = true
  /\ rank (Prim2SF x) < rank (Prim2SF y).
Proof.
  rewrite ltb_spec. unfold SFltb. split.
  - intros H.
    assert (Nx : notnan (Prim2SF x) = true) by (destruct (Prim2SF x); try reflexivity; discriminate).
    assert (Ny : notnan (Prim2SF y) = true).
    { destruct (Prim2SF x), (Prim2SF y); try reflexivity; discriminate. }
    rewrite SFcompare_rank in H by (assumption || apply Prim2SF_valid).
    repeat split; try assumption.
    destruct (Z.compare_spec (rank (Prim2SF x)) (rank (Prim2SF y))); try discriminate.
    assumption.
  - intros (Nx & Ny & H).
    rewrite SFcompare_rank by (assumption || apply Prim2SF_valid).
    apply Z.compare_lt_iff in H. now rewrite H.
Qed.

(** [<] on numbers is transitive. *)
Lemma ltb_trans (x y z : float) :
  (x <? y)%float = true -> (y <? z)%float = true -> (x <? z)%float = true.
Proof.
  rewrite !ltb_rank. intros (Nx & Ny & H1) (_ & Nz & H2).
  repeat split; try assumption. lia.
Qed.

End Rank.

(** ** Candidate collection *)

Section Collect.
Variables (yinBuffer : list float) (maxTau : Z).
Open Scope Z_scope.

Local Abbreviation dipBottom := (Scan.dipBottom yinBuffer maxTau).

Lemma walk_spec (fuel : nat) (tau : Z) :
  let r := walk yinBuffer maxTau fuel tau in
  tau <= r
  /\ (tau < maxTau -> r < maxTau)
  /\ (r = tau \/ (rd yinBuffer r <? rd yinBuffer tau)%float = true)
  /\ ((Z.to_nat (maxTau - tau) <= fuel)%nat ->
      (r + 1 <? maxTau) && (rd yinBuffer (r + 1) <? rd yinBuffer r)%float = false).
Proof.
  revert tau. induction fuel as [|fuel IH]; intros tau; cbn [walk]; cbv zeta.
  - split; [lia|]. split; [lia|]. split; [now left|].
    intros Hf. assert (maxTau <= tau) by lia.
    destruct (Z.ltb_spec (tau + 1) maxTau); [lia|reflexivity].
  - destruct ((tau + 1 <? maxTau) && (rd yinBuffer (tau + 1) <? rd yinBuffer tau)%float)
      eqn:C.
    + apply andb_true_iff in C. destruct C as [C1 C2]. apply Z.ltb_lt in C1.
      destruct (IH (tau + 1)) as (H1 & H2 & H3 & H4).
      split; [lia|]. split; [lia|]. split.
      * right. destruct H3 as [->|H3]; [exact C2|].
        exact (ltb_trans _ _ _ H3 C2).
      * intros Hf. apply H4. lia.
    + split; [lia|]. split; [lia|]. split; [now left|]. intros _. exact C.
Qed.

Lemma bottom_spec (tau : Z) :
  tau < maxTau - 1 -> (rd yinBuffer tau <? threshold)%float = true ->
  dipBottom tau (mkCandidate (bottom yinBuffer maxTau tau)
                            (rd yinBuffer (bottom yinBuffer maxTau tau))).
Proof.
  intros Ht Hv. unfold bottom, dipBottom. cbn [Yin.tau value].
  destruct (walk_spec (Z.to_nat (maxTau - tau)) tau) as (H1 & H2 & H3 & H4).
  split; [lia|]. split; [reflexivity|]. split.
  - destruct H3 as [->|H3]; [exact Hv|exact (ltb_trans _ _ _ H3 Hv)].
  - apply H4. apply Nat.le_refl.
Qed.

Lemma dipBottom_weaken (from from' : Z) (c : candidate) :
  from' <= from -> dipBottom from c -> dipBottom from' c.
Proof. unfold dipBottom. intros H (H1 & H2). split; [lia|exact H2]. Qed.

Lemma scan_spec (fuel : nat) (from : Z) :
  Forall (dipBottom from) (scan yinBuffer maxTau fuel from)
  /\ StronglySorted (fun a b => tau a < tau b) (scan yinBuffer maxTau fuel from).
Proof.
  revert from. induction fuel as [|fuel IH]; intros from; cbn [scan].
  - split; constructor.
  - destruct (Z.ltb_spec from (maxTau - 1)) as [Ht|Ht]; [|split; constructor].
    destruct (rd yinBuffer from <? threshold)%float eqn:Hv; cbv zeta.
    + pose proof (bottom_spec from Ht Hv) as B.
      destruct (IH (bottom yinBuffer maxTau from + 1)) as [F S].
      split.
      * constructor; [exact B|].
        eapply Forall_impl; [|exact F]. intros c. apply dipBottom_weaken.
        destruct B as [B _]. cbn [tau] in B. lia.
      * constructor; [exact S|].
        eapply Forall_impl; [|exact F]. intros c [Hc _]. cbn [tau]. lia.
    + destruct (IH (from + 1)) as [F S]. split; [|exact S].
      eapply Forall_impl; [|exact F]. intros c. apply dipBottom_weaken. lia.
Qed.

(** Once the fuel covers the distance to [maxTau - 1], more changes nothing:
    the model stops where the source's loop condition stops it. *)
Lemma scan_fuel (fuel1 fuel2 : nat) (from : Z) :
  (Z.to_nat (maxTau - 1 - from) <= fuel1)%nat ->
  (Z.to_nat (maxTau - 1 - from) <= fuel2)%nat ->
  scan yinBuffer maxTau fuel1 from = scan yinBuffer maxTau fuel2 from.
Proof.
  revert fuel2 from. induction fuel1 as [|fuel1 IH]; intros fuel2 from H1 H2.
  - destruct fuel2 as [|fuel2]; [reflexivity|]. cbn [scan].
    destruct (Z.ltb_spec from (maxTau - 1)); [lia|reflexivity].
  - destruct fuel2 as [|fuel2]; cbn [scan].
    + destruct (Z.ltb_spec from (maxTau - 1)); [lia|reflexivity].
    + destruct (Z.ltb_spec from (maxTau - 1)) as [Ht|Ht]; [|reflexivity].
      destruct (rd yinBuffer from <? threshold)%float eqn:Hv; cbv zeta.
      * f_equal.
        pose proof (bottom_spec from Ht Hv) as [B _]. cbn [tau] in B.
        apply IH; lia.
      * apply IH; lia.
Qed.

Lemma scan_nil_iff (fuel : nat) (from : Z) :
  (Z.to_nat (maxTau - 1 - from) <= fuel)%nat ->
  scan yinBuffer maxTau fuel from = []
  <-> forall t, from <= t < maxTau - 1 -> (rd yinBuffer t <? threshold)%float = false.
Proof.
  revert from. induction fuel as [|fuel IH]; intros from Hf; cbn [scan].
  - split; [intros _ t Ht; lia|reflexivity].
  - destruct (Z.ltb_spec from (maxTau - 1)) as [Ht|Ht].
    + destruct (rd yinBuffer from <? threshold)%float eqn:Hv; cbv zeta.
      * split; [discriminate|]. intros H. rewrite (H from) in Hv by lia. discriminate.
      * rewrite IH by lia. split.
        -- intros H t Hr. destruct (Z.eq_dec t from) as [->|]; [exact Hv|apply H; lia].
        -- intros H t Hr. apply H. lia.
    + split; [intros _ t Hr; lia|reflexivity].
Qed.

End Collect.

(** X1.  Every candidate step 3 records lies at a lag in [minTau, maxTau),
    carries the buffer's value at that lag, is below the threshold, and sits
    at the bottom of its dip: the next value, when the walk may read it, is
    not smaller. *)
Theorem collect_records_dip_bottoms (yinBuffer : list float) (minTau maxTau : Z) :
  Forall (Scan.dipBottom yinBuffer maxTau minTau) (collect yinBuffer minTau maxTau).
Proof. apply scan_spec. Qed.

(** X2.  The candidates are pushed in strictly increasing order of lag: no
    dip is entered twice. *)
Theorem collect_lags_increase (yinBuffer : list float) (minTau maxTau : Z) :
  StronglySorted (fun a b => (tau a < tau b)%Z) (collect yinBuffer minTau maxTau).
Proof. apply scan_spec. Qed.

Lemma collect_nil_iff (yinBuffer : list float) (minTau maxTau : Z) :
  collect yinBuffer minTau maxTau = []
  <-> forall t, (minTau <= t < maxTau - 1)%Z -> (rd yinBuffer t <? threshold) = false.
Proof. apply scan_nil_iff. lia. Qed.

Lemma detectPitchTail_no_candidate (yinBuffer : list float) (minTau maxTau : Z)
    (sampleRate : float) :
  collect yinBuffer minTau maxTau = [] ->
  detectPitchTail yinBuffer minTau maxTau sampleRate = -1.
Proof. intros E. unfold detectPitchTail, detectPitchFrom. now rewrite E. Qed.

(** X3.  Step 3 finds no candidate exactly when no value at a lag in
    [minTau, maxTau - 1) is below the threshold (a [NaN] is not); the
    estimator then returns -1. *)
Theorem no_dip_no_pitch (yinBuffer : list float) (minTau maxTau : Z) (sampleRate : float) :
  (collect yinBuffer minTau maxTau = []
   <-> forall t, (minTau <= t < maxTau - 1)%Z -> (rd yinBuffer t <? threshold) = false)
  /\ (collect yinBuffer minTau maxTau = [] ->
      detectPitchTail yinBuffer minTau maxTau sampleRate = -1).
Proof.
  split; [apply collect_nil_iff|apply detectPitchTail_no_candidate].
Qed.

(** X4.  The scan is over after at most [maxTau - minTau] rounds of the outer
    loop: running the model with any larger bound gives the same list. *)
Theorem collect_needs_no_more_fuel (yinBuffer : list float) (minTau maxTau : Z)
    (fuel : nat) :
  (Z.to_nat (maxTau - minTau) <= fuel)%nat ->
  scan yinBuffer maxTau fuel minTau = collect yinBuffer minTau maxTau.
Proof. intros H. apply scan_fuel; lia. Qed.

Lemma collect_needs_no_more_fuel_witness :
  scan [1; 0.5; 0.1; 0.5; 1; 0.05; 0.3; 1] 8 100 1
  = collect [1; 0.5; 0.1; 0.5; 1; 0.05; 0.3; 1] 1 8.
Proof.
  apply (collect_needs_no_more_fuel [1; 0.5; 0.1; 0.5; 1; 0.05; 0.3; 1] 1 8 100).
  simpl. lia.
Defined.

Lemma specStep_choice (best c : candidate) : specStep best c = best \/ specStep best c = c.
Proof. unfold specStep. destruct (replaces best c); auto. Qed.

Lemma fold_specStep_In (cs : list candidate) (c0 : candidate) :
  In (fold_left specStep cs c0) (c0 :: cs).
Proof.
  revert c0. induction cs as [|c cs IH]; intros c0; cbn [fold_left].
  - now left.
  - destruct (IH (specStep c0 c)) as [E|I].
    + destruct (specStep_choice c0 c) as [E'|E']; rewrite <- E, E'; cbn; auto.
    + right. right. exact I.
Qed.

Lemma pickBest_In (candidates : list candidate) (best : candidate) :
  pickBest candidates = Some best -> In best candidates.
Proof.
  destruct candidates as [|c0 cs]; [discriminate|].
  rewrite pickBest_fold. intros E. injection E as <-. apply fold_specStep_In.
Qed.

(** X5.  Step 4 returns one of the candidates it was given, and fails only
    on an empty list. *)
Theorem pickBest_picks_a_candidate (candidates : list candidate) :
  (forall best, pickBest candidates = Some best -> In best candidates)
  /\ (pickBest candidates = None <-> candidates = []).
Proof.
  split; [intros best; apply pickBest_In|].
  destruct candidates as [|c0 cs]; [split; reflexivity|].
  rewrite pickBest_fold. split; discriminate.
Qed.

(** X6.  For the candidate the estimator settles on, with [1 <= minTau] and
    [maxTau] within the buffer, the three reads of step 5 are all inside the
    buffer: tau - 1 and tau always, and tau + 1 whenever it is read. *)
Theorem refinement_reads_in_bounds (yinBuffer : list float) (minTau maxTau : Z)
    (best : candidate) :
  (1 <= minTau)%Z -> (maxTau <= Z.of_nat (length yinBuffer))%Z ->
  pickBest (collect yinBuffer minTau maxTau) = Some best ->
  (0 <= tau best - 1 /\ tau best < Z.of_nat (length yinBuffer))%Z
  /\ sampleS0 yinBuffer (tau best) = nth (Z.to_nat (tau best - 1)) yinBuffer nan
  /\ sampleS1 yinBuffer (tau best) = value best
  /\ ((tau best + 1 < maxTau)%Z ->
      sampleS2 yinBuffer maxTau (tau best) = nth (Z.to_nat (tau best + 1)) yinBuffer nan
      /\ (tau best + 1 < Z.of_nat (length yinBuffer))%Z).
Proof.
  intros Hmin Hmax E.
  apply pickBest_In in E.
  assert (F : Forall (Scan.dipBottom yinBuffer maxTau minTau)
                (collect yinBuffer minTau maxTau)) by apply scan_spec.
  rewrite Forall_forall in F. destruct (F best E) as (Hr & Hv & _).
  split; [lia|]. split; [|split].
  - unfold sampleS0, rd.
    destruct (Z.gtb_spec (tau best) 0); [|lia].
    destruct (Z.ltb_spec (tau best - 1) 0); [lia|reflexivity].
  - unfold sampleS1. now rewrite Hv.
  - intros H. split; [|lia]. unfold sampleS2, rd.
    destruct (Z.ltb_spec (tau best + 1) maxTau); [|lia].
    destruct (Z.ltb_spec (tau best + 1) 0); [lia|reflexivity].
Qed.

Lemma refinement_reads_in_bounds_witness :
  sampleS0 [1; 0.5; 0.1; 0.5; 1; 0.3; 0.3; 1] 2
  = nth (Z.to_nat (2 - 1)) [1; 0.5; 0.1; 0.5; 1; 0.3; 0.3; 1] nan
  /\ sampleS1 [1; 0.5; 0.1; 0.5; 1; 0.3; 0.3; 1] 2 = 0.1.
Proof.
  pose proof (refinement_reads_in_bounds [1; 0.5; 0.1; 0.5; 1; 0.3; 0.3; 1] 1 8
                (mkCandidate 2 0.1)) as H.
  cbn [tau value] in H.
  destruct H as (_ & H0 & H1 & _).
  - lia.
  - simpl. lia.
  - vm_compute. reflexivity.
  - split; [exact H0|exact H1].
Defined.

Import Capture.

(** ** More on the tracker *)

Lemma nearCandidate_needs_candidate (s : state) (pitch : float) :
  jumpCandidate s = 0 -> nearCandidate s pitch = false.
Proof. intros H. unfold nearCandidate, candRatio. rewrite H. reflexivity. Qed.

Lemma detectLoop_jumpStateOk (s : state) (amplitude pitch : float) :
  jumpStateOk s -> jumpStateOk (fst (detectLoop s amplitude pitch)).
Proof.
  intros I.
  destruct (amplitude <? AMPLITUDE_THRESHOLD) eqn:Ha.
  { rewrite detectLoop_gate by assumption. exact I. }
  destruct ((pitch >? 0) && (pitch <? 5000)) eqn:Hp.
  2:{ rewrite detectLoop_invalid by assumption. left. now split. }
  assert (V : voiced amplitude pitch = true) by (unfold voiced; now rewrite Ha, Hp).
  destruct (voiced_inv _ _ V) as (_ & Hp0 & Hp5).
  destruct (smoothedPitch s >? 0) eqn:Hsp.
  2:{ rewrite detectLoop_first by assumption. exact I. }
  destruct (isJump (pitch / smoothedPitch s)) eqn:J.
  2:{ rewrite detectLoop_blend by assumption. left. now split. }
  destruct (jumpCount (noteJump s pitch) >=? JUMP_CONFIRM)%Z eqn:C.
  { rewrite detectLoop_confirm by assumption. left. now split. }
  rewrite detectLoop_pending by assumption. cbn [fst].
  destruct (nearCandidate s pitch) eqn:N.
  - rewrite noteJump_near in * by assumption. cbn [jumpCount jumpCandidate] in *.
    destruct I as [[_ I0]|[Ic Ir]].
    + rewrite nearCandidate_needs_candidate in N by assumption. discriminate.
    + right. cbn [jumpCount jumpCandidate]. split; [|exact Ir].
      rewrite Z.geb_leb in C. apply Z.leb_gt in C. unfold JUMP_CONFIRM in C. lia.
  - rewrite noteJump_new by assumption. right. cbn [jumpCount jumpCandidate].
    split; [now left|now split].
Qed.

(** X7.  Over every sequence of blocks from the initial state the jump state
    is at rest in one of two shapes: count 0 with no candidate, or count 1 or
    2 with a candidate strictly between 0 and 5000 Hz; the count never
    reaches [JUMP_CONFIRM] between blocks. *)
Theorem jump_state_invariant (bs : list block) : jumpStateOk (run init bs).
Proof.
  assert (G : forall s, jumpStateOk s -> jumpStateOk (run s bs)).
  { induction bs as [|b bs IH]; intros s I; [exact I|].
    apply IH. apply detectLoop_jumpStateOk. exact I. }
  apply G. left. now split.
Qed.

(** A number equal to 0 is below the amplitude threshold. *)
Lemma zero_below_threshold (a : float) :
  (a =? 0) = true -> (a <? AMPLITUDE_THRESHOLD) = true.
Proof.
  rewrite eqb_spec, ltb_spec.
  change (Prim2SF 0) with (S754_zero false).
  change (Prim2SF AMPLITUDE_THRESHOLD)
    with (S754_finite false 5764607523034235 (-60)).
  destruct (Prim2SF a) as [s|s| |s m e]; try discriminate.
  - reflexivity.
  - destruct s; discriminate.
  - destruct s; discriminate.
Qed.

(** X8.  "No pitch" is reported as the pair (0, 0) and in no other way: a
    reported pitch of 0, or a reported amplitude of 0, means the whole report
    is (0, 0). *)
Theorem no_pitch_report_is_exact (s : state) (amplitude pitch : float) :
  let r := snd (detectLoop s amplitude pitch) in
  ((fst r =? 0) = true -> r = (0, 0)) /\ ((snd r =? 0) = true -> r = (0, 0)).
Proof.
  cbv zeta. split.
  - intros Hz. destruct (zero_report_is_reset s amplitude pitch Hz) as [Ha|[Ha Hp]].
    + now rewrite detectLoop_gate.
    + now rewrite detectLoop_invalid.
  - intros Hz.
    destruct (amplitude <? AMPLITUDE_THRESHOLD) eqn:Ha.
    { now rewrite detectLoop_gate. }
    destruct ((pitch >? 0) && (pitch <? 5000)) eqn:Hp.
    2:{ now rewrite detectLoop_invalid. }
    exfalso.
    assert (V : voiced amplitude pitch = true) by (unfold voiced; now rewrite Ha, Hp).
    assert (E : snd (snd (detectLoop s amplitude pitch)) = amplitude).
    { destruct (smoothedPitch s >? 0) eqn:Hsp.
      - destruct (isJump (pitch / smoothedPitch s)) eqn:J.
        + destruct (jumpCount (noteJump s pitch) >=? JUMP_CONFIRM)%Z eqn:C.
          * now rewrite detectLoop_confirm.
          * now rewrite detectLoop_pending.
        + now rewrite detectLoop_blend.
      - now rewrite detectLoop_first. }
    rewrite E in Hz. apply zero_below_threshold in Hz. congruence.
Qed.

Lemma no_pitch_report_is_exact_witness :
  snd (detectLoop (mkState 440 9 12.5 0 0) 0.5 (-1)) = (0, 0).
Proof.
  apply (proj1 (no_pitch_report_is_exact (mkState 440 9 12.5 0 0) 0.5 (-1))).
  vm_compute. reflexivity.
Defined.

(** X9.  The Hz tracker and the cents smoother do not interfere:
    [smoothCents] leaves the pitch and jump fields alone, and what
    [detectLoop] reports and does to those fields depends on nothing else. *)
Theorem pitch_tracking_ignores_cents (s s' : state) (amplitude pitch : float)
    (noteIndex : Z) (rawCents : float) :
  pitchView (fst (smoothCents s noteIndex rawCents)) = pitchView s
  /\ (pitchView s = pitchView s' ->
      snd (detectLoop s amplitude pitch) = snd (detectLoop s' amplitude pitch)
      /\ pitchView (fst (detectLoop s amplitude pitch))
         = pitchView (fst (detectLoop s' amplitude pitch))).
Proof.
  split.
  - unfold smoothCents.
    destruct (negb (noteIndex =? smoothedCentsNote s)%Z); [reflexivity|].
    destruct (abs (rawCents - smoothedCents s) <? CENTS_DEADZONE); reflexivity.
  - destruct s as [sp n c k cand], s' as [sp' n' c' k' cand'].
    unfold pitchView. cbn [smoothedPitch jumpCount jumpCandidate].
    intros E. injection E as -> -> ->.
    unfold detectLoop, noteJump, nearCandidate, candRatio.
    cbn [smoothedPitch jumpCount jumpCandidate].
    destruct (amplitude <? AMPLITUDE_THRESHOLD); [split; reflexivity|].
    destruct ((pitch >? 0) && (pitch <? 5000)); [|split; reflexivity].
    destruct (sp' >? 0); [|split; reflexivity].
    destruct (isJump (pitch / sp')); [|split; reflexivity].
    destruct (((if cand' >? 0 then pitch / cand' else 0) >? 0.9)
              && ((if cand' >? 0 then pitch / cand' else 0) <? 1.1));
      cbv zeta; cbn [jumpCount set_jumpCount set_jumpCandidate smoothedPitch
                     smoothedCentsNote smoothedCents jumpCandidate];
      match goal with |- context [(?a >=? ?b)%Z] => destruct (a >=? b)%Z end;
      split; reflexivity.
Qed.

Lemma pitch_tracking_ignores_cents_witness :
  snd (detectLoop (mkState 440 9 12.5 1 1000) 0.1 1020)
  = snd (detectLoop (mkState 440 3 (-40) 1 1000) 0.1 1020).
Proof.
  apply (proj2 (pitch_tracking_ignores_cents (mkState 440 9 12.5 1 1000)
                  (mkState 440 3 (-40) 1 1000) 0.1 1020 0 0)).
  reflexivity.
Defined.

(** ** The amplitude of a block *)

Lemma eqb_zero_view (x : float) :
  (x =? 0) = true -> exists s, Prim2SF x = S754_zero s.
Proof.
  rewrite eqb_spec. change (Prim2SF 0) with (S754_zero false).
  destruct (Prim2SF x) as [s|s| |s m e]; try discriminate.
  - intros _. now exists s.
  - destruct s; discriminate.
  - destruct s; discriminate.
Qed.

Lemma sumSquares_silence (dataBuffer : list float) :
  Forall (fun x => (x =? 0) = true) dataBuffer -> sumSquares dataBuffer = 0.
Proof.
  unfold sumSquares. intros F.
  induction F as [|x l Hx F IH]; [reflexivity|].
  cbn [fold_left].
  assert (E : 0 + x * x = 0).
  { apply Prim2SF_inj. rewrite add_spec, mul_spec.
    destruct (eqb_zero_view x Hx) as [s ->].
    change (Prim2SF 0) with (S754_zero false).
    destruct s; reflexivity. }
  rewrite E. exact IH.
Qed.

Lemma zero_div_length (n : Z) : (0 < n < 2 ^ 53)%Z -> 0 / Z2f n = 0.
Proof.
  intros H. apply Prim2SF_inj. rewrite div_spec.
  destruct (Z2f_view n H) as (m & e & -> & _).
  reflexivity.
Qed.

(** X10.  A block of silence -- every sample 0 or -0, at least one sample --
    has amplitude 0, so [detectLoop] stops at the amplitude gate whatever the
    state: it zeroes [smoothedPitch], unsets [smoothedCentsNote], reports
    (0, 0), and never looks at the estimator's result. *)
Theorem silence_is_gated (s : state) (dataBuffer : list float) (pitch : float) :
  dataBuffer <> [] ->
  (Z.of_nat (length dataBuffer) < 2 ^ 53)%Z ->
  Forall (fun x => (x =? 0) = true) dataBuffer ->
  amplitude dataBuffer = 0
  /\ detectLoopOn s dataBuffer pitch
     = (mkState 0 (-1) (smoothedCents s) (jumpCount s) (jumpCandidate s), (0, 0)).
Proof.
  intros Hne Hlen F.
  assert (A : amplitude dataBuffer = 0).
  { unfold amplitude. rewrite sumSquares_silence by assumption.
    rewrite zero_div_length; [reflexivity|].
    destruct dataBuffer; [contradiction|]. cbn [length] in *. lia. }
  split; [exact A|].
  unfold detectLoopOn. rewrite A. reflexivity.
Qed.

Lemma silence_is_gated_witness :
  amplitude [0; -0; 0; 0] = 0
  /\ detectLoopOn (mkState 440 9 12.5 1 1000) [0; -0; 0; 0] 440
     = (mkState 0 (-1) 12.5 1 1000, (0, 0)).
Proof.
  apply (silence_is_gated (mkState 440 9 12.5 1 1000) [0; -0; 0; 0] 440).
  - discriminate.
  - simpl. lia.
  - repeat constructor.
Defined.

Lemma binary_round_aux_not_negative (m e : Z) (l : location) :
  SFltb (binary_round_aux prec emax false m e l) (S754_zero false) = false.
Proof.
  unfold binary_round_aux.
  destruct (shr_fexp prec emax m e l) as [mrs' e'].
  destruct (shr_fexp prec emax _ e' loc_Exact) as [mrs'' e''].
  destruct (shr_m mrs''); [reflexivity| |reflexivity].
  destruct (e'' <=? emax - prec)%Z; reflexivity.
Qed.

Lemma sqrt_not_negative (x : float) : (sqrt x <? 0) = false.
Proof.
  rewrite ltb_spec, sqrt_spec. change (Prim2SF 0) with (S754_zero false).
  unfold SF64sqrt.
  destruct (Prim2SF x) as [s|s| |s m e]; cbn [SFsqrt]; try reflexivity.
  - destruct s; reflexivity.
  - destruct s; [reflexivity|].
    destruct (SFsqrt_core_binary prec emax (Z.pos m) e) as [[mz ez] lz].
    apply binary_round_aux_not_negative.
Qed.

(** X11.  The amplitude handed to the callback is never negative: it is the
    root mean square of the block, or the 0 of a "no pitch" report. *)
Theorem reported_amplitude_not_negative (s : state) (dataBuffer : list float)
    (pitch : float) :
  (amplitude dataBuffer <? 0) = false
  /\ (snd (snd (detectLoopOn s dataBuffer pitch)) <? 0) = false.
Proof.
  assert (A : (amplitude dataBuffer <? 0) = false) by apply sqrt_not_negative.
  split; [exact A|].
  unfold detectLoopOn, detectLoop.
  destruct (amplitude dataBuffer <? AMPLITUDE_THRESHOLD); [reflexivity|].
  destruct ((pitch >? 0) && (pitch <? 5000)); [|reflexivity].
  destruct (smoothedPitch s >? 0); [|exact A].
  destruct (isJump (pitch / smoothedPitch s)); [|exact A].
  cbv zeta. destruct (jumpCount (noteJump s pitch) >=? JUMP_CONFIRM)%Z; exact A.
Qed.

Import Display.

(** ** The display's use of the tracker *)

Section NoteNumbers.
Open Scope Z_scope.

Lemma noteIndexOf_mod (roundedNote : Z) : noteIndexOf roundedNote = roundedNote mod 12.
Proof.
  unfold noteIndexOf.
  pose proof (Z.rem_bound_abs roundedNote 12 ltac:(lia)) as B.
  pose proof (Z.quot_rem' roundedNote 12) as Q.
  set (r := Z.rem roundedNote 12) in *. set (q := roundedNote ÷ 12) in *.
  rewrite Z.rem_mod_nonneg by lia.
  replace (roundedNote mod 12) with ((r + 12 + (q - 1) * 12) mod 12) by (f_equal; lia).
  rewrite Z.mod_add by lia. reflexivity.
Qed.

Lemma noteIndexOf_range (roundedNote : Z) : 0 <= noteIndexOf roundedNote < 12.
Proof. rewrite noteIndexOf_mod. apply Z.mod_pos_bound. lia. Qed.

(** X12.  The note index [processPitch] derives from any rounded note number
    is the number modulo 12, between 0 and 11, and together with the octave
    it gives the note number back: 12 * (octave + 1) + index. *)
Theorem note_index_and_octave (roundedNote : Z) :
  0 <= noteIndexOf roundedNote < 12
  /\ noteIndexOf roundedNote = roundedNote mod 12
  /\ roundedNote = 12 * (octaveOf roundedNote + 1) + noteIndexOf roundedNote.
Proof.
  rewrite noteIndexOf_mod. unfold octaveOf.
  pose proof (Z.mod_pos_bound roundedNote 12 ltac:(lia)).
  pose proof (Z.div_mod roundedNote 12 ltac:(lia)).
  repeat split; lia.
Qed.

End NoteNumbers.

Lemma smoothCents_pitch (s : state) (noteIndex : Z) (rawCents : float) :
  smoothedPitch (fst (smoothCents s noteIndex rawCents)) = smoothedPitch s.
Proof.
  unfold smoothCents.
  destruct (negb (noteIndex =? smoothedCentsNote s)%Z); [reflexivity|].
  destruct (abs (rawCents - smoothedCents s) <? CENTS_DEADZONE); reflexivity.
Qed.

Lemma detectLoop_note (s : state) (amplitude pitch : float) :
  smoothedCentsNote (fst (detectLoop s amplitude pitch)) = smoothedCentsNote s
  \/ smoothedCentsNote (fst (detectLoop s amplitude pitch)) = (-1)%Z.
Proof.
  unfold detectLoop.
  destruct (amplitude <? AMPLITUDE_THRESHOLD); [now right|].
  destruct ((pitch >? 0) && (pitch <? 5000)); [|now right].
  destruct (smoothedPitch s >? 0); [|now left].
  destruct (isJump (pitch / smoothedPitch s)); [|now left].
  cbv zeta. unfold noteJump.
  destruct (nearCandidate s pitch);
  match goal with |- context [(?a >=? ?b)%Z] => destruct (a >=? b)%Z end; now left.
Qed.

Lemma frame_centsNoteOk (s : state) (f : block * (Z * float)) :
  centsNoteOk s -> centsNoteOk (frame s f).
Proof.
  intros [Hr _]. unfold frame.
  set (a := fst (fst f)). set (p := snd (fst f)).
  pose proof (detectLoop_note s a p) as Hn.
  pose proof (detectLoop_reports_stored s a p) as Hs.
  pose proof (zero_report_is_reset s a p) as Hz.
  destruct (detectLoop s a p) as [s1 [rp ra]] eqn:E. cbn [fst snd] in *.
  assert (I1 : (-1 <= smoothedCentsNote s1 < 12)%Z) by lia.
  unfold processPitch.
  destruct ((rp <=? 0) || (ra <=? 0)) eqn:G.
  - split; [exact I1|]. intros H0.
    assert (Hz' : (rp =? 0) = true) by (rewrite Hs, H0; reflexivity).
    specialize (Hz Hz'). 
    assert (E1 : s1 = fst (detectLoop s a p)) by now rewrite E.
    destruct Hz as [Ha|[Ha Hp]].
    + rewrite E1, detectLoop_gate by assumption. reflexivity.
    + rewrite E1, detectLoop_invalid by assumption. reflexivity.
  - cbv zeta.
    pose proof (noteIndexOf_range (fst (snd f))) as Hi.
    destruct ((noteIndexOf (fst (snd f)) >=? 0)%Z && (noteIndexOf (fst (snd f)) <? 12)%Z)
      eqn:Gd.
    + destruct (smoothCents_stores s1 (noteIndexOf (fst (snd f)))
                  (foldCents (snd (snd f)))) as [En _].
      split; [rewrite En; lia|].
      rewrite smoothCents_pitch. intros H0. exfalso.
      apply orb_false_iff in G. destruct G as [G _].
      rewrite Hs, H0 in G. discriminate.
    + split; [exact I1|]. intros H0. exfalso.
      apply orb_false_iff in G. destruct G as [G _].
      rewrite Hs, H0 in G. discriminate.
Qed.

(** X13.  At every frame boundary of a listening session the stored cents
    note is -1 or a note index 0..11, and it is -1 whenever the tracker holds
    no pitch: the callback only reaches [smoothCents] with a pitch present,
    and never with the sentinel as note index. *)
Theorem session_cents_note_invariant (fs : list (block * (Z * float))) :
  centsNoteOk (session fs).
Proof.
  assert (G : forall s, centsNoteOk s -> centsNoteOk (fold_left frame fs s)).
  { induction fs as [|f fs IH]; intros s I; [exact I|].
    apply IH. now apply frame_centsNoteOk. }
  apply G. split; [cbn; lia|reflexivity].
Qed.

Import Cmndf.

(** ** The estimator on silence *)

Lemma zero_difference_step (x y : float) :
  (x =? 0) = true -> (y =? 0) = true -> 0 + (x - y) * (x - y) = 0.
Proof.
  intros Hx Hy. apply Prim2SF_inj. rewrite add_spec, mul_spec, sub_spec.
  destruct (eqb_zero_view x Hx) as [sx ->]. destruct (eqb_zero_view y Hy) as [sy ->].
  destruct sx, sy; reflexivity.
Qed.

Lemma rd_in_range (l : list float) (i : Z) (P : float -> Prop) :
  Forall P l -> (0 <= i < Z.of_nat (length l))%Z -> P (rd l i).
Proof.
  intros F H. unfold rd. destruct (Z.ltb_spec i 0); [lia|].
  rewrite Forall_forall in F. apply F, nth_In. lia.
Qed.

Lemma halfSize_double (buffer : list float) :
  (2 * halfSize buffer <= length buffer)%nat.
Proof.
  unfold halfSize. pose proof (Nat.div_mod_eq (length buffer) 2). lia.
Qed.

Lemma difference_silence (buffer : list float) (tau : Z) :
  Forall (fun x => (x =? 0) = true) buffer ->
  (0 <= tau <= Z.of_nat (halfSize buffer))%Z ->
  difference buffer (halfSize buffer) tau = 0.
Proof.
  intros F Ht. unfold difference.
  pose proof (halfSize_double buffer) as Hh.
  assert (G : forall n start, (start + n <= halfSize buffer)%nat ->
             fold_left
               (fun sum i =>
                  let delta := rd buffer (Z.of_nat i) - rd buffer (Z.of_nat i + tau) in
                  sum + delta * delta) (seq start n) 0 = 0).
  { induction n as [|n IH]; intros start Hs; [reflexivity|].
    cbn [seq fold_left]. cbv zeta.
    rewrite zero_difference_step.
    - apply IH. lia.
    - apply (rd_in_range buffer _ (fun x => (x =? 0) = true) F). lia.
    - apply (rd_in_range buffer _ (fun x => (x =? 0) = true) F). lia. }
  apply G. lia.
Qed.

Lemma setAt_repeat (x : float) (n i : nat) : setAt (repeat x n) i x = repeat x n.
Proof.
  revert i. induction n as [|n IH]; intros i; [reflexivity|].
  destruct i as [|i]; cbn [repeat setAt]; [reflexivity|]. now rewrite IH.
Qed.

Lemma step1_silence (buffer : list float) (maxTau : Z) :
  Forall (fun x => (x =? 0) = true) buffer ->
  (maxTau <= Z.of_nat (halfSize buffer))%Z ->
  step1 buffer (halfSize buffer) maxTau (repeat 0 (halfSize buffer))
  = repeat 0 (halfSize buffer).
Proof.
  intros F Hm. unfold step1.
  assert (G : forall n start, (Z.of_nat (start + n) <= Z.of_nat (halfSize buffer))%Z ->
             fold_left
               (fun y tau =>
                  store y (Z.of_nat tau) (difference buffer (halfSize buffer) (Z.of_nat tau)))
               (seq start n) (repeat 0 (halfSize buffer)) = repeat 0 (halfSize buffer)).
  { induction n as [|n IH]; intros start Hs; [reflexivity|].
    cbn [seq fold_left].
    rewrite difference_silence by (assumption || lia).
    unfold store. destruct (Z.ltb_spec (Z.of_nat start) 0); [lia|].
    change (fround 0) with 0. rewrite setAt_repeat. apply IH. lia. }
  apply G. lia.
Qed.

(** The buffer of step 2 after the lags 1..k of a silent block. *)
Lemma setAt_middle (l1 l2 : list float) (x v : float) :
  setAt (l1 ++ x :: l2) (length l1) v = l1 ++ v :: l2.
Proof. induction l1 as [|h l1 IH]; cbn; [reflexivity|now rewrite IH]. Qed.

Lemma setAt_after_repeat (a x v : float) (k : nat) (l : list float) :
  setAt (repeat a k ++ x :: l) k v = repeat a k ++ v :: l.
Proof.
  rewrite <- (repeat_length a k) at 2. apply setAt_middle.
Qed.

Lemma zero_times_lag_over_zero (t : Z) :
  (0 < t < 2 ^ 53)%Z -> 0 * (Z2f t / (0 + 0)) = nan.
Proof.
  intros H. apply Prim2SF_inj. rewrite mul_spec, div_spec.
  destruct (Z2f_view t H) as (m & e & -> & _). reflexivity.
Qed.

Lemma step2_silence_rounds (h n k : nat) :
  (k + n < h)%nat -> (Z.of_nat h < 2 ^ 53)%Z ->
  fold_left normalise (seq (S k) n)
    (1 :: repeat nan k ++ repeat 0 (h - 1 - k), 0)
  = (1 :: repeat nan (k + n) ++ repeat 0 (h - 1 - (k + n)), 0).
Proof.
  revert k. induction n as [|n IH]; intros k Hk Hh.
  - rewrite Nat.add_0_r. reflexivity.
  - cbn [seq fold_left].
    assert (Er : rd (1 :: repeat nan k ++ repeat 0 (h - 1 - k)) (Z.of_nat (S k)) = 0).
    { unfold rd. destruct (Z.ltb_spec (Z.of_nat (S k)) 0); [lia|].
      rewrite Nat2Z.id. cbn [nth].
      rewrite app_nth2 by (rewrite repeat_length; lia).
      rewrite repeat_length, Nat.sub_diag.
      destruct (h - 1 - k)%nat eqn:E; [lia|reflexivity]. }
    unfold normalise at 2. rewrite Er.
    rewrite zero_times_lag_over_zero by lia.
    change (0 + 0) with 0.
    unfold store. destruct (Z.ltb_spec (Z.of_nat (S k)) 0); [lia|].
    rewrite Nat2Z.id. change (fround nan) with nan. cbn [setAt].
    destruct (h - 1 - k)%nat as [|r] eqn:E; [lia|]. cbn [repeat].
    rewrite setAt_after_repeat.
    replace (repeat nan k ++ nan :: repeat 0 r) with (repeat nan (S k) ++ repeat 0 r)
      by (cbn [repeat]; rewrite (repeat_cons k nan), <- app_assoc; reflexivity).
    replace r with (h - 1 - S k)%nat by lia.
    rewrite (IH (S k)) by lia.
    replace (S k + n)%nat with (k + S n)%nat by lia. reflexivity.
Qed.

Lemma cmndf_silence (buffer : list float) (maxTau : Z) :
  Forall (fun x => (x =? 0) = true) buffer ->
  (0 < maxTau <= Z.of_nat (halfSize buffer))%Z ->
  (Z.of_nat (halfSize buffer) < 2 ^ 53)%Z ->
  cmndf buffer maxTau
  = 1 :: repeat nan (Z.to_nat maxTau - 1)
      ++ repeat 0 (halfSize buffer - Z.to_nat maxTau).
Proof.
  intros F Hm Hh. unfold cmndf. rewrite step1_silence by (assumption || lia).
  unfold step2. set (h := halfSize buffer) in *.
  assert (E0 : store (repeat 0 h) 0 1 = 1 :: repeat nan 0 ++ repeat 0 (h - 1 - 0)).
  { destruct h as [|h']; [lia|].
    replace (S h' - 1 - 0)%nat with h' by lia.
    unfold store. change (0 <? 0)%Z with false. change (Z.to_nat 0) with O.
    cbn [repeat setAt app]. change (fround 1) with 1. reflexivity. }
  rewrite E0, step2_silence_rounds by lia.
  cbn [fst]. f_equal. f_equal. f_equal. lia.
Qed.

(** X14.  On a silent block (every sample 0 or -0) the estimator finds no
    pitch: the squared differences are all 0, the normalisation turns every
    lag from 1 below [maxTau] into [NaN] (0 times a division by zero), no
    value is below the threshold, and [detectPitch] returns -1. *)
Theorem detectPitch_silence (buffer : list float) (minTau maxTau : Z)
    (sampleRate : float) :
  Forall (fun x => (x =? 0) = true) buffer ->
  (maxTau <= Z.of_nat (halfSize buffer))%Z ->
  (Z.of_nat (halfSize buffer) < 2 ^ 53)%Z ->
  detectPitchWith buffer minTau maxTau sampleRate = -1.
Proof.
  intros F Hm Hh. unfold detectPitchWith.
  apply detectPitchTail_no_candidate, collect_nil_iff.
  intros t Ht.
  destruct (Z_le_gt_dec maxTau 0) as [Hz|Hz].
  { unfold rd. destruct (Z.ltb_spec t 0); [reflexivity|lia]. }
  rewrite cmndf_silence by (assumption || lia).
  unfold rd. destruct (Z.ltb_spec t 0) as [|Ht0]; [reflexivity|].
  destruct (Z.to_nat t) as [|t'] eqn:Et; [reflexivity|]. cbn [nth].
  rewrite app_nth1 by (rewrite repeat_length; lia).
  rewrite nth_repeat_lt by lia. reflexivity.
Qed.

Lemma detectPitch_silence_witness :
  detectPitchWith [0; 0; -0; 0; 0; 0; 0; 0] 1 4 8000 = -1.
Proof.
  apply (detectPitch_silence [0; 0; -0; 0; 0; 0; 0; 0] 1 4 8000).
  - repeat constructor.
  - vm_compute. discriminate.
  - vm_compute. reflexivity.
Defined.

Import Wav.

(** ** The samples of the WAV file *)

Section Samples.
Open Scope Z_scope.

Lemma not_ltb_rank (x y : float) :
  notnan (Prim2SF x) = true -> notnan (Prim2SF y) = true ->
  (x <? y)%float = false -> rank (Prim2SF y) <= rank (Prim2SF x).
Proof.
  intros Nx Ny H.
  destruct (Z_le_gt_dec (rank (Prim2SF y)) (rank (Prim2SF x))) as [|G]; [assumption|].
  assert (T : (x <? y)%float = true) by (apply ltb_rank; repeat split; (assumption || lia)).
  congruence.
Qed.

(** [jsMin] and [jsMax] return [NaN] or one of their arguments, placed as
    the order says. *)
Lemma jsMin_spec (a b : float) :
  jsMin a b = nan \/
  (notnan (Prim2SF (jsMin a b)) = true
   /\ rank (Prim2SF (jsMin a b)) <= rank (Prim2SF a)
   /\ rank (Prim2SF (jsMin a b)) <= rank (Prim2SF b)
   /\ (jsMin a b = a \/ jsMin a b = b)).
Proof.
  unfold jsMin. destruct (is_nan a) eqn:Na; [now left|].
  destruct (is_nan b) eqn:Nb; [now left|]. cbn [orb]. right.
  apply is_nan_view in Na, Nb.
  destruct (a <? b)%float eqn:L1.
  - apply ltb_rank in L1. repeat split; try tauto; try lia; auto.
  - destruct (b <? a)%float eqn:L2.
    + apply ltb_rank in L2. repeat split; try tauto; try lia; auto.
    + pose proof (not_ltb_rank a b Na Nb L1). pose proof (not_ltb_rank b a Nb Na L2).
      destruct (get_sign a); repeat split; try assumption; try lia; auto.
Qed.

Lemma jsMax_spec (a b : float) :
  jsMax a b = nan \/
  (notnan (Prim2SF (jsMax a b)) = true
   /\ rank (Prim2SF a) <= rank (Prim2SF (jsMax a b))
   /\ rank (Prim2SF b) <= rank (Prim2SF (jsMax a b))
   /\ (jsMax a b = a \/ jsMax a b = b)).
Proof.
  unfold jsMax. destruct (is_nan a) eqn:Na; [now left|].
  destruct (is_nan b) eqn:Nb; [now left|]. cbn [orb]. right.
  apply is_nan_view in Na, Nb.
  destruct (a <? b)%float eqn:L1.
  - apply ltb_rank in L1. repeat split; try tauto; try lia; auto.
  - destruct (b <? a)%float eqn:L2.
    + apply ltb_rank in L2. repeat split; try tauto; try lia; auto.
    + pose proof (not_ltb_rank a b Na Nb L1). pose proof (not_ltb_rank b a Nb Na L2).
      destruct (get_sign a); repeat split; try assumption; try lia; auto.
Qed.

(** A clamped sample is [NaN] or lies between -1 and 1. *)
Lemma clamp_range (x : float) :
  clamp x = nan \/
  (notnan (Prim2SF (clamp x)) = true
   /\ - scaled 1 0 <= rank (Prim2SF (clamp x)) <= scaled 1 0).
Proof.
  unfold clamp.
  destruct (jsMax_spec (-1) (jsMin 1 x)) as [E|(N & L1 & L2 & C)]; [now left|].
  destruct (jsMin_spec 1 x) as [E|(N' & L1' & L2' & C')].
  - left. rewrite E. reflexivity.
  - right. split; [exact N|].
    change (rank (Prim2SF 1)) with (scaled 4503599627370496 (-52)) in L1'.
    change (rank (Prim2SF (-1))) with (- scaled 4503599627370496 (-52)) in L1.
    assert (E1 : scaled 4503599627370496 (-52) = scaled 1 0) by (vm_compute; reflexivity).
    rewrite E1 in *. split; [exact L1|].
    destruct C as [C|C]; rewrite C.
    + change (rank (Prim2SF (-1))) with (- scaled 4503599627370496 (-52)).
      rewrite E1. pose proof (scaled_pos 1 0 ltac:(unfold scale; lia)). lia.
    + exact L1'.
Qed.

Lemma binary_round_aux_opp (m e : Z) (l : location) :
  binary_round_aux prec emax true m e l
  = SFopp (binary_round_aux prec emax false m e l).
Proof.
  unfold binary_round_aux.
  destruct (shr_fexp prec emax m e l) as [mrs' e'].
  destruct (shr_fexp prec emax _ e' loc_Exact) as [mrs'' e''].
  destruct (shr_m mrs''); try reflexivity.
  destruct (e'' <=? emax - prec); reflexivity.
Qed.

Lemma integerOf_opp (r : spec_float) : integerOf (SFopp r) = - integerOf r.
Proof.
  destruct r as [s|s| |s m e]; cbn [SFopp integerOf]; try reflexivity.
  destruct s; cbn [negb]; lia.
Qed.

Lemma integerOf_nnf (r : spec_float) (vr n : Z) :
  valid_binary r = true -> nnf r vr -> vr <= scaled n 0 -> 0 <= n ->
  0 <= integerOf r <= n.
Proof.
  intros V H Hle Hn. destruct H as [|m e]; cbn [integerOf]; [lia|].
  cbn [valid_binary] in V. pose proof (bounded_inv m e V) as [He _].
  unfold scaled in Hle. rewrite Z.add_0_l in Hle.
  assert (PK : 0 < 2 ^ scale) by (apply pow2_pos; unfold scale; lia).
  destruct e as [|p|p].
  - rewrite Z.add_0_l in Hle. simpl (2 ^ 0). nia.
  - rewrite pow2_split in Hle by (unfold scale; lia).
    assert (0 < 2 ^ Z.pos p) by (apply pow2_pos; lia). nia.
  - assert (Pp : 0 < 2 ^ Z.pos p) by (apply pow2_pos; lia).
    assert (E : 2 ^ scale = 2 ^ Z.pos p * 2 ^ (Z.neg p + scale)).
    { rewrite <- pow2_split by (unfold scale in *; lia). f_equal. lia. }
    assert (Pq : 0 < 2 ^ (Z.neg p + scale)) by (apply pow2_pos; unfold scale in *; lia).
    pose proof (Z.div_mod (Z.pos m) (2 ^ Z.pos p) ltac:(lia)) as D.
    pose proof (Z.mod_pos_bound (Z.pos m) (2 ^ Z.pos p) Pp) as B.
    assert (Q0 : 0 <= Z.pos m / 2 ^ Z.pos p) by (apply Z.div_pos; lia).
    split; [exact Q0|].
    rewrite E in Hle. nia.
Qed.

Lemma valid_opp (r : spec_float) : valid_binary (SFopp r) = valid_binary r.
Proof. destruct r; reflexivity. Qed.

Lemma SFmul_opp (m m' : positive) (e e' : Z) :
  SF64mul (S754_finite true m e) (S754_finite false m' e')
  = SFopp (SF64mul (S754_finite false m e) (S754_finite false m' e')).
Proof. unfold SF64mul. cbn [SFmul xorb]. apply binary_round_aux_opp. Qed.

Lemma sample_magnitude (m : positive) (e : Z) :
  bounded prec emax m e = true ->
  valid_binary (SF64mul (S754_finite false m e)
                  (S754_finite false 9006924376834048 (-38))) = true ->
  scaled (Z.pos m) e <= scaled 1 0 ->
  0 <= integerOf (SF64mul (S754_finite false m e)
                    (S754_finite false 9006924376834048 (-38))) <= 32767.
Proof.
  intros Vm Vr Hm.
  assert (E1 : scaled 1 0 = 2 ^ scale) by (unfold scaled; now rewrite Z.mul_1_l).
  destruct (mul_upper (S754_finite false m e) (S754_finite false 9006924376834048 (-38))
              (S754_finite false 9006924376834048 (-38))
              (scaled (Z.pos m) e) (scaled 9006924376834048 (-38))
              (scaled 9006924376834048 (-38)) Vm eq_refl eq_refl
              (nnf_finite _ _) (nnf_finite _ _) (nnf_finite _ _))
    as (vr & Hr & Hvr).
  - rewrite <- E1, (Z.mul_comm (scaled _ _) (scaled 1 0)).
    apply Z.mul_le_mono_nonneg_r; [|exact Hm].
    apply Z.lt_le_incl, scaled_pos. unfold scale. lia.
  - apply (integerOf_nnf _ vr 32767); try lia; [exact Vr|exact Hr|].
    apply Z.le_trans with (scaled 9006924376834048 (-38)); [exact Hvr|closed_le].
Qed.

(** No sample leaves the symmetric sixteen-bit range; -32768 is never
    produced, and a block that is not a number is written as 0. *)
Lemma sample_range (x : float) :
  -32767 <= toInteger (clamp x * 0x7FFF) <= 32767.
Proof.
  destruct (clamp_range x) as [E|(N & L & U)].
  { rewrite E. vm_compute. split; discriminate. }
  unfold toInteger.
  pose proof (Prim2SF_valid (clamp x * 0x7FFF)) as Vr. revert Vr.
  rewrite mul_spec.
  pose proof (Prim2SF_valid (clamp x)) as V.
  change (Prim2SF 0x7FFF) with (S754_finite false 9006924376834048 (-38)).
  assert (P4 : scaled 1 0 < 2 ^ 4000) by (vm_compute; reflexivity).
  destruct (Prim2SF (clamp x)) as [s|s| |s m e].
  - intros _. destruct s; vm_compute; split; discriminate.
  - exfalso. destruct s; cbn [rank] in L, U; lia.
  - discriminate N.
  - cbn [valid_binary] in V. destruct s; cbn [rank] in L, U.
    + rewrite SFmul_opp, valid_opp, integerOf_opp. intros Vr.
      pose proof (sample_magnitude m e V Vr ltac:(lia)). lia.
    + intros Vr. pose proof (sample_magnitude m e V Vr ltac:(lia)). lia.
Qed.

End Samples.

(** ** The layout of the WAV file *)

Section Layout.
Open Scope Z_scope.

Lemma setByte_app_r (h r : list Z) (k : nat) (b : Z) :
  setByte (h ++ r) (List.length h + k) b = h ++ setByte r k b.
Proof. induction h as [|a h IH]; cbn [List.length Nat.add app setByte]; [reflexivity|now rewrite IH]. Qed.

Lemma setInt16_app_r (h r : list Z) (v : Z) :
  setInt16 (h ++ 0 :: 0 :: r) (List.length h) v
  = (h ++ [v mod 256; v / 256 mod 256]) ++ r.
Proof.
  unfold setInt16, setUint16, setUint8.
  rewrite <- (Nat.add_0_r (List.length h)) at 1.
  rewrite setByte_app_r. cbn [setByte].
  rewrite setByte_app_r. cbn [setByte].
  now rewrite <- app_assoc.
Qed.

(** The sample loop fills the zeroed space behind what is already written
    with two bytes per sample, in order. *)
Lemma writeSamples_app (buffer : list float) :
  forall (h : list Z) (i : nat),
    List.length h = (headerSize + i * 2)%nat ->
    writeSamples (h ++ repeat 0 (2 * List.length buffer)) i buffer
    = h ++ flat_map (fun x => let v := toInteger (clamp x * 0x7FFF) in
                              [v mod 256; v / 256 mod 256]) buffer.
Proof.
  induction buffer as [|x rest IH]; intros h i Hh.
  - reflexivity.
  - cbn [writeSamples flat_map List.length].
    replace (2 * S (List.length rest))%nat with (S (S (2 * List.length rest))) by lia.
    cbn [repeat]. rewrite <- Hh, setInt16_app_r, IH.
    + now rewrite <- app_assoc.
    + rewrite length_app, Hh. cbn [List.length]. lia.
Qed.

Lemma header_bytes (sampleRate dataSize : Z) (r : list Z) :
  writeHeader sampleRate dataSize (repeat 0 headerSize ++ r)
  = [82; 73; 70; 70;
     (36 + dataSize) mod 256; (36 + dataSize) / 256 mod 256;
     (36 + dataSize) / 65536 mod 256; (36 + dataSize) / 16777216 mod 256;
     87; 65; 86; 69;
     102; 109; 116; 32;
     16; 0; 0; 0;
     1; 0;
     1; 0;
     sampleRate mod 256; sampleRate / 256 mod 256;
     sampleRate / 65536 mod 256; sampleRate / 16777216 mod 256;
     (sampleRate * 16 / 8) mod 256; (sampleRate * 16 / 8) / 256 mod 256;
     (sampleRate * 16 / 8) / 65536 mod 256; (sampleRate * 16 / 8) / 16777216 mod 256;
     2; 0;
     16; 0;
     100; 97; 116; 97;
     dataSize mod 256; dataSize / 256 mod 256;
     dataSize / 65536 mod 256; dataSize / 16777216 mod 256] ++ r.
Proof.
  cbv [writeHeader writeStr setUint32 setUint16 setUint8 setByte Nat.add app
       headerSize repeat bitsPerSample].
  reflexivity.
Qed.

(** The file is the header followed by the samples. *)
Lemma encode_layout (sampleRate : Z) (buffer : list float) :
  encode sampleRate buffer
  = writeHeader sampleRate (2 * Z.of_nat (List.length buffer)) (repeat 0 headerSize)
    ++ flat_map (fun x => let v := toInteger (clamp x * 0x7FFF) in
                          [v mod 256; v / 256 mod 256]) buffer.
Proof.
  unfold encode. cbv zeta.
  change (bitsPerSample / 8) with 2.
  replace (Z.of_nat (List.length buffer) * 2) with (2 * Z.of_nat (List.length buffer)) by lia.
  replace (Z.to_nat (2 * Z.of_nat (List.length buffer))) with (2 * List.length buffer)%nat by lia.
  rewrite repeat_app, header_bytes.
  rewrite <- (app_nil_r (repeat 0 headerSize)) at 1. rewrite header_bytes, app_nil_r.
  apply writeSamples_app. reflexivity.
Qed.

Lemma uint32_bytes (v : Z) :
  0 <= v < 4294967296 ->
  v mod 256 + 256 * (v / 256 mod 256)
  + 65536 * (v / 65536 mod 256 + 256 * (v / 16777216 mod 256)) = v.
Proof.
  intros H.
  replace (v / 65536) with (v / 256 / 256) by (rewrite Z.div_div by lia; reflexivity).
  replace (v / 16777216) with (v / 256 / 256 / 256)
    by (rewrite !Z.div_div by lia; reflexivity).
  pose proof (Z.div_mod v 256 ltac:(lia)).
  pose proof (Z.div_mod (v / 256) 256 ltac:(lia)).
  pose proof (Z.div_mod (v / 256 / 256) 256 ltac:(lia)).
  assert (0 <= v / 256 / 256 / 256 < 256).
  { split; [repeat apply Z.div_pos; lia|].
    repeat (apply Z.div_lt_upper_bound; [lia|]). lia. }
  rewrite (Z.mod_small (v / 256 / 256 / 256)) by assumption. lia.
Qed.

Lemma int16_bytes (v : Z) :
  -32768 <= v < 32768 ->
  (let u := v mod 256 + 256 * (v / 256 mod 256) in
   if u <? 32768 then u else u - 65536) = v.
Proof.
  intros H. cbv zeta.
  pose proof (Z.div_mod v 256 ltac:(lia)) as D.
  pose proof (Z.mod_pos_bound v 256 ltac:(lia)) as B.
  assert (Q : -128 <= v / 256 < 128) by lia.
  destruct (Z_lt_ge_dec (v / 256) 0) as [N|N].
  - replace (v / 256 mod 256) with (v / 256 + 256).
    + destruct (Z.ltb_spec (v mod 256 + 256 * (v / 256 + 256)) 32768); lia.
    + apply Z.mod_unique with (-1); lia.
  - rewrite (Z.mod_small (v / 256)) by lia.
    destruct (Z.ltb_spec (v mod 256 + 256 * (v / 256)) 32768); lia.
Qed.

Lemma nth_sample_bytes (f g : float -> Z) (buffer : list float) :
  forall i : nat,
    (i < List.length buffer)%nat ->
    nth (i * 2) (flat_map (fun x => [f x; g x]) buffer) 0 = f (nth i buffer 0%float)
    /\ nth (i * 2 + 1) (flat_map (fun x => [f x; g x]) buffer) 0
       = g (nth i buffer 0%float).
Proof.
  induction buffer as [|x rest IH]; intros i Hi; [cbn in Hi; lia|].
  destruct i as [|i]; [split; reflexivity|].
  cbn [List.length] in Hi. cbn [flat_map app Nat.mul Nat.add nth].
  apply IH. lia.
Qed.

Lemma writeHeader_length (sampleRate dataSize : Z) :
  List.length (writeHeader sampleRate dataSize (repeat 0 headerSize)) = headerSize.
Proof.
  rewrite <- (app_nil_r (repeat 0 headerSize)), header_bytes. reflexivity.
Qed.

(** X15.  A decoder finds in the first 44 bytes the tags, the sizes and the
    format the encoder was given, and the file has two bytes per sample
    behind them. *)
Theorem wav_header_reads_back (sampleRate : Z) (buffer : list float) :
  0 <= sampleRate -> 2 * sampleRate < 4294967296 ->
  36 + 2 * Z.of_nat (List.length buffer) < 4294967296 ->
  let bytes := encode sampleRate buffer in
  List.length bytes = (44 + 2 * List.length buffer)%nat
  /\ readStr bytes 0 4 = [82; 73; 70; 70]
  /\ getUint32 bytes 4 = 36 + 2 * Z.of_nat (List.length buffer)
  /\ readStr bytes 8 8 = [87; 65; 86; 69; 102; 109; 116; 32]
  /\ getUint32 bytes 16 = 16
  /\ getUint16 bytes 20 = 1
  /\ getUint16 bytes 22 = 1
  /\ getUint32 bytes 24 = sampleRate
  /\ getUint32 bytes 28 = 2 * sampleRate
  /\ getUint16 bytes 32 = 2
  /\ getUint16 bytes 34 = 16
  /\ readStr bytes 36 4 = [100; 97; 116; 97]
  /\ getUint32 bytes 40 = 2 * Z.of_nat (List.length buffer).
Proof.
  intros H0 H1 H2 bytes. subst bytes.
  split.
  { rewrite encode_layout, length_app, writeHeader_length.
    rewrite (flat_map_constant_length (c := 2%nat)) by reflexivity.
    unfold headerSize. lia. }
  rewrite encode_layout.
  rewrite <- (app_nil_r (repeat 0 headerSize)), header_bytes, app_nil_r.
  set (body := flat_map _ buffer).
  cbv [readStr getUint32 getUint16 getUint8 nth Nat.add app].
  replace (sampleRate * 16 / 8) with (2 * sampleRate)
    by (replace (sampleRate * 16) with (2 * sampleRate * 8) by lia;
        now rewrite Z.div_mul by lia).
  repeat split; try reflexivity; apply uint32_bytes; lia.
Qed.

Lemma wav_header_reads_back_witness :
  let bytes := encode 44100 [0.5%float; (-1)%float] in
  List.length bytes = 48%nat
  /\ readStr bytes 0 4 = [82; 73; 70; 70]
  /\ getUint32 bytes 4 = 40
  /\ readStr bytes 8 8 = [87; 65; 86; 69; 102; 109; 116; 32]
  /\ getUint32 bytes 16 = 16
  /\ getUint16 bytes 20 = 1
  /\ getUint16 bytes 22 = 1
  /\ getUint32 bytes 24 = 44100
  /\ getUint32 bytes 28 = 88200
  /\ getUint16 bytes 32 = 2
  /\ getUint16 bytes 34 = 16
  /\ readStr bytes 36 4 = [100; 97; 116; 97]
  /\ getUint32 bytes 40 = 4.
Proof.
  apply (wav_header_reads_back 44100 [0.5%float; (-1)%float]); simpl; lia.
Defined.

(** X16.  Every sample is stored where a decoder looks for it: the signed
    sixteen-bit number at byte 44 + 2i is the i-th sample, clamped to
    [-1, 1], scaled by 32767 and truncated; it never leaves
    [-32767, 32767], so nothing wraps around. *)
Theorem wav_sample_reads_back (sampleRate : Z) (buffer : list float) (i : nat) :
  (i < List.length buffer)%nat ->
  getInt16 (encode sampleRate buffer) (headerSize + i * 2)
  = toInteger (clamp (nth i buffer 0%float) * 0x7FFF)
  /\ -32767 <= getInt16 (encode sampleRate buffer) (headerSize + i * 2) <= 32767.
Proof.
  intros Hi.
  assert (E : getInt16 (encode sampleRate buffer) (headerSize + i * 2)
              = toInteger (clamp (nth i buffer 0%float) * 0x7FFF)).
  { rewrite encode_layout.
    set (body := flat_map _ buffer).
    assert (G : forall k : nat,
               getUint8 (writeHeader sampleRate (2 * Z.of_nat (List.length buffer))
                           (repeat 0 headerSize) ++ body) (headerSize + k)
               = nth k body 0).
    { intros k. unfold getUint8.
      rewrite <- (writeHeader_length sampleRate (2 * Z.of_nat (List.length buffer))) at 1.
      apply app_nth2_plus. }
    unfold getInt16, getUint16. rewrite <- Nat.add_assoc, !G. subst body.
    destruct (nth_sample_bytes
                (fun x => toInteger (clamp x * 0x7FFF) mod 256)
                (fun x => toInteger (clamp x * 0x7FFF) / 256 mod 256)
                buffer i Hi) as [E1 E2].
    cbv zeta. rewrite E1, E2.
    apply int16_bytes.
    pose proof (sample_range (nth i buffer 0%float)). lia. }
  split; [exact E|]. rewrite E. apply sample_range.
Qed.

Lemma wav_sample_reads_back_witness :
  getInt16 (encode 44100 [0.5%float; (-2)%float]) (headerSize + 1 * 2)
  = toInteger (clamp (nth 1 [0.5%float; (-2)%float] 0%float) * 0x7FFF)
  /\ -32767 <= getInt16 (encode 44100 [0.5%float; (-2)%float]) (headerSize + 1 * 2) <= 32767.
Proof.
  apply (wav_sample_reads_back 44100 [0.5%float; (-2)%float] 1). simpl. lia.
Defined.

End Layout.

Import Display.

(** ** The cents smoother stays inside the segment *)

Section Magnitude.
Open Scope Z_scope.

Lemma leb_rank (x y : float) :
  (x <=? y)%float = true <->
  notnan (Prim2SF x) = true /\ notnan (Prim2SF y) = true
  /\ rank (Prim2SF x) <= rank (Prim2SF y).
Proof.
  rewrite leb_spec. unfold SFleb. split.
  - intros H.
    assert (Nx : notnan (Prim2SF x) = true) by (destruct (Prim2SF x); try reflexivity; discriminate).
    assert (Ny : notnan (Prim2SF y) = true).
    { destruct (Prim2SF x), (Prim2SF y); try reflexivity; discriminate. }
    rewrite SFcompare_rank in H by (assumption || apply Prim2SF_valid).
    repeat split; try assumption.
    destruct (Z.compare_spec (rank (Prim2SF x)) (rank (Prim2SF y))); try discriminate; lia.
  - intros (Nx & Ny & H).
    rewrite SFcompare_rank by (assumption || apply Prim2SF_valid).
    destruct (Z.compare_spec (rank (Prim2SF x)) (rank (Prim2SF y))); try reflexivity; lia.
Qed.

Lemma scaled_nonneg (m : positive) (e : Z) : 0 <= scaled (Z.pos m) e.
Proof. unfold scaled. apply Z.mul_nonneg_nonneg; [lia|]. apply Z.pow_nonneg. lia. Qed.

Lemma rank_finite (s : bool) (m : positive) (e : Z) :
  Z.abs (rank (S754_finite s m e)) = scaled (Z.pos m) e.
Proof. pose proof (scaled_nonneg m e). destruct s; cbn [rank]; lia. Qed.

Lemma centsInRange_view (x : float) :
  centsInRange x = true <->
  fin (Prim2SF x) = true
  /\ Z.abs (rank (Prim2SF x)) <= scaled 7036874417766400 (-47).
Proof.
  unfold centsInRange. rewrite andb_true_iff, !leb_rank.
  change (Prim2SF 50) with (S754_finite false 7036874417766400 (-47)).
  change (Prim2SF (-50)) with (S754_finite true 7036874417766400 (-47)).
  cbn [rank notnan].
  assert (P : scaled 7036874417766400 (-47) < 2 ^ 4000) by closed_lt.
  assert (P0 : 0 < scaled 7036874417766400 (-47)) by closed_lt.
  set (v50 := scaled 7036874417766400 (-47)) in *. clearbody v50.
  set (big := 2 ^ 4000) in *.
  split.
  - intros [(_ & N & L) (_ & _ & U)].
    split; [|lia].
    destruct (Prim2SF x) as [s|s| |s m e]; try reflexivity; try discriminate.
    exfalso. destruct s; cbn [rank] in L, U; fold big in L, U; lia.
  - intros [F H].
    assert (N : notnan (Prim2SF x) = true) by (destruct (Prim2SF x); try reflexivity; discriminate).
    repeat split; try assumption; lia.
Qed.

Lemma SFmul_sign (sx sy : bool) (mx my : positive) (ex ey : Z) :
  SF64mul (S754_finite sx mx ex) (S754_finite sy my ey)
  = (if xorb sx sy then SFopp else fun r => r)
      (SF64mul (S754_finite false mx ex) (S754_finite false my ey)).
Proof.
  unfold SF64mul. cbn [SFmul].
  destruct sx, sy; cbn [xorb]; try reflexivity; apply binary_round_aux_opp.
Qed.

Lemma rank_opp (r : spec_float) : rank (SFopp r) = - rank r.
Proof. destruct r as [[]|[]| |[] m e]; cbn [SFopp rank negb]; lia. Qed.

Lemma fin_opp (r : spec_float) : fin (SFopp r) = fin r.
Proof. destruct r; reflexivity. Qed.

Lemma nnf_rank (r : spec_float) (v : Z) : nnf r v -> fin r = true /\ rank r = v.
Proof. intros H; destruct H; split; reflexivity. Qed.

(** The magnitude of a product stays below a representable bound on the
    exact product, whatever the signs. *)
Lemma mul_magnitude (x y : spec_float) (mb : positive) (eb : Z) :
  valid_binary x = true -> valid_binary y = true ->
  fin x = true -> fin y = true -> bounded prec emax mb eb = true ->
  Z.abs (rank x) * Z.abs (rank y) <= scaled (Z.pos mb) eb * 2 ^ scale ->
  fin (SF64mul x y) = true
  /\ Z.abs (rank (SF64mul x y)) <= scaled (Z.pos mb) eb.
Proof.
  intros Vx Vy Fx Fy Vb H.
  pose proof (scaled_below_infinity mb eb Vb) as [Pb _].
  destruct x as [sx|sx| |sx mx ex]; try discriminate;
    destruct y as [sy|sy| |sy my ey]; try discriminate;
    try (unfold SF64mul; cbn [SFmul fin rank]; split; [reflexivity|lia]).
  cbn [valid_binary] in Vx, Vy.
  rewrite !rank_finite in H.
  destruct (mul_upper (S754_finite false mx ex) (S754_finite false my ey)
              (S754_finite false mb eb) _ _ _ Vx Vy Vb
              (nnf_finite _ _) (nnf_finite _ _) (nnf_finite _ _) H)
    as (vr & Hr & Hvr).
  assert (H0 : 0 <= vr) by (destruct Hr; [lia|apply scaled_nonneg]).
  destruct (nnf_rank _ _ Hr) as [Fr Er].
  rewrite SFmul_sign.
  destruct (xorb sx sy); [rewrite fin_opp, rank_opp|]; (split; [exact Fr|lia]).
Qed.

(** The same for what a sum is normalised from. *)
Lemma normalize_magnitude (z ez : Z) (mb : positive) (eb : Z) :
  -scale <= ez -> bounded prec emax mb eb = true ->
  Z.abs z * 2 ^ (ez + scale) <= scaled (Z.pos mb) eb ->
  fin (binary_normalize prec emax z ez false) = true
  /\ Z.abs (rank (binary_normalize prec emax z ez false)) <= scaled (Z.pos mb) eb.
Proof.
  intros Hez Vb H.
  pose proof (scaled_nonneg mb eb) as Pb.
  assert (G : forall (s : bool) (p : positive),
             scaled (Z.pos p) ez <= scaled (Z.pos mb) eb ->
             fin (binary_round prec emax s p ez) = true
             /\ Z.abs (rank (binary_round prec emax s p ez)) <= scaled (Z.pos mb) eb).
  { intros s p Hp.
    destruct (binary_round_pre s p ez Hez) as (mz & e0 & -> & Hs & Hval & Hpre).
    destruct (binary_round_aux_nearest s mz e0 Hpre) as (v & Hv & Hr).
    destruct (round_upper s mz e0 v _ Hs Hpre Hv Hr mb eb Vb ltac:(lia))
      as [->|(m3 & e3 & -> & H3)].
    - cbn [fin rank]. split; [reflexivity|lia].
    - rewrite rank_finite. split; [reflexivity|exact H3]. }
  destruct z as [|p|p]; cbn [binary_normalize].
  - cbn [fin rank]. split; [reflexivity|lia].
  - apply G. exact H.
  - apply G. exact H.
Qed.

Lemma add_magnitude (x y : spec_float) (mb : positive) (eb : Z) :
  valid_binary x = true -> valid_binary y = true ->
  fin x = true -> fin y = true -> bounded prec emax mb eb = true ->
  Z.abs (rank x) + Z.abs (rank y) <= scaled (Z.pos mb) eb ->
  fin (SF64add x y) = true
  /\ Z.abs (rank (SF64add x y)) <= scaled (Z.pos mb) eb.
Proof.
  intros Vx Vy Fx Fy Vb H.
  pose proof (scaled_nonneg mb eb) as Pb.
  destruct x as [sx|sx| |sx mx ex]; try discriminate;
    destruct y as [sy|sy| |sy my ey]; try discriminate;
    unfold SF64add; cbn [SFadd].
  - destruct sx, sy; cbn [fin rank]; (split; [reflexivity|lia]).
  - cbn [rank] in H. rewrite Z.abs_0, Z.add_0_l in H. split; [reflexivity|exact H].
  - cbn [rank] in H. rewrite Z.abs_0, Z.add_0_r in H. split; [reflexivity|exact H].
  - cbn [valid_binary] in Vx, Vy. rewrite !rank_finite in H.
    pose proof (bounded_inv mx ex Vx) as [Hx1 _]. pose proof (bounded_inv my ey Vy) as [Hy1 _].
    set (ez := Z.min ex ey).
    destruct (shl_align_spec mx ex ez) as (ax & Eax & Hax).
    destruct (shl_align_spec my ey ez) as (ay & Eay & Hay).
    rewrite Eax, Eay. cbn [fst].
    replace (Z.min ex ez) with ez in Hax by (unfold ez; lia).
    replace (Z.min ey ez) with ez in Hay by (unfold ez; lia).
    assert (Hez : -scale <= ez) by (unfold ez, scale; lia).
    assert (Ex : scaled (Z.pos mx) ex = Z.pos ax * 2 ^ (ez + scale)).
    { rewrite Hax. rewrite <- (scaled_shift (Z.pos mx) ez ex) by (unfold ez in *; lia).
      reflexivity. }
    assert (Ey : scaled (Z.pos my) ey = Z.pos ay * 2 ^ (ez + scale)).
    { rewrite Hay. rewrite <- (scaled_shift (Z.pos my) ez ey) by (unfold ez in *; lia).
      reflexivity. }
    apply normalize_magnitude; [exact Hez|exact Vb|].
    rewrite Ex, Ey in H.
    assert (P : 0 < 2 ^ (ez + scale)) by (apply pow2_pos; lia).
    apply Z.le_trans with (2 := H). rewrite <- Z.mul_add_distr_r.
    apply Z.mul_le_mono_nonneg_r; [lia|].
    destruct sx, sy; cbn [cond_Zopp]; lia.
Qed.

End Magnitude.

Section Segment.
Open Scope Z_scope.

Lemma smoothed_term_range (old : float) :
  centsInRange old = true ->
  fin (Prim2SF (CENTS_SMOOTHING * old)) = true
  /\ Z.abs (rank (Prim2SF (CENTS_SMOOTHING * old))) <= scaled 6192449487634432 (-47).
Proof.
  rewrite centsInRange_view. intros [F H].
  pose proof (Prim2SF_valid old) as V.
  rewrite mul_spec.
  change (Prim2SF CENTS_SMOOTHING) with (S754_finite false 7926335344172073 (-53)).
  destruct (Prim2SF old) as [s|s| |s m e]; try discriminate.
  - apply mul_magnitude; try reflexivity.
    cbn [rank]. rewrite Z.abs_0, Z.mul_0_r.
    apply Z.mul_nonneg_nonneg; [apply scaled_nonneg|apply Z.pow_nonneg; lia].
  - cbn [valid_binary] in V. rewrite rank_finite in H.
    destruct (Z.eq_dec (scaled (Z.pos m) e) (scaled 7036874417766400 (-47))) as [E|N].
    + destruct (scaled_inj m 7036874417766400 e (-47) V eq_refl E) as [-> ->].
      destruct s.
      * change (SF64mul _ _) with (S754_finite true 6192449487634432 (-47)).
        rewrite rank_finite. split; [reflexivity|apply Z.le_refl].
      * change (SF64mul _ _) with (S754_finite false 6192449487634432 (-47)).
        rewrite rank_finite. split; [reflexivity|apply Z.le_refl].
    + assert (L : scaled (Z.pos m) e <= scaled (7036874417766400 - 1) (-47)).
      { apply (valid_lt_pred m 7036874417766400 e (-47) V eq_refl); [closed_lt|].
        apply Z.le_neq. split; assumption. }
      apply mul_magnitude; try reflexivity; try assumption.
      rewrite !rank_finite.
      apply Z.le_trans with (scaled 7926335344172073 (-53) * scaled (7036874417766400 - 1) (-47)).
      * apply Z.mul_le_mono_nonneg_l; [apply scaled_nonneg|exact L].
      * closed_le.
Qed.

Lemma raw_term_range (raw : float) :
  centsInRange raw = true ->
  fin (Prim2SF ((1 - CENTS_SMOOTHING) * raw)) = true
  /\ Z.abs (rank (Prim2SF ((1 - CENTS_SMOOTHING) * raw))) <= scaled 6755399441055744 (-50).
Proof.
  rewrite centsInRange_view. intros [F H].
  pose proof (Prim2SF_valid raw) as V.
  rewrite mul_spec.
  change (Prim2SF (1 - CENTS_SMOOTHING)) with (S754_finite false 8646911284551352 (-56)).
  apply mul_magnitude; try reflexivity; try assumption.
  rewrite rank_finite.
  apply Z.le_trans with (scaled 8646911284551352 (-56) * scaled 7036874417766400 (-47)).
  - apply Z.mul_le_mono_nonneg_l; [apply scaled_nonneg|exact H].
  - closed_le.
Qed.

(** A blend of two values in range is in range: the rounding of the two
    products and of the sum never pushes it past 50. *)
Lemma smooth_step_range (old raw : float) :
  centsInRange old = true -> centsInRange raw = true ->
  centsInRange (CENTS_SMOOTHING * old + (1 - CENTS_SMOOTHING) * raw) = true.
Proof.
  intros Ho Hr.
  destruct (smoothed_term_range old Ho) as [F1 H1].
  destruct (raw_term_range raw Hr) as [F2 H2].
  apply centsInRange_view. rewrite add_spec.
  apply add_magnitude; try apply Prim2SF_valid; try assumption; [reflexivity|].
  apply Z.le_trans with (scaled 6192449487634432 (-47) + scaled 6755399441055744 (-50)).
  - apply Z.add_le_mono; assumption.
  - closed_le.
Qed.

Lemma smoothCents_range (s : state) (noteIndex : Z) (rawCents : float) :
  centsInRange (smoothedCents s) = true -> centsInRange rawCents = true ->
  centsInRange (snd (smoothCents s noteIndex rawCents)) = true
  /\ centsInRange (smoothedCents (fst (smoothCents s noteIndex rawCents))) = true.
Proof.
  intros Hs Hr.
  destruct (smoothCents_stores s noteIndex rawCents) as [_ ->].
  assert (G : centsInRange (snd (smoothCents s noteIndex rawCents)) = true); [|now split].
  unfold smoothCents.
  destruct (negb (noteIndex =? smoothedCentsNote s)); [exact Hr|].
  destruct (abs (rawCents - smoothedCents s) <? CENTS_DEADZONE)%float; [exact Hs|].
  cbn. now apply smooth_step_range.
Qed.

End Segment.

Lemma detectLoop_cents (s : state) (amplitude pitch : float) :
  smoothedCents (fst (detectLoop s amplitude pitch)) = smoothedCents s.
Proof.
  unfold detectLoop, noteJump.
  repeat match goal with
         | |- context [if ?c then _ else _] => destruct c
         | |- context [let (_, _) := ?c in _] => destruct c
         end; reflexivity.
Qed.

Lemma foldCents_in_range (cents : float) :
  centsInRange cents = true -> foldCents cents = cents.
Proof.
  unfold centsInRange, foldCents, gtb. rewrite andb_true_iff. intros [_ H].
  destruct (50 <? cents) eqn:G; [|reflexivity].
  apply leb_rank in H. apply ltb_rank in G. lia.
Qed.

Lemma frame_cents_range (s : state) (f : block * (Z * float)) :
  centsInRange (smoothedCents s) = true -> centsInRange (snd (snd f)) = true ->
  centsInRange (smoothedCents (frame s f)) = true.
Proof.
  intros Hs Hf. unfold frame.
  pose proof (detectLoop_cents s (fst (fst f)) (snd (fst f))) as E.
  destruct (detectLoop s (fst (fst f)) (snd (fst f))) as [s1 [rp ra]].
  cbn [fst] in E. rewrite <- E in Hs.
  unfold processPitch.
  destruct ((rp <=? 0) || (ra <=? 0)); [exact Hs|]. cbv zeta.
  destruct ((noteIndexOf (fst (snd f)) >=? 0)%Z && (noteIndexOf (fst (snd f)) <? 12)%Z);
    [|exact Hs].
  rewrite foldCents_in_range by assumption.
  now apply smoothCents_range.
Qed.

(** X17.  Over a listening session in which every frame's raw cents lie
    between -50 and 50, the stored smoothed cents stay between -50 and 50,
    and so does the value the next [smoothCents] call returns for display:
    the rounding of the blend never carries the indicator out of the note's
    segment, and no [NaN] or infinity appears. *)
Theorem session_cents_stay_in_segment (fs : list (block * (Z * float))) :
  Forall (fun f => centsInRange (snd (snd f)) = true) fs ->
  centsInRange (smoothedCents (session fs)) = true
  /\ forall noteIndex rawCents,
       centsInRange rawCents = true ->
       centsInRange (snd (smoothCents (session fs) noteIndex rawCents)) = true.
Proof.
  intros F.
  assert (G : forall s, centsInRange (smoothedCents s) = true ->
                        centsInRange (smoothedCents (fold_left frame fs s)) = true).
  { induction F as [|f fs Hf _ IH]; intros s Hs; [exact Hs|].
    cbn [fold_left]. apply IH. now apply frame_cents_range. }
  assert (I : centsInRange (smoothedCents (session fs)) = true) by (apply G; reflexivity).
  split; [exact I|].
  intros noteIndex rawCents Hr. now apply smoothCents_range.
Qed.

Lemma session_cents_stay_in_segment_witness :
  centsInRange
    (smoothedCents (session [((0.1, 440), (69%Z, 12.5)); ((0.1, 441), (69%Z, 30));
                             ((0.1, 442), (69%Z, -50))])) = true.
Proof.
  apply (session_cents_stay_in_segment
           [((0.1, 440), (69%Z, 12.5)); ((0.1, 441), (69%Z, 30));
            ((0.1, 442), (69%Z, -50))]).
  repeat constructor.
Defined.

(** ** Restarting after a block without pitch *)

(** X18.  After any block that was reported as "no pitch", the next voiced
    block is adopted as it is: its pitch is stored and reported without
    blending and without the jump filter, whatever the tracker held before
    and whatever jump state it still holds. *)
Theorem voiced_block_after_no_pitch_is_adopted (s : state)
    (amplitude0 pitch0 amplitude pitch : float) :
  (fst (snd (detectLoop s amplitude0 pitch0)) =? 0) = true ->
  voiced amplitude pitch = true ->
  snd (detectLoop (fst (detectLoop s amplitude0 pitch0)) amplitude pitch)
  = (pitch, amplitude)
  /\ smoothedPitch (fst (detectLoop (fst (detectLoop s amplitude0 pitch0)) amplitude pitch))
     = pitch.
Proof.
  intros Hz V.
  assert (E : smoothedPitch (fst (detectLoop s amplitude0 pitch0)) = 0).
  { destruct (zero_report_is_reset s amplitude0 pitch0 Hz) as [Ha|[Ha Hp]].
    - now rewrite detectLoop_gate.
    - now rewrite detectLoop_invalid. }
  rewrite detectLoop_first; [split; reflexivity|exact V|].
  rewrite E. reflexivity.
Qed.

Lemma voiced_block_after_no_pitch_is_adopted_witness :
  snd (detectLoop (fst (detectLoop (mkState 440 9 0 2 1000) 0.001 0)) 0.1 1000)
  = (1000, 0.1).
Proof.
  apply (voiced_block_after_no_pitch_is_adopted (mkState 440 9 0 2 1000) 0.001 0 0.1 1000);
    reflexivity.
Defined.
